(** * hydrus-sub-monitor: entity model, ranking and colouring, persistence

    A shallow embedding of the non-GUI logic of the subscription monitor:
    - [src/models/subscription.py]: [Query], [Subscription],
      [SubscriptionData];
    - [src/controllers/main_controller.py]: [get_all_queries_sorted];
    - [src/utils/formatters.py] and [src/views/widgets/query_tree.py]:
      the status colour, the age gradient and the min/max normalisation;
    - [src/models/database.py]: ingestion, loading, acknowledgment updates
      and restore.

    Python [int] is unbounded and is modelled by [Z]; [float] by the
    rationals that binary64 holds, with the two infinities and NaN; [str]
    by [string]; a [list] by [list]; [Optional] by [option]. *)

From Stdlib Require Import ZArith QArith Qround Qabs Qpower Lia Lqa.
From stdpp Require Import base option list sorting strings gmap.

Local Open Scope string_scope.
Local Open Scope list_scope.
Local Open Scope Z_scope.

(** ** Entity model ([src/models/subscription.py]) *)

Module Model.

(** [file_velocity] is a list of decoded JSON values ([List[Any]]) which
    the program stores and returns but never inspects. *)
Unset Elimination Schemes.
Inductive json :=
  | JNull
  | JBool (b : bool)
  | JInt (n : Z)
  | JString (s : string)
  | JList (items : list json)
  | JDict (items : list (string * json)).
Set Elimination Schemes.

Record Query := mkQuery {
  id : option Z;
  query_text : string;
  human_name : string;
  display_name : string;
  last_check_time : Z;
  next_check_time : Z;
  next_check_status : string;
  paused : bool;
  dead : bool;
  checking_now : bool;
  can_check_now : bool;
  checker_status : Z;
  file_velocity : list json;
  file_seed_cache_status : string;
  last_file_time : Z;
  acknowledged : bool;
  acknowledged_time : Z
}.

Record Subscription := mkSubscription {
  name : string;
  gug_name : string;
  queries : list Query
}.

Record SubscriptionData := mkSubscriptionData {
  subscriptions : list Subscription;
  version : Z;
  hydrus_version : string
}.

(** [Query.is_expired_acknowledgment]; the property reads the clock, which
    is passed here as [now]. *)
Definition is_expired_acknowledgment (q : Query) (now : Z) : bool :=
  if negb (acknowledged q) || (acknowledged_time q =? 0) then false
  else acknowledged_time q <=? now.

(** [SubscriptionData.get_subscription_by_name]: the first match. *)
Fixpoint find_subscription (subs : list Subscription) (n : string)
  : option Subscription :=
  match subs with
  | [] => None
  | sub :: rest =>
      if String.eqb (name sub) n then Some sub else find_subscription rest n
  end.

Definition get_subscription_by_name (d : SubscriptionData) (n : string)
  : option Subscription :=
  find_subscription (subscriptions d) n.

(** The nested loop of [get_all_queries]: every query paired with the name
    of its subscription, in order. *)
Definition pair_queries (subs : list Subscription) : list (string * Query) :=
  flat_map (fun sub => map (fun q => (name sub, q)) (queries sub)) subs.

End Model.

Export Model.

(** ** Exceptions *)

Module Python.

Inductive exn :=
  | OperationalError
  | DatabaseError
  | JSONDecodeError
  | FileNotFoundError
  | ValueError
  | PermissionError
  | SameFileError
  | OverflowError
  | ZeroDivisionError
  | OSError.

(** What a call does: it returns a value or an exception leaves it. *)
Inductive outcome (A : Type) :=
  | Returned (a : A)
  | Raised (e : exn).
Arguments Returned {A} a.
Arguments Raised {A} e.

(** One statement after another: an exception ends the sequence. *)
Definition and_then {A B : Type} (m : outcome A) (k : A -> outcome B)
  : outcome B :=
  match m with
  | Returned a => k a
  | Raised e => Raised e
  end.

Notation "'let!' x ':=' m 'in' k" := (and_then m (fun x => k))
  (at level 10, x name, m at level 100, k at level 200).

(** The integers SQLite stores ([sqlite3] raises [OverflowError] when it
    is given any other) and the integers a C [int] holds (PyQt raises
    [OverflowError] when an [int] argument is given any other). *)
Definition int64 (n : Z) : bool := (- 2 ^ 63 <=? n) && (n <? 2 ^ 63).

Definition c_int (n : Z) : bool := (- 2 ^ 31 <=? n) && (n <? 2 ^ 31).

End Python.

Export Python.

(** ** Stable sorting by a key *)

Module PySort.

(** Python's [list.sort(key=...)] is a stable sort; it is modelled by insertion
    from the right, which places an element in front of the first element
    whose key is not smaller.  [stable_sort_unique] below shows that every
    stable sort computes the same list. *)
Section StableSort.
Context {A K : Type} (leb : K -> K -> bool) (f : A -> K).

Fixpoint insert_sorted (x : A) (l : list A) : list A :=
  match l with
  | [] => [x]
  | y :: l' =>
      if leb (f x) (f y) then x :: y :: l' else y :: insert_sorted x l'
  end.

Definition list_sort (l : list A) : list A := foldr insert_sorted [] l.

(** The order the sort goes by. *)
Definition key_order (a b : A) : Prop := leb (f a) (f b) = true.

(** The elements of key [k], in their order of appearance. *)
Definition with_key `{EqDecision K} (k : K) (l : list A) : list A :=
  List.filter (fun a => bool_decide (f a = k)) l.

(** Equal keys keep their relative order. *)
Definition stable `{EqDecision K} (input output : list A) : Prop :=
  forall k, with_key k output = with_key k input.
End StableSort.

End PySort.

Export PySort.

(** ** Ranking ([src/controllers/main_controller.py]) *)

Module Ranking.

(** Python compares the key tuples lexicographically. *)
Definition key := (Z * Z)%type.

Definition key_leb (a b : key) : bool :=
  (a.1 <? b.1) || ((a.1 =? b.1) && (a.2 <=? b.2)).

Definition key_le (a b : key) : Prop :=
  a.1 < b.1 \/ (a.1 = b.1 /\ a.2 <= b.2).

(** The local function [sort_key] of [get_all_queries_sorted]. *)
Definition sort_key (item : string * Query) : key :=
  let query := item.2 in
  if acknowledged query then (2, last_file_time query)
  else if last_file_time query =? 0 then (1, 0)
  else (0, last_file_time query).

(** Ascending by [sort_key]. *)
Definition ascending (l : list (string * Query)) : Prop :=
  StronglySorted (fun a b => key_le (sort_key a) (sort_key b)) l.

Record MainController := mkMainController {
  subscription_data : option SubscriptionData;
  current_filter : option string
}.

(** [get_filtered_subscriptions]; an empty filter string is falsy. *)
Definition get_filtered_subscriptions (self : MainController)
  : list Subscription :=
  match subscription_data self with
  | None => []
  | Some data =>
      match current_filter self with
      | Some flt =>
          if String.eqb flt "" then subscriptions data
          else match get_subscription_by_name data flt with
               | Some filtered_sub => [filtered_sub]
               | None => []
               end
      | None => subscriptions data
      end
  end.

Definition sort_queries (all_queries : list (string * Query))
  : list (string * Query) :=
  list_sort key_leb sort_key all_queries.

Definition get_all_queries_sorted (self : MainController)
  : list (string * Query) :=
  match subscription_data self with
  | None => []
  | Some _ => sort_queries (pair_queries (get_filtered_subscriptions self))
  end.

End Ranking.

(** ** Binary64 arithmetic

    Python's [float] is IEEE 754 binary64.  A finite float is modelled by
    the rational it stands for; every operation computes the exact result
    and rounds it to the nearest float, ties to even.  The two zeros are
    one [Finite 0]: the program neither divides by a float nor looks at
    its sign. *)

Module Binary64.
Local Open Scope Q_scope.

(** The integer nearest to [q]; of two equally near ones, the even one. *)
Definition round_half_even (q : Q) : Z :=
  let f := Qfloor q in
  match Qcompare (q - inject_Z f) (1 # 2) with
  | Lt => f
  | Gt => (f + 1)%Z
  | Eq => if Z.even f then f else (f + 1)%Z
  end.

(** For [q > 0], the [e] with 2^e <= q < 2^(e+1). *)
Definition binade (q : Q) : Z :=
  let k := (Z.log2 (Qnum q) - Z.log2 (Z.pos (Qden q)))%Z in
  if Qle_bool (2 ^ k) q then k else (k - 1)%Z.

(** The exponent of the last place of the floats around [q]: 53 bits of
    precision, and the spacing 2^-1074 below 2^-1022. *)
Definition last_place (q : Q) : Z :=
  (Z.max (binade (Qabs q)) (-1022) - 52)%Z.

(** [q] rounded to the nearest number with 53 bits of precision, ties to
    even, the exponent not bounded above. *)
Definition round64 (q : Q) : Q :=
  if Qeq_bool q 0 then 0
  else
    Qred (inject_Z (round_half_even (q / 2 ^ last_place q))
          * 2 ^ last_place q).

Inductive float :=
  | Finite (q : Q)
  | Infinity (negative : bool)
  | NaN.

Definition negative (q : Q) : bool := negb (Qle_bool 0 q).

(** The float of an exact result: a rounded value of magnitude 2^1024 or
    more is an infinity. *)
Definition fl (q : Q) : float :=
  let r := round64 q in
  if Qle_bool (2 ^ 1024) (Qabs r) then Infinity (negative r) else Finite r.

(** [x * y] and [x - y] on floats; neither raises. *)
Definition float_mul (x y : float) : float :=
  match x, y with
  | Finite a, Finite b => fl (a * b)
  | NaN, _ | _, NaN => NaN
  | Infinity s, Finite b | Finite b, Infinity s =>
      if Qeq_bool b 0 then NaN else Infinity (xorb s (negative b))
  | Infinity s, Infinity s' => Infinity (xorb s s')
  end.

Definition float_sub (x y : float) : float :=
  match x, y with
  | Finite a, Finite b => fl (a - b)
  | NaN, _ | _, NaN => NaN
  | Infinity s, Finite _ => Infinity s
  | Finite _, Infinity s => Infinity (negb s)
  | Infinity s, Infinity s' => if Bool.eqb s s' then NaN else Infinity s
  end.

(** [a / b] on two [int]s: the correctly rounded quotient;
    [ZeroDivisionError] for [b = 0] and [OverflowError] for a quotient too
    large for a float. *)
Definition true_div (a b : Z) : outcome float :=
  if (b =? 0)%Z then Raised ZeroDivisionError
  else
    match fl (inject_Z a / inject_Z b) with
    | Finite q => Returned (Finite q)
    | _ => Raised OverflowError
    end.

(** [int(x)] for a finite [x]: towards zero. *)
Definition truncate (x : Q) : Z :=
  if Qle_bool 0 x then Qfloor x else Qceiling x.

(** [int(x)]: [OverflowError] for an infinity, [ValueError] for NaN. *)
Definition int_of_float (x : float) : outcome Z :=
  match x with
  | Finite q => Returned (truncate q)
  | Infinity _ => Raised OverflowError
  | NaN => Raised ValueError
  end.

(** [base - ratio * slope] with finite intermediate values: rounded after
    the product and after the difference. *)
Definition channel (base slope ratio : Q) : Q :=
  round64 (base - round64 (ratio * slope)).

End Binary64.

(** ** Colouring ([src/utils/formatters.py], [src/views/widgets/query_tree.py]) *)

Module Coloring.
Import Binary64.

(** A [QColor] as the three channel arguments it was built from. *)
Record QColor := mkQColor { red : Z; green : Z; blue : Z }.

(** [QColor(r, g, b)]: the constructor takes C [int]s, and PyQt raises
    [OverflowError] for an argument outside them. *)
Definition QColor_rgb (r g b : Z) : outcome QColor :=
  if c_int r && c_int g && c_int b then Returned (mkQColor r g b)
  else Raised OverflowError.

Definition age_ratio (last_file_time min_time max_time : Z) : outcome float :=
  true_div (max_time - last_file_time) (max_time - min_time).

(** The literals 240, 100, 200 and 140 are converted to floats, exactly. *)
Definition get_color_for_age (last_file_time min_time max_time : Z)
  : outcome QColor :=
  if last_file_time =? 0 then QColor_rgb 240 240 240
  else if min_time =? max_time then QColor_rgb 255 220 180
  else
    let! age_ratio := age_ratio last_file_time min_time max_time in
    let red := 255 in
    let! green :=
      int_of_float
        (float_sub (Finite 240%Q) (float_mul age_ratio (Finite 100%Q))) in
    let! blue :=
      int_of_float
        (float_sub (Finite 200%Q) (float_mul age_ratio (Finite 140%Q))) in
    QColor_rgb red green blue.

(** The green and blue channels of the gradient branch, when it returns,
    as functions of the exact quotient. *)
Definition green_of (ratio : Q) : Z :=
  truncate (channel 240%Q 100%Q (round64 ratio)).

Definition blue_of (ratio : Q) : Z :=
  truncate (channel 200%Q 140%Q (round64 ratio)).

(** The three status colours are built from constants within a C [int]. *)
Definition get_status_color (query : Query) (ack_time now : Z)
  : option QColor :=
  if acknowledged query && ((ack_time =? 0) || (ack_time >? now))
  then Some (mkQColor 200 255 200)
  else if dead query then Some (mkQColor 255 200 200)
  else if paused query then Some (mkQColor 230 230 230)
  else None.

(** The "Ack Until" column of [_create_query_item]. *)
Inductive ack_until := AckNA | AckExpired | AckUntil (t : Z).

Definition ack_until_str (query : Query) (now : Z) : ack_until :=
  if acknowledged query && (acknowledged_time query >? 0) then
    if acknowledged_time query >? now
    then AckUntil (acknowledged_time query) else AckExpired
  else AckNA.

(** The background colour [_create_query_item] gives to every column of the
    row ([final_color], lines 132 to 139). *)
Definition create_query_item (query : Query) (now min_time max_time : Z)
  : outcome QColor :=
  match get_status_color query (acknowledged_time query) now with
  | Some final_color => Returned final_color
  | None => get_color_for_age (last_file_time query) min_time max_time
  end.

(** [format_timestamp], as to whether it returns: it catches [ValueError]
    and [OSError] and returns a text either way, but
    [datetime.fromtimestamp] raises [OverflowError] for a timestamp
    outside the platform's [time_t], of 64 bits here, and that one is not
    caught.  The text is not modelled. *)
Definition format_timestamp (timestamp : Z) : outcome unit :=
  if int64 timestamp then Returned tt else Raised OverflowError.

(** The timestamps [_create_query_item] formats for the texts of a row
    (lines 89 to 102), before it computes the colour. *)
Definition format_times (query : Query) (now : Z) : outcome unit :=
  let! _ := (if last_check_time query =? 0 then Returned tt
             else format_timestamp (last_check_time query)) in
  let! _ := (if next_check_time query =? 0 then Returned tt
             else format_timestamp (next_check_time query)) in
  let! _ := (if last_file_time query =? 0 then Returned tt
             else format_timestamp (last_file_time query)) in
  if acknowledged query && (acknowledged_time query >? 0) then
    if acknowledged_time query >? now
    then format_timestamp (acknowledged_time query) else Returned tt
  else Returned tt.

(** [populate_queries]: the normalisation domain and the rows created. *)
Definition valid_times (queries : list (string * Query)) : list Z :=
  map (fun q => last_file_time q.2)
    (List.filter
       (fun q => (last_file_time q.2 >? 0) && negb (acknowledged q.2))
       queries).

Definition list_min (l : list Z) : Z :=
  match l with [] => 0 | t :: ts => foldl Z.min t ts end.

Definition list_max (l : list Z) : Z :=
  match l with [] => 0 | t :: ts => foldl Z.max t ts end.

Definition time_range (queries : list (string * Query)) : Z * Z :=
  match valid_times queries with
  | [] => (0, 0)
  | _ :: _ => (list_min (valid_times queries), list_max (valid_times queries))
  end.

(** The loop of [populate_queries]: a row is created and added, one after
    the other; an exception leaves the loop and the function, with the
    rows added before it in the tree. *)
Fixpoint add_items (queries : list (string * Query)) (now min_time max_time : Z)
  : list QColor * option exn :=
  match queries with
  | [] => ([], None)
  | q :: rest =>
      match (let! _ := format_times q.2 now in
             create_query_item q.2 now min_time max_time) with
      | Raised e => ([], Some e)
      | Returned final_color =>
          let '(items, e) := add_items rest now min_time max_time in
          (final_color :: items, e)
      end
  end.

(** The colours of the rows in the tree after the call, and the exception
    that left it, if any. *)
Definition populate_queries (queries : list (string * Query)) (now : Z)
  : list QColor * option exn :=
  let '(min_time, max_time) := time_range queries in
  add_items queries now min_time max_time.

End Coloring.

(** ** Persistence ([src/models/database.py]) *)

Module Persistence.

(** *** The two relations

    The columns [created_at] and [updated_at] hold wall-clock values which
    nothing reads back; they are not part of the rows below. *)

Record subscription_row := mkSubscriptionRow {
  col_id : Z;
  col_name : string;
  col_gug_name : string
}.

Record query_row := mkQueryRow {
  col_query_id : Z;
  col_subscription_id : Z;
  col_query_text : string;
  col_human_name : string;
  col_display_name : string;
  col_last_check_time : Z;
  col_next_check_time : Z;
  col_next_check_status : string;
  col_paused : bool;
  col_dead : bool;
  col_checking_now : bool;
  col_can_check_now : bool;
  col_checker_status : Z;
  col_file_velocity_data : string;
  col_file_seed_cache_status : string;
  col_last_file_time : Z;
  col_acknowledged : bool;
  col_acknowledged_time : Z
}.

(** A database file: each relation is present or not, and the
    [AUTOINCREMENT] counters ([sqlite_sequence]) hold the largest id ever
    handed out for each relation. *)
Record database := mkDatabase {
  subscriptions_table : option (list subscription_row);
  queries_table : option (list query_row);
  subscriptions_seq : Z;
  queries_seq : Z
}.

(** What is found at a path: a file the process cannot open, a file that
    is not an SQLite database, or a database. *)
Inductive file :=
  | Unreadable
  | NotADatabase
  | Sqlite (d : database).

(** *** The payload of the API

    The payload is a [dict] read with [.get(key, default)]: a missing key
    is [None] here and the default is applied where the code applies it. *)

Record QueryDict := mkQueryDict {
  d_query_text : option string;
  d_human_name : option string;
  d_display_name : option string;
  d_last_check_time : option Z;
  d_next_check_time : option Z;
  d_next_check_status : option string;
  d_paused : option bool;
  d_dead : option bool;
  d_checking_now : option bool;
  d_can_check_now : option bool;
  d_checker_status : option Z;
  d_file_velocity : option (list json);
  d_file_seed_cache_status : option string;
  d_last_file_time : option Z
}.

Record SubscriptionDict := mkSubscriptionDict {
  d_name : option string;
  d_gug_name : option string;
  d_queries : option (list QueryDict)
}.

Record ApiData := mkApiData {
  d_subscriptions : option (list SubscriptionDict)
}.

(** *** A connection

    [committed] is what the file holds, [working] what the open
    transaction sees.  [budget] injects a storage failure: [Some n] lets
    [n] more statements (or commits) succeed and makes the next one raise;
    [None] injects none. *)
Record connection := mkConnection {
  committed : database;
  working : database;
  budget : option nat;
  lastrowid : Z;
  rowcount : Z
}.

Definition M (A : Type) : Type := connection -> (exn + A) * connection.

Definition ret {A} (a : A) : M A := fun c => (inr a, c).

Definition raise {A} (e : exn) : M A := fun c => (inl e, c).

Definition bind {A B} (m : M A) (k : A -> M B) : M B :=
  fun c =>
    match m c with
    | (inl e, c') => (inl e, c')
    | (inr a, c') => k a c'
    end.

Notation "x <- m ;; k" := (bind m (fun x => k))
  (at level 100, m at next level, k at level 200, right associativity).
Notation "m ;;; k" := (bind m (fun _ => k))
  (at level 100, k at level 200, right associativity).

Fixpoint for_each {A} (l : list A) (body : A -> M unit) : M unit :=
  match l with
  | [] => ret tt
  | x :: l' => body x ;;; for_each l' body
  end.

Definition connect (d : database) (faults : option nat) : connection :=
  mkConnection d d faults 0 (-1).

(** Every statement and every commit goes through the storage engine,
    which raises once the budget is used up. *)
Definition engine : M unit :=
  fun c =>
    match budget c with
    | Some O => (inl OperationalError, c)
    | Some (S n) =>
        (inr tt,
         mkConnection (committed c) (working c) (Some n)
           (lastrowid c) (rowcount c))
    | None => (inr tt, c)
    end.

Definition set_working (d : database) (c : connection) : connection :=
  mkConnection (committed c) d (budget c) (lastrowid c) (rowcount c).

Definition commit : M unit :=
  engine ;;;
  fun c =>
    (inr tt,
     mkConnection (working c) (working c) (budget c)
       (lastrowid c) (rowcount c)).

Definition rollback (c : connection) : connection :=
  set_working (committed c) c.

(** Closing the connection leaves the committed state in the file. *)
Definition close (c : connection) : file := Sqlite (committed c).

(** A computation that never commits. *)
Definition keeps_committed {A} (m : M A) : Prop :=
  forall c, committed (m c).2 = committed c.

(** A computation whose failures leave the file as it was. *)
Definition fails_atomically {A} (m : M A) : Prop :=
  forall c e c', m c = (inl e, c') -> committed c' = committed c.

(** *** Statements

    A statement maps the database the transaction sees to a new one, with
    the cursor's [rowcount] and, for an [INSERT], its [lastrowid]; it
    raises when a relation it names does not exist. *)

Definition statement : Type :=
  database -> exn + (database * Z * option Z).

Definition execute (stmt : statement) : M unit :=
  engine ;;;
  fun c =>
    match stmt (working c) with
    | inl e => (inl e, c)
    | inr (d, count, inserted) =>
        (inr tt,
         mkConnection (committed c) d (budget c)
           (default (lastrowid c) inserted) count)
    end.

(** The parameters of a statement are bound before it is run: [sqlite3]
    raises [OverflowError] for an [int] that does not fit in 64 bits, and
    the statement does not reach the engine. *)
Definition bind_parameters (params : list Z) : M unit :=
  fun c =>
    if forallb int64 params then (inr tt, c) else (inl OverflowError, c).

Definition get_lastrowid : M Z := fun c => (inr (lastrowid c), c).

Definition get_rowcount : M Z := fun c => (inr (rowcount c), c).

Definition set_subscriptions (rows : list subscription_row) (seq : Z)
  (d : database) : database :=
  mkDatabase (Some rows) (queries_table d) seq (queries_seq d).

Definition set_queries (rows : list query_row) (seq : Z) (d : database)
  : database :=
  mkDatabase (subscriptions_table d) (Some rows) (subscriptions_seq d) seq.

(** [DELETE FROM queries] *)
Definition delete_from_queries : statement :=
  fun d =>
    match queries_table d with
    | None => inl OperationalError
    | Some rows =>
        inr (set_queries [] (queries_seq d) d, Z.of_nat (length rows), None)
    end.

(** [DELETE FROM subscriptions] *)
Definition delete_from_subscriptions : statement :=
  fun d =>
    match subscriptions_table d with
    | None => inl OperationalError
    | Some rows =>
        inr (set_subscriptions [] (subscriptions_seq d) d,
             Z.of_nat (length rows), None)
    end.

(** [INSERT INTO subscriptions (name, gug_name, updated_at) VALUES (?, ?, ?)] *)
Definition insert_into_subscriptions (sub_name sub_gug_name : string)
  : statement :=
  fun d =>
    match subscriptions_table d with
    | None => inl OperationalError
    | Some rows =>
        let new_id := subscriptions_seq d + 1 in
        inr (set_subscriptions
               (rows ++ [mkSubscriptionRow new_id sub_name sub_gug_name])
               new_id d,
             1, Some new_id)
    end.

Section Json.
(** [json.dumps] and [json.loads] ([None] when it raises). *)
Variable json_dumps : list json -> string.
Variable json_loads : string -> option (list json).

(** The row [INSERT INTO queries (...) VALUES (...)] builds from a payload
    query; [acknowledged] and [acknowledged_time] are not listed and take
    the column default 0. *)
Definition query_values (new_id sub_id : Z) (query : QueryDict) : query_row :=
  mkQueryRow new_id sub_id
    (default "" (d_query_text query))
    (default "" (d_human_name query))
    (default "" (d_display_name query))
    (default 0 (d_last_check_time query))
    (default 0 (d_next_check_time query))
    (default "" (d_next_check_status query))
    (default false (d_paused query))
    (default false (d_dead query))
    (default false (d_checking_now query))
    (default false (d_can_check_now query))
    (default 0 (d_checker_status query))
    (json_dumps (default [] (d_file_velocity query)))
    (default "" (d_file_seed_cache_status query))
    (default 0 (d_last_file_time query))
    false 0.

(** The [int] parameters of that [INSERT] which come from the payload;
    [sub_id] is the row id SQLite has just handed out. *)
Definition query_parameters (query : QueryDict) : list Z :=
  [default 0 (d_last_check_time query);
   default 0 (d_next_check_time query);
   default 0 (d_checker_status query);
   default 0 (d_last_file_time query)].

Definition insert_into_queries (sub_id : Z) (query : QueryDict) : statement :=
  fun d =>
    match queries_table d with
    | None => inl OperationalError
    | Some rows =>
        let new_id := queries_seq d + 1 in
        inr (set_queries (rows ++ [query_values new_id sub_id query]) new_id d,
             1, Some new_id)
    end.

(** *** [save_subscription_data]

    [create_backup], called first when backups are enabled, copies the
    file into the backup directory and does not touch the store; it is
    outside these definitions. *)

(** The body of the [try] block. *)
Definition save_transaction (data : ApiData) : M bool :=
  execute delete_from_queries ;;;
  execute delete_from_subscriptions ;;;
  for_each (default [] (d_subscriptions data)) (fun sub =>
    execute (insert_into_subscriptions
               (default "Unknown" (d_name sub))
               (default "" (d_gug_name sub))) ;;;
    sub_id <- get_lastrowid ;;
    for_each (default [] (d_queries sub)) (fun query =>
      bind_parameters (query_parameters query) ;;;
      execute (insert_into_queries sub_id query))) ;;;
  commit ;;;
  ret true.

(** [sqlite3.connect] is called before the [try]: when it raises nothing
    catches it.  A file that is not a database opens, and the first
    statement raises. *)
Definition save_subscription_data (store : file) (faults : option nat)
  (data : ApiData) : outcome bool * file :=
  match store with
  | Unreadable => (Raised OperationalError, store)
  | NotADatabase => (Raised DatabaseError, store)
  | Sqlite d =>
      match save_transaction data (connect d faults) with
      | (inr b, c) => (Returned b, close c)
      | (inl e, c) => (Raised e, close (rollback c))
      end
  end.

(** *** [load_subscription_data] *)

(** A row of the [LEFT JOIN]: a subscription with one of its queries, or
    with [NULL]s when it has none. *)
Definition joined_row : Type := subscription_row * option query_row.

Definition left_join (subs : list subscription_row) (qs : list query_row)
  : list joined_row :=
  flat_map
    (fun s =>
       match List.filter (fun q => col_subscription_id q =? col_id s) qs with
       | [] => [(s, None)]
       | matching => map (fun q => (s, Some q)) matching
       end)
    subs.

(** [ORDER BY s.name, q.query_text]: byte-wise comparison, [NULL] first;
    rows with equal keys are taken in the order of the join. *)
Definition order_key (r : joined_row) : string * option string :=
  (col_name r.1, col_query_text <$> r.2).

Definition order_leb (a b : string * option string) : bool :=
  if String.eqb a.1 b.1 then
    match a.2, b.2 with
    | None, _ => true
    | Some _, None => false
    | Some x, Some y => String.leb x y
    end
  else String.leb a.1 b.1.

Definition select_subscriptions_with_queries (d : database)
  : exn + list joined_row :=
  match subscriptions_table d, queries_table d with
  | Some subs, Some qs => inr (list_sort order_leb order_key (left_join subs qs))
  | _, _ => inl OperationalError
  end.

Definition fetchall {R} (select : database -> exn + list R) : M (list R) :=
  engine ;;;
  fun c =>
    match select (working c) with
    | inl e => (inl e, c)
    | inr rows => (inr rows, c)
    end.

(** The dict built for a query row; [None] when [json.loads] raises. *)
Definition query_data (q : query_row) : option Query :=
  velocity ←
    (if String.eqb (col_file_velocity_data q) "" then Some []
     else json_loads (col_file_velocity_data q));
  Some (mkQuery (Some (col_query_id q))
          (col_query_text q) (col_human_name q) (col_display_name q)
          (col_last_check_time q) (col_next_check_time q)
          (col_next_check_status q)
          (col_paused q) (col_dead q) (col_checking_now q)
          (col_can_check_now q) (col_checker_status q)
          velocity
          (col_file_seed_cache_status q) (col_last_file_time q)
          (col_acknowledged q) (col_acknowledged_time q)).

(** [subscriptions_dict], a [dict] keyed by subscription id, in insertion
    order. *)
Definition has_group (sub_id : Z) (groups : list (Z * Subscription)) : bool :=
  existsb (fun g => g.1 =? sub_id) groups.

Fixpoint append_query (sub_id : Z) (q : Query)
  (groups : list (Z * Subscription)) : list (Z * Subscription) :=
  match groups with
  | [] => []
  | (k, sub) :: rest =>
      if k =? sub_id
      then (k, mkSubscription (name sub) (gug_name sub) (queries sub ++ [q]))
             :: rest
      else (k, sub) :: append_query sub_id q rest
  end.

Fixpoint group_rows (rows : list joined_row)
  (groups : list (Z * Subscription)) : exn + list (Z * Subscription) :=
  match rows with
  | [] => inr groups
  | row :: rest =>
      let sub_id := col_id row.1 in
      let groups :=
        if has_group sub_id groups then groups
        else (groups ++
                [(sub_id,
                  mkSubscription (col_name row.1) (col_gug_name row.1) [])])%list
      in
      match row.2 with
      | None => group_rows rest groups
      | Some q =>
          match query_data q with
          | None => inl JSONDecodeError
          | Some query => group_rows rest (append_query sub_id query groups)
          end
      end
  end.

(** The body of the [try] block. *)
Definition load_rows : M SubscriptionData :=
  rows <- fetchall select_subscriptions_with_queries ;;
  match group_rows rows [] with
  | inl e => raise e
  | inr groups => ret (mkSubscriptionData (map snd groups) 80 "From Database")
  end.

Definition database_error : SubscriptionData :=
  mkSubscriptionData [] 80 "Database Error".

Definition load_subscription_data (store : file) (faults : option nat)
  : outcome SubscriptionData * file :=
  match store with
  | Unreadable => (Raised OperationalError, store)
  | NotADatabase => (Returned database_error, store)
  | Sqlite d =>
      match load_rows (connect d faults) with
      | (inr data, c) => (Returned data, close c)
      | (inl _, c) => (Returned database_error, close c)
      end
  end.

End Json.

(** *** Acknowledgment updates *)

Definition set_acknowledgment (acknowledged : bool) (ack_time : Z)
  (q : query_row) : query_row :=
  mkQueryRow (col_query_id q) (col_subscription_id q)
    (col_query_text q) (col_human_name q) (col_display_name q)
    (col_last_check_time q) (col_next_check_time q) (col_next_check_status q)
    (col_paused q) (col_dead q) (col_checking_now q) (col_can_check_now q)
    (col_checker_status q) (col_file_velocity_data q)
    (col_file_seed_cache_status q) (col_last_file_time q)
    acknowledged ack_time.

(** [UPDATE queries SET acknowledged = ?, acknowledged_time = ? WHERE ...]:
    the rows the [WHERE] clause selects are rewritten, and [rowcount] is
    their number. *)
Definition update_where (selected : query_row -> bool)
  (acknowledged : bool) (ack_time : Z) (rows : list query_row)
  : list query_row * Z :=
  (map (fun q => if selected q then set_acknowledgment acknowledged ack_time q
                 else q) rows,
   Z.of_nat (length (List.filter selected rows))).

(** [... WHERE id = ?] *)
Definition where_id (query_id : Z) (q : query_row) : bool :=
  col_query_id q =? query_id.

Definition update_by_id (acknowledged : bool) (ack_time query_id : Z)
  : statement :=
  fun d =>
    match queries_table d with
    | None => inl OperationalError
    | Some rows =>
        let '(rows', count) :=
          update_where (where_id query_id) acknowledged ack_time rows in
        inr (set_queries rows' (queries_seq d) d, count, None)
    end.

(** [(SELECT id FROM subscriptions WHERE name = ?)] as a scalar: the id of
    the first such row, or [NULL]. *)
Definition subscription_id_by_name (subs : list subscription_row)
  (sub_name : string) : option Z :=
  col_id <$> List.find (fun s => String.eqb (col_name s) sub_name) subs.

(** [... WHERE query_text = ? AND human_name = ? AND subscription_id = (...)];
    a comparison with [NULL] selects nothing. *)
Definition where_text (subs : list subscription_row)
  (text human sub_name : string) (q : query_row) : bool :=
  String.eqb (col_query_text q) text
  && String.eqb (col_human_name q) human
  && match subscription_id_by_name subs sub_name with
     | Some sid => col_subscription_id q =? sid
     | None => false
     end.

Definition update_by_text (acknowledged : bool) (ack_time : Z)
  (text human sub_name : string) : statement :=
  fun d =>
    match subscriptions_table d, queries_table d with
    | Some subs, Some rows =>
        let '(rows', count) :=
          update_where (where_text subs text human sub_name)
            acknowledged ack_time rows in
        inr (set_queries rows' (queries_seq d) d, count, None)
    | _, _ => inl OperationalError
    end.

(** The [try] block the two functions share: one [UPDATE] with its [int]
    parameters [params], the commit, and [cursor.rowcount > 0]. *)
Definition update_transaction (params : list Z) (stmt : statement) : M bool :=
  bind_parameters params ;;;
  execute stmt ;;;
  commit ;;;
  count <- get_rowcount ;;
  ret (count >? 0).

Definition run_update (store : file) (faults : option nat) (params : list Z)
  (stmt : statement) : outcome bool * file :=
  match store with
  | Unreadable => (Raised OperationalError, store)
  | NotADatabase => (Returned false, store)
  | Sqlite d =>
      match update_transaction params stmt (connect d faults) with
      | (inr b, c) => (Returned b, close c)
      | (inl _, c) => (Returned false, close (rollback c))
      end
  end.

Definition update_query_acknowledgment (store : file) (faults : option nat)
  (query_id : Z) (acknowledged : bool) (ack_time : Z) : outcome bool * file :=
  run_update store faults [ack_time; query_id]
    (update_by_id acknowledged ack_time query_id).

Definition update_queries_by_text (store : file) (faults : option nat)
  (text human sub_name : string) (acknowledged : bool) (ack_time : Z)
  : outcome bool * file :=
  run_update store faults [ack_time]
    (update_by_text acknowledged ack_time text human sub_name).

(** The shape the two [UPDATE] statements share. *)
Definition is_update (stmt : statement) (acknowledged : bool) (ack_time : Z)
  : Prop :=
  forall d d' n i,
    stmt d = inr (d', n, i) ->
    exists rows selected,
      queries_table d = Some rows /\
      n = (update_where selected acknowledged ack_time rows).2 /\
      d' = set_queries (update_where selected acknowledged ack_time rows).1
             (queries_seq d) d.

(** *** Backups and restore

    The file system is a finite map from paths to files; two paths name
    the same file exactly when they are equal. *)

Record backup_info := mkBackupInfo {
  compatible : bool;
  subscription_count : Z;
  query_count : Z
}.

(** [_get_backup_info] on an existing file.  The whole body is inside a
    [try]: a file that cannot be opened or read is reported incompatible. *)
Definition get_backup_info (f : file) : backup_info :=
  match f with
  | Sqlite d =>
      match subscriptions_table d, queries_table d with
      | Some subs, Some qs =>
          mkBackupInfo true (Z.of_nat (length subs)) (Z.of_nat (length qs))
      | _, _ => mkBackupInfo false 0 0
      end
  | Unreadable | NotADatabase => mkBackupInfo false 0 0
  end.

Inductive fs_event := Copied (src dst : string).

(** [shutil.copy2 src dst] between two file paths.  It opens [src], then
    opens [dst], which empties it, writes the content and copies the
    metadata.  [fault] injects a failure after [dst] has been opened:
    [Some partial] makes the copy raise [OSError] with [partial] at [dst] (an
    empty or partial file when a write fails, the whole copy when only
    the metadata fail). *)
Definition copy2 (fault : option file) (src dst : string)
  (fs : gmap string file) : exn * gmap string file + gmap string file :=
  match fs !! src with
  | None => inl (FileNotFoundError, fs)
  | Some f =>
      if bool_decide (src = dst) then inl (SameFileError, fs)
      else
        match f, fs !! dst with
        | Unreadable, _ => inl (PermissionError, fs)
        | _, Some Unreadable => inl (PermissionError, fs)
        | _, _ =>
            match fault with
            | Some partial => inl (OSError, <[dst := partial]> fs)
            | None => inr (<[dst := f]> fs)
            end
        end
  end.

(** The name of the safety copy; [stamp] is the formatted current time. *)
Definition restore_backup_path (db_path stamp : string) : string :=
  db_path +:+ ".restore_backup_" +:+ stamp.

(** [restore_from_backup] (the second definition in the class, which is
    the one in force).  [fault1] and [fault2] are the failures injected
    into the two copies.  The result carries the file system it leaves
    and the copies it completed, oldest first. *)
Definition restore_from_backup (db_path stamp backup_path : string)
  (fault1 fault2 : option file) (fs : gmap string file)
  : outcome bool * gmap string file * list fs_event :=
  match fs !! backup_path with
  | None => (Raised FileNotFoundError, fs, [])
  | Some backup_file =>
      if negb (compatible (get_backup_info backup_file))
      then (Raised ValueError, fs, [])
      else
        let current_backup := restore_backup_path db_path stamp in
        match copy2 fault1 db_path current_backup fs with
        | inl (e, fs1) => (Raised e, fs1, [])
        | inr fs1 =>
            match copy2 fault2 backup_path db_path fs1 with
            | inl (e, fs2) => (Raised e, fs2, [Copied db_path current_backup])
            | inr fs2 =>
                (Returned true, fs2,
                 [Copied db_path current_backup;
                  Copied backup_path db_path])
            end
        end
  end.

(** The row counts of the store at [db_path], as [_get_backup_info] reads
    them. *)
Definition row_counts (db_path : string) (fs : gmap string file)
  : option (Z * Z) :=
  (fun f => (subscription_count (get_backup_info f),
             query_count (get_backup_info f))) <$> fs !! db_path.

(** *** What a successful ingestion stores

    The rows of a payload, numbered from the counters on: one
    subscription row per payload subscription, and under it one query row
    per payload query, unacknowledged. *)

Fixpoint query_rows (json_dumps : list json -> string)
  (seq sub_id : Z) (payload : list QueryDict) : list query_row :=
  match payload with
  | [] => []
  | query :: rest =>
      query_values json_dumps (seq + 1) sub_id query
        :: query_rows json_dumps (seq + 1) sub_id rest
  end.

Fixpoint payload_rows (json_dumps : list json -> string)
  (sub_seq query_seq : Z) (payload : list SubscriptionDict)
  : list subscription_row * list query_row :=
  match payload with
  | [] => ([], [])
  | sub :: rest =>
      let sub_id := sub_seq + 1 in
      let qs := default [] (d_queries sub) in
      let '(srows, qrows) :=
        payload_rows json_dumps sub_id
          (query_seq + Z.of_nat (length qs)) rest in
      (mkSubscriptionRow sub_id
         (default "Unknown" (d_name sub)) (default "" (d_gug_name sub))
         :: srows,
       (query_rows json_dumps query_seq sub_id qs ++ qrows)%list)
  end.

Definition payload_query_count (payload : list SubscriptionDict) : nat :=
  length (flat_map (fun sub => default [] (d_queries sub)) payload).

(** Every [int] of the payload fits in 64 bits. *)
Definition queries_in_range (qs : list QueryDict) : bool :=
  forallb (fun query => forallb int64 (query_parameters query)) qs.

Definition payload_in_range (payload : list SubscriptionDict) : bool :=
  forallb (fun sub => queries_in_range (default [] (d_queries sub))) payload.

(** [spent k b b']: [k] statements went through the engine, taking the
    budget from [b] to [b']. *)
Definition spent (k : nat) (b b' : option nat) : Prop :=
  match b with
  | None => b' = None
  | Some n => (k <= n)%nat /\ b' = Some (n - k)%nat
  end.

(** [enough k b]: the budget [b] lets [k] more statements through. *)
Definition enough (k : nat) (b : option nat) : Prop :=
  match b with
  | None => True
  | Some n => (k <= n)%nat
  end.

(** The statements and the commit an ingestion of [payload] issues. *)
Definition save_statement_count (payload : list SubscriptionDict) : nat :=
  2 + length payload + payload_query_count payload + 1.

(** A row does not pair a positive acknowledgment time with a cleared
    acknowledgment flag; a store is consistent when none of its query rows
    does. *)
Definition ack_consistent (q : query_row) : bool :=
  negb ((col_acknowledged_time q >? 0) && negb (col_acknowledged q)).

Definition store_ack_consistent (store : file) : bool :=
  match store with
  | Sqlite d =>
      match queries_table d with
      | Some rows => forallb ack_consistent rows
      | None => true
      end
  | Unreadable | NotADatabase => true
  end.

End Persistence.

(** ** Ingestion as the specification words it *)

Module IngestSpec.
Import Persistence.




End IngestSpec.

(** ** The colour rules as the specification words them *)

Module ColoringSpec.
Import Coloring.

Definition acknowledged_color : QColor := mkQColor 200 255 200.
Definition dead_color : QColor := mkQColor 255 200 200.
Definition paused_color : QColor := mkQColor 230 230 230.
Definition neutral_color : QColor := mkQColor 240 240 240.
Definition mid_gradient_color : QColor := mkQColor 255 220 180.

(** The age ratio: an exact quotient. *)
Definition exact_ratio (last_file_time min_time max_time : Z) : Q :=
  (inject_Z (max_time - last_file_time) / inject_Z (max_time - min_time))%Q.

(** Linear interpolation from [fresh] (ratio 0) to [old] (ratio 1). *)
Definition interpolate (fresh old : Z) (ratio : Q) : Q :=
  (inject_Z fresh + ratio * (inject_Z old - inject_Z fresh))%Q.

(** A channel is an integer.  The specification says neither how the
    interpolated value is made one nor in which arithmetic it is computed:
    a channel is taken to follow the interpolation when it is less than
    one step of the channel away from it, up to a thousandth for the
    arithmetic. *)
Definition follows (value : Q) (channel : Z) : Prop :=
  (Qabs (inject_Z channel - value) < 1 + (1 # 1000))%Q.

(** Rule 6: red constant at its maximum, green from 240 down to 140, blue
    from 200 down to 60, as the age ratio goes from 0 to 1.  With the
    ratio between 0 and 1 a colour is returned; the specification has no
    other ratio, and nothing but [OverflowError] is raised for one. *)
Definition linear_gradient (last_file_time min_time max_time : Z)
  (result : outcome QColor) : Prop :=
  let ratio := exact_ratio last_file_time min_time max_time in
  match result with
  | Returned color =>
      red color = 255 /\
      follows (interpolate 240 140 ratio) (green color) /\
      follows (interpolate 200 60 ratio) (blue color)
  | Raised e => e = OverflowError /\ ~ (0 <= ratio <= 1)%Q
  end.

(** The six rules, first match first, as a relation between the eight
    values the specification names and what the colouring of a row
    does. *)
Definition color_rule (last_file_time min_time max_time : Z)
  (acknowledged : bool) (ack_time : Z) (dead paused : bool) (now : Z)
  (result : outcome QColor) : Prop :=
  if acknowledged && ((ack_time =? 0) || (now <? ack_time))
  then result = Returned acknowledged_color
  else if dead then result = Returned dead_color
  else if paused then result = Returned paused_color
  else if last_file_time =? 0 then result = Returned neutral_color
  else if min_time =? max_time then result = Returned mid_gradient_color
  else linear_gradient last_file_time min_time max_time result.

(** Acknowledgment expiry as the specification words it. *)
Definition acknowledgment_expired (q : Query) (now : Z) : Prop :=
  acknowledged q = true /\ acknowledged_time q <> 0 /\
  acknowledged_time q <= now.

End ColoringSpec.

(** ** Sample data *)

Module Samples.

Definition sample_query (text : string) (ack : bool) (ack_time last_file : Z)
  : Query :=
  mkQuery None text "" "" 0 0 "" false false false false 0 [] ""
    last_file ack ack_time.

(** The four rows of the sort example. *)
Definition row_A : string * Query := ("s", sample_query "A" false 0 100).
Definition row_B : string * Query := ("s", sample_query "B" false 0 0).
Definition row_C : string * Query := ("s", sample_query "C" true 0 50).
Definition row_D : string * Query := ("s", sample_query "D" false 0 10).

(** Two rows of the normalisation domain and a row whose acknowledgment
    expired one second before [sample_now]. *)
Definition sample_now : Z := 1000.
Definition row_fresh : string * Query := ("s", sample_query "new" false 0 200).
Definition row_old : string * Query := ("s", sample_query "old" false 0 100).
Definition row_expired : string * Query :=
  ("s", sample_query "expired" true 999 500).

(** Two rows one second apart and a row whose acknowledgment has
    expired, with a file time far from theirs. *)
Definition row_first : string * Query := ("s", sample_query "first" false 0 1).
Definition row_second : string * Query :=
  ("s", sample_query "second" false 0 2).
Definition row_far : string * Query :=
  ("s", sample_query "far" true 999 1700000000).

(** Acknowledged "until" instant 0, looked at when the clock reads 1. *)
Definition query_ack_at_zero : Query := sample_query "Q" true 0 0.

(** A store with one subscription and one unacknowledged query. *)
Definition sample_row : Persistence.query_row :=
  Persistence.mkQueryRow 1 1 "cats" "Cats" "" 0 0 "" false false false false 0
    "[]" "" 100 false 0.

Definition sample_database : Persistence.database :=
  Persistence.mkDatabase
    (Some [Persistence.mkSubscriptionRow 1 "art" "gug"])
    (Some [sample_row]) 1 1.

Definition sample_store : Persistence.file := Persistence.Sqlite sample_database.

(** The same row after [UPDATE ... SET acknowledged = 0,
    acknowledged_time = 100]. *)
Definition sample_row_time_without_flag : Persistence.query_row :=
  Persistence.set_acknowledgment false 100 sample_row.

(** A payload with one subscription of two queries. *)
Definition sample_payload_query (text : string) (last_file : Z)
  : Persistence.QueryDict :=
  Persistence.mkQueryDict (Some text) None None None None None None None
    None None None None None (Some last_file).

Definition sample_payload : Persistence.ApiData :=
  Persistence.mkApiData
    (Some [Persistence.mkSubscriptionDict (Some "new") None
             (Some [sample_payload_query "q1" 5;
                    sample_payload_query "q2" 6])]).

(** A file system with the live store, a compatible backup and a file
    that is not a database. *)
Definition sample_backup : Persistence.file :=
  Persistence.Sqlite
    (Persistence.mkDatabase (Some []) (Some []) 7 9).

Definition sample_fs : gmap string Persistence.file :=
  <["live.db" := sample_store]>
    (<["backup.db" := sample_backup]>
       (<["notes.txt" := Persistence.NotADatabase]> ∅)).


End Samples.

(** ** Entity model, continued ([src/models/subscription.py]) *)

Module Entities.

(** [Query.display_text]: [self.human_name or self.query_text]. *)
Definition display_text (q : Query) : string :=
  if String.eqb (human_name q) "" then query_text q else human_name q.

(** [Subscription.query_count], [active_query_count] and
    [acknowledged_query_count]. *)
Definition query_count (s : Subscription) : nat := length (queries s).

Definition active_query_count (s : Subscription) : nat :=
  length (List.filter (fun q => negb (acknowledged q)) (queries s)).

Definition acknowledged_query_count (s : Subscription) : nat :=
  length (List.filter (fun q => acknowledged q) (queries s)).

(** Python's [sum] over a generator of counts. *)
Definition sum_counts {A} (f : A -> nat) (l : list A) : nat :=
  foldl (fun acc x => acc + f x)%nat 0%nat l.

(** [SubscriptionData.total_queries], [total_active_queries] and
    [get_all_queries]. *)
Definition total_queries (d : SubscriptionData) : nat :=
  sum_counts query_count (subscriptions d).

Definition total_active_queries (d : SubscriptionData) : nat :=
  sum_counts active_query_count (subscriptions d).

Definition get_all_queries (d : SubscriptionData) : list (string * Query) :=
  pair_queries (subscriptions d).

(** *** Dictionaries

    The dictionaries [from_dict] reads and [to_dict] builds, with their
    fixed keys: a key that is absent is [None]. *)

Record QueryData := mkQueryData {
  k_id : option Z;
  k_query_text : option string;
  k_human_name : option string;
  k_display_name : option string;
  k_last_check_time : option Z;
  k_next_check_time : option Z;
  k_next_check_status : option string;
  k_paused : option bool;
  k_dead : option bool;
  k_checking_now : option bool;
  k_can_check_now : option bool;
  k_checker_status : option Z;
  k_file_velocity : option (list json);
  k_file_seed_cache_status : option string;
  k_last_file_time : option Z;
  k_acknowledged : option bool;
  k_acknowledged_time : option Z
}.

Record SubscriptionRecord := mkSubscriptionRecord {
  k_name : option string;
  k_gug_name : option string;
  k_queries : option (list QueryData)
}.

Record DataRecord := mkDataRecord {
  k_subscriptions : option (list SubscriptionRecord);
  k_version : option Z;
  k_hydrus_version : option string
}.

(** [Query.from_dict] and [Query.to_dict]. *)
Definition query_from_dict (data : QueryData) : Query :=
  mkQuery (k_id data)
    (default "" (k_query_text data))
    (default "" (k_human_name data))
    (default "" (k_display_name data))
    (default 0 (k_last_check_time data))
    (default 0 (k_next_check_time data))
    (default "" (k_next_check_status data))
    (default false (k_paused data))
    (default false (k_dead data))
    (default false (k_checking_now data))
    (default false (k_can_check_now data))
    (default 0 (k_checker_status data))
    (default [] (k_file_velocity data))
    (default "" (k_file_seed_cache_status data))
    (default 0 (k_last_file_time data))
    (default false (k_acknowledged data))
    (default 0 (k_acknowledged_time data)).

Definition query_to_dict (self : Query) : QueryData :=
  mkQueryData (id self)
    (Some (query_text self)) (Some (human_name self))
    (Some (display_name self))
    (Some (last_check_time self)) (Some (next_check_time self))
    (Some (next_check_status self))
    (Some (paused self)) (Some (dead self)) (Some (checking_now self))
    (Some (can_check_now self)) (Some (checker_status self))
    (Some (file_velocity self))
    (Some (file_seed_cache_status self)) (Some (last_file_time self))
    (Some (acknowledged self)) (Some (acknowledged_time self)).

(** [Subscription.from_dict] and [Subscription.to_dict]. *)
Definition subscription_from_dict (data : SubscriptionRecord) : Subscription :=
  mkSubscription
    (default "Unknown" (k_name data))
    (default "" (k_gug_name data))
    (map query_from_dict (default [] (k_queries data))).

Definition subscription_to_dict (self : Subscription) : SubscriptionRecord :=
  mkSubscriptionRecord (Some (name self)) (Some (gug_name self))
    (Some (map query_to_dict (queries self))).

(** [SubscriptionData.from_dict] and [SubscriptionData.to_dict]. *)
Definition data_from_dict (data : DataRecord) : SubscriptionData :=
  mkSubscriptionData
    (map subscription_from_dict (default [] (k_subscriptions data)))
    (default 80 (k_version data))
    (default "Unknown" (k_hydrus_version data)).

Definition data_to_dict (self : SubscriptionData) : DataRecord :=
  mkDataRecord
    (Some (map subscription_to_dict (subscriptions self)))
    (Some (version self))
    (Some (hydrus_version self)).

(** The payload of the API read as such a dictionary: the keys [id],
    [acknowledged] and [acknowledged_time] are not in it. *)
Definition payload_query (q : Persistence.QueryDict) : QueryData :=
  mkQueryData None
    (Persistence.d_query_text q) (Persistence.d_human_name q)
    (Persistence.d_display_name q)
    (Persistence.d_last_check_time q) (Persistence.d_next_check_time q)
    (Persistence.d_next_check_status q)
    (Persistence.d_paused q) (Persistence.d_dead q)
    (Persistence.d_checking_now q) (Persistence.d_can_check_now q)
    (Persistence.d_checker_status q) (Persistence.d_file_velocity q)
    (Persistence.d_file_seed_cache_status q)
    (Persistence.d_last_file_time q)
    None None.

Definition payload_subscription (s : Persistence.SubscriptionDict)
  : SubscriptionRecord :=
  mkSubscriptionRecord (Persistence.d_name s) (Persistence.d_gug_name s)
    (map payload_query <$> Persistence.d_queries s).

Definition payload_data (d : Persistence.ApiData) : DataRecord :=
  mkDataRecord (map payload_subscription <$> Persistence.d_subscriptions d)
    None None.

End Entities.

(** ** Controller, continued ([src/controllers/main_controller.py]) *)

Module Controller.
Import Ranking Entities Persistence.

(** What the controller reads from a row of the query tree: the text of
    columns 0, 1 and 2 and the query id kept under role 257. *)
Record TreeItem := mkTreeItem {
  item_subscription : string;
  item_human_name : string;
  item_query_text : string;
  item_query_id : option Z
}.

(** Those four places as [_create_query_item] fills them. *)
Definition tree_item (sub_name : string) (query : Query) : TreeItem :=
  mkTreeItem sub_name
    (if String.eqb (human_name query) "" then query_text query
     else human_name query)
    (query_text query)
    (id query).

Definition set_filter (self : MainController) (subscription_name : option string)
  : MainController :=
  mkMainController (subscription_data self) subscription_name.

(** [set_subscription_data]: the API payload read with [from_dict]. *)
Definition set_subscription_data (self : MainController) (data_dict : ApiData)
  : MainController :=
  mkMainController (Some (data_from_dict (payload_data data_dict)))
    (current_filter self).

Definition get_subscription_count (self : MainController) : nat :=
  match subscription_data self with
  | Some data => length (subscriptions data)
  | None => 0
  end.

Definition get_total_queries (self : MainController) : nat :=
  match subscription_data self with
  | Some data => total_queries data
  | None => 0
  end.

Definition get_filtered_query_count (self : MainController) : nat :=
  sum_counts Entities.query_count (get_filtered_subscriptions self).

(** [load_from_database]: the dictionary [load_subscription_data] returns
    goes through [SubscriptionData.from_dict]; an exception is caught and
    gives the empty data with version 0. *)
Definition load_from_database (json_loads : string -> option (list json))
  (self : MainController) (store : file) (faults : option nat)
  : MainController * file :=
  match load_subscription_data json_loads store faults with
  | (Returned data_dict, store') =>
      (mkMainController
         (Some (data_from_dict (data_to_dict data_dict)))
         (current_filter self),
       store')
  | (Raised _, store') =>
      (mkMainController
         (Some (mkSubscriptionData [] 0 "Database Error"))
         (current_filter self),
       store')
  end.

(** [if query_id:] is false for [None] and for 0. *)
Definition truthy_id (query_id : option Z) : option Z :=
  match query_id with
  | Some n => if n =? 0 then None else Some n
  | None => None
  end.

(** The body of the loops of [acknowledge_queries] and
    [unacknowledge_queries]: by id when the row has one, else by the text
    of its columns. *)
Definition update_item (store : file) (faults : option nat) (item : TreeItem)
  (acknowledged : bool) (ack_time : Z) : outcome bool * file :=
  match truthy_id (item_query_id item) with
  | Some query_id =>
      update_query_acknowledgment store faults query_id acknowledged ack_time
  | None =>
      update_queries_by_text store faults
        (item_query_text item) (item_human_name item) (item_subscription item)
        acknowledged ack_time
  end.

(** The loop; [faults] gives the storage failure injected into each call
    in turn (none once the list is used up). *)
Fixpoint update_items (store : file) (faults : list (option nat))
  (selected_items : list TreeItem) (acknowledged : bool) (ack_time : Z)
  (updated_count : Z) : outcome Z * file :=
  match selected_items with
  | [] => (Returned updated_count, store)
  | item :: rest =>
      match update_item store (List.hd None faults) item
              acknowledged ack_time with
      | (Raised e, store') => (Raised e, store')
      | (Returned applied, store') =>
          update_items store' (List.tl faults) rest acknowledged ack_time
            (if applied then updated_count + 1 else updated_count)
      end
  end.

Definition acknowledge_queries (store : file) (faults : list (option nat))
  (selected_items : list TreeItem) (ack_days now : Z) : outcome Z * file :=
  let ack_until_timestamp := now + ack_days * 24 * 3600 in
  update_items store faults selected_items true ack_until_timestamp 0.

Definition unacknowledge_queries (store : file) (faults : list (option nat))
  (selected_items : list TreeItem) : outcome Z * file :=
  update_items store faults selected_items false 0 0.

(** The ids the loop updates by, and the rows after writing the pair to
    every row with one of these ids. *)
Definition selected_ids (items : list TreeItem) : list Z :=
  omap (fun item => truthy_id (item_query_id item)) items.

Definition acknowledge_rows (ids : list Z) (acknowledged : bool)
  (ack_time : Z) (rows : list query_row) : list query_row :=
  map (fun q =>
         if existsb (fun i => col_query_id q =? i) ids
         then set_acknowledgment acknowledged ack_time q else q)
    rows.

(** Two rows that differ at most in the acknowledgment pair. *)
Definition same_columns (r r' : query_row) : Prop :=
  col_query_id r' = col_query_id r /\
  col_subscription_id r' = col_subscription_id r /\
  col_query_text r' = col_query_text r /\
  col_human_name r' = col_human_name r /\
  col_display_name r' = col_display_name r /\
  col_last_check_time r' = col_last_check_time r /\
  col_next_check_time r' = col_next_check_time r /\
  col_next_check_status r' = col_next_check_status r /\
  col_paused r' = col_paused r /\
  col_dead r' = col_dead r /\
  col_checking_now r' = col_checking_now r /\
  col_can_check_now r' = col_can_check_now r /\
  col_checker_status r' = col_checker_status r /\
  col_file_velocity_data r' = col_file_velocity_data r /\
  col_file_seed_cache_status r' = col_file_seed_cache_status r /\
  col_last_file_time r' = col_last_file_time r.

(** What an update of the rows with an id in [ids] leaves: the pair
    written to these rows, and every other row and column as it was. *)
Definition pair_written (ids : list Z) (acknowledged : bool) (ack_time : Z)
  (r r' : query_row) : Prop :=
  same_columns r r' /\
  if bool_decide (col_query_id r ∈ ids)
  then col_acknowledged r' = acknowledged /\
       col_acknowledged_time r' = ack_time
  else col_acknowledged r' = col_acknowledged r /\
       col_acknowledged_time r' = col_acknowledged_time r.

(** The items whose id names a stored row. *)
Definition items_found (ids : list Z) (rows : list query_row) : Z :=
  Z.of_nat
    (length (List.filter
               (fun i => existsb (fun q => col_query_id q =? i) rows) ids)).

End Controller.

(** ** Sample data, continued *)

Module MoreSamples.
Import Samples.

(** The row of the query tree for the query of [sample_store]. *)
Definition sample_item : Controller.TreeItem :=
  Controller.mkTreeItem "art" "Cats" "cats" (Some 1).

(** A store with three subscriptions, one of them without queries, and
    three queries, one of them acknowledged; stored velocities are the
    empty list. *)
Definition sample_loads (s : string) : option (list Model.json) :=
  if String.eqb s "[]" then Some [] else None.

Definition sample_query_row (query_id sub_id : Z) (text : string)
  (ack : bool) (ack_time : Z) : Persistence.query_row :=
  Persistence.mkQueryRow query_id sub_id text "" "" 0 0 "" false false false
    false 0 "[]" "" 100 ack ack_time.

Definition library_subscriptions : list Persistence.subscription_row :=
  [Persistence.mkSubscriptionRow 1 "zoo" "g";
   Persistence.mkSubscriptionRow 2 "art" "g";
   Persistence.mkSubscriptionRow 3 "empty" "g"].

Definition library_queries : list Persistence.query_row :=
  [sample_query_row 1 1 "b" false 0;
   sample_query_row 2 2 "z" false 0;
   sample_query_row 3 1 "a" true 5000].

Definition sample_library : Persistence.file :=
  Persistence.Sqlite
    (Persistence.mkDatabase (Some library_subscriptions)
       (Some library_queries) 3 3).

End MoreSamples.

(** ** Persistence, continued: stored rows and what loading returns *)

Module Stored.
Import Model Persistence.



(** The subscriptions a list of joined rows mentions, each the first time
    its id comes up; [seen] holds the ids that already have a group. *)
Fixpoint first_seen (seen : list Z) (rows : list joined_row)
  : list subscription_row :=
  match rows with
  | [] => []
  | row :: rest =>
      if existsb (fun k => k =? col_id row.1) seen
      then first_seen seen rest
      else row.1 :: first_seen (seen ++ [col_id row.1]) rest
  end.

(** The queries the rows carry for the subscription with id [k], in the
    order of the rows. *)
Definition queries_of (json_loads : string -> option (list json))
  (k : Z) (rows : list joined_row) : list Query :=
  omap (fun row : joined_row =>
          if col_id row.1 =? k then row.2 ≫= query_data json_loads else None)
    rows.

(** A group of [subscriptions_dict] with more queries appended. *)
Definition extend (g : Z * Subscription) (qs : list Query)
  : Z * Subscription :=
  (g.1, mkSubscription (name g.2) (gug_name g.2) (queries g.2 ++ qs)).

(** The group opened for a subscription row, holding [qs]. *)
Definition group_of (s : subscription_row) (qs : list Query)
  : Z * Subscription :=
  (col_id s, mkSubscription (col_name s) (col_gug_name s) qs).

(** The stored queries of a subscription row. *)
Definition stored_queries (s : subscription_row) (qs : list query_row)
  : list query_row :=
  List.filter (fun q => col_subscription_id q =? col_id s) qs.

(** The stored velocity text of a row is empty or [json_loads] accepts
    it. *)
Definition decodable (json_loads : string -> option (list json))
  (row : query_row) : Prop :=
  col_file_velocity_data row = "" \/
  is_Some (json_loads (col_file_velocity_data row)).

(** A stored row and the query loaded from it: the row id as [id], every
    column in its field, the velocity text decoded (empty text as the
    empty list), the acknowledgment pair as stored. *)
Definition loaded_as (json_loads : string -> option (list json))
  (row : query_row) (query : Query) : Prop :=
  id query = Some (col_query_id row) /\
  query_text query = col_query_text row /\
  human_name query = col_human_name row /\
  display_name query = col_display_name row /\
  last_check_time query = col_last_check_time row /\
  next_check_time query = col_next_check_time row /\
  next_check_status query = col_next_check_status row /\
  paused query = col_paused row /\
  dead query = col_dead row /\
  checking_now query = col_checking_now row /\
  can_check_now query = col_can_check_now row /\
  checker_status query = col_checker_status row /\
  (if String.eqb (col_file_velocity_data row) ""
   then file_velocity query = []
   else json_loads (col_file_velocity_data row)
        = Some (file_velocity query)) /\
  file_seed_cache_status query = col_file_seed_cache_status row /\
  last_file_time query = col_last_file_time row /\
  acknowledged query = col_acknowledged row /\
  acknowledged_time query = col_acknowledged_time row.

End Stored.

(** * Properties *)

(** ** Stable sorting *)

Section StableSortFacts.
Context {A K : Type} `{EqDecision K} (leb : K -> K -> bool) (f : A -> K).
Hypothesis leb_total : forall a b, leb a b = true \/ leb b a = true.
Hypothesis leb_trans :
  forall a b c, leb a b = true -> leb b c = true -> leb a c = true.

Local Abbreviation R := (key_order leb f).

Lemma leb_refl a : leb a a = true.
Proof. destruct (leb_total a a); assumption. Qed.

Lemma insert_sorted_perm x l : Permutation (insert_sorted leb f x l) (x :: l).
Proof.
  induction l as [|y l IH]; simpl; [reflexivity|].
  destruct (leb (f x) (f y)); [reflexivity|].
  rewrite IH. apply perm_swap.
Qed.

Lemma list_sort_perm l : Permutation (list_sort leb f l) l.
Proof.
  induction l as [|x l IH]; simpl; [reflexivity|].
  rewrite insert_sorted_perm. now constructor.
Qed.

Lemma insert_sorted_ascending x l :
  StronglySorted R l -> StronglySorted R (insert_sorted leb f x l).
Proof.
  induction 1 as [|y l Hl IH Hy]; simpl.
  - repeat constructor.
  - destruct (leb (f x) (f y)) eqn:E.
    + constructor; [now constructor|].
      constructor; [exact E|].
      eapply Forall_impl; [exact Hy|].
      intros z Hz. unfold key_order in *. eauto.
    + constructor; [exact IH|].
      assert (Hyx : R y x)
        by (unfold key_order; destruct (leb_total (f x) (f y)); congruence).
      eapply Permutation_Forall; [symmetry; apply insert_sorted_perm|].
      now constructor.
Qed.

Lemma list_sort_ascending l : StronglySorted R (list_sort leb f l).
Proof.
  induction l as [|x l IH]; simpl; [constructor|].
  now apply insert_sorted_ascending.
Qed.

Lemma with_key_insert_sorted k x l :
  with_key f k (insert_sorted leb f x l) = with_key f k (x :: l).
Proof.
  induction l as [|y l IH]; simpl; [reflexivity|].
  destruct (leb (f x) (f y)) eqn:E; [reflexivity|].
  simpl in *. rewrite IH.
  destruct (bool_decide (f x = k)) eqn:Ex, (bool_decide (f y = k)) eqn:Ey;
    try reflexivity.
  apply bool_decide_eq_true in Ex, Ey. subst k.
  rewrite Ey, leb_refl in E. discriminate.
Qed.

Lemma list_sort_stable l : stable f l (list_sort leb f l).
Proof.
  intros k. induction l as [|x l IH]; simpl; [reflexivity|].
  rewrite with_key_insert_sorted. simpl. fold (with_key f k (list_sort leb f l)).
  fold (with_key f k l). now rewrite IH.
Qed.

Hypothesis leb_antisym :
  forall a b, leb a b = true -> leb b a = true -> a = b.

Lemma with_key_head x l : with_key f (f x) (x :: l) = x :: with_key f (f x) l.
Proof. unfold with_key. simpl. now rewrite bool_decide_eq_true_2. Qed.

Lemma with_key_In k x l : In x (with_key f k l) -> In x l.
Proof. unfold with_key. rewrite filter_In. tauto. Qed.

(** Two ascending lists in which every key class reads the same are the
    same list. *)
Lemma ascending_stable_eq l1 l2 :
  StronglySorted R l1 -> StronglySorted R l2 ->
  (forall k, with_key f k l1 = with_key f k l2) -> l1 = l2.
Proof.
  intros H1. revert l2.
  induction H1 as [|x l1 Hl1 IH Hx]; intros l2 H2 Hk.
  - destruct l2 as [|y l2]; [reflexivity|].
    specialize (Hk (f y)). rewrite with_key_head in Hk. discriminate.
  - destruct H2 as [|y l2 Hl2 Hy].
    + specialize (Hk (f x)). rewrite with_key_head in Hk. discriminate.
    + assert (Hxy : f x = f y).
      { apply leb_antisym.
        - assert (In y (x :: l1)) as [->|Hin].
          { apply (with_key_In (f y)). rewrite Hk, with_key_head. now left. }
          + apply leb_refl.
          + rewrite Forall_forall in Hx. apply Hx.
            now apply list_elem_of_In.
        - assert (In x (y :: l2)) as [->|Hin].
          { apply (with_key_In (f x)). rewrite <- Hk, with_key_head. now left. }
          + apply leb_refl.
          + rewrite Forall_forall in Hy. apply Hy.
            now apply list_elem_of_In. }
      pose proof (Hk (f x)) as Hhead.
      rewrite with_key_head in Hhead. rewrite Hxy in Hhead at 2.
      rewrite with_key_head in Hhead. injection Hhead as -> _.
      f_equal. apply IH; [exact Hl2|].
      intros k. specialize (Hk k). unfold with_key in *. simpl in Hk.
      destruct (bool_decide (f y = k)); [now injection Hk|exact Hk].
Qed.

(** Every stable sort returns what [list_sort] returns. *)
Lemma stable_sort_unique l l' :
  StronglySorted R l' -> stable f l l' -> l' = list_sort leb f l.
Proof.
  intros Hs Hst. apply ascending_stable_eq; [exact Hs|apply list_sort_ascending|].
  intros k. rewrite (Hst k). symmetry. apply list_sort_stable.
Qed.

End StableSortFacts.

(** ** Ranking *)

Module RankingFacts.
Import Ranking Samples.

Lemma key_leb_le a b : key_leb a b = true <-> key_le a b.
Proof. unfold key_leb, key_le. destruct a, b; simpl. lia. Qed.

Lemma key_leb_total a b : key_leb a b = true \/ key_leb b a = true.
Proof. rewrite !key_leb_le. unfold key_le. destruct a, b; simpl. lia. Qed.

Lemma key_leb_trans a b c :
  key_leb a b = true -> key_leb b c = true -> key_leb a c = true.
Proof. rewrite !key_leb_le. unfold key_le. destruct a, b, c; simpl. lia. Qed.

Lemma key_leb_antisym a b :
  key_leb a b = true -> key_leb b a = true -> a = b.
Proof.
  rewrite !key_leb_le. unfold key_le. destruct a, b; simpl.
  intros H1 H2. f_equal; lia.
Qed.

Lemma ascending_leb l :
  ascending l <->
  StronglySorted (fun a b => key_leb (sort_key a) (sort_key b) = true) l.
Proof.
  unfold ascending. split; intros H; induction H; constructor; auto;
    (eapply Forall_impl; [eassumption|]); intros z Hz; now apply key_leb_le.
Qed.

Lemma sort_queries_ascending l : ascending (sort_queries l).
Proof.
  apply ascending_leb, list_sort_ascending;
    [apply key_leb_total | apply key_leb_trans].
Qed.

(** The sort computes the only list that is ascending by [sort_key] and
    keeps equal keys in input order, so any stable sort (Python's
    included) agrees with it. *)
Lemma sort_queries_unique l l' :
  ascending l' -> stable sort_key l l' -> l' = sort_queries l.
Proof.
  intros Ha Hs.
  apply (stable_sort_unique key_leb sort_key
           key_leb_total key_leb_trans key_leb_antisym l l');
    [now apply ascending_leb | exact Hs].
Qed.

(** C2. [get_all_queries_sorted] sorts the (subscription name, query)
    pairs of the subscriptions on show.  The key is (0, last_file_time)
    for an unacknowledged query with last_file_time > 0, (1, 0) for an
    unacknowledged query with last_file_time = 0 and (2, last_file_time)
    for an acknowledged one; the result is a permutation of the input,
    ascending by that key, and keeps pairs of equal key in their input
    order.  The rows A, B, C, D of the example come out as D, A, B, C. *)
Theorem get_all_queries_sorted_order :
  (forall item : string * Query,
     (acknowledged item.2 = false -> last_file_time item.2 > 0 ->
      sort_key item = (0, last_file_time item.2)) /\
     (acknowledged item.2 = false -> last_file_time item.2 = 0 ->
      sort_key item = (1, 0)) /\
     (acknowledged item.2 = true ->
      sort_key item = (2, last_file_time item.2))) /\
  (forall self,
     get_all_queries_sorted self =
     sort_queries (pair_queries (get_filtered_subscriptions self))) /\
  (forall l,
     Permutation (sort_queries l) l /\
     ascending (sort_queries l) /\
     stable sort_key l (sort_queries l)) /\
  sort_queries [row_A; row_B; row_C; row_D] = [row_D; row_A; row_B; row_C].
Proof.
  split; [|split; [|split]].
  - intros [n q]; unfold sort_key; simpl.
    repeat split; intros Hack; rewrite Hack; try reflexivity.
    + intros Hpos. destruct (Z.eqb_spec (last_file_time q) 0); [lia|reflexivity].
    + intros ->. reflexivity.
  - intros self. unfold get_all_queries_sorted, get_filtered_subscriptions.
    destruct (subscription_data self); reflexivity.
  - intros l. split; [|split].
    + apply list_sort_perm.
    + apply sort_queries_ascending.
    + apply list_sort_stable, key_leb_total.
  - reflexivity.
Qed.

Lemma get_all_queries_sorted_order_witness :
  sort_key row_D = (0, 10) /\ sort_key row_B = (1, 0) /\
  sort_key row_C = (2, 50).
Proof.
  destruct get_all_queries_sorted_order as [Hkey _].
  split; [|split].
  - apply (Hkey row_D); [reflexivity | simpl; lia].
  - apply (Hkey row_B); reflexivity.
  - apply (Hkey row_C); reflexivity.
Defined.

End RankingFacts.

(** ** Binary64 arithmetic *)

Module Binary64Facts.
Import Binary64.
Local Open Scope Q_scope.

Lemma round_half_even_near q :
  q - (1 # 2) <= inject_Z (round_half_even q) <= q + (1 # 2).
Proof.
  unfold round_half_even.
  pose proof (Qfloor_le q) as H1. pose proof (Qlt_floor q) as H2.
  rewrite inject_Z_plus in H2. change (inject_Z 1) with 1 in H2.
  destruct (Qcompare_spec (q - inject_Z (Qfloor q)) (1 # 2)) as [E|E|E].
  - destruct (Z.even (Qfloor q)); rewrite ?inject_Z_plus;
      change (inject_Z 1) with 1; split; lra.
  - split; lra.
  - rewrite inject_Z_plus. change (inject_Z 1) with 1. split; lra.
Qed.

Lemma round_half_even_Z n : round_half_even (inject_Z n) = n.
Proof.
  unfold round_half_even. rewrite Qfloor_Z.
  destruct (Qcompare_spec (inject_Z n - inject_Z n) (1 # 2)) as [E|E|E];
    [lra|reflexivity|lra].
Qed.

Lemma round_half_even_comp q q' :
  q == q' -> round_half_even q = round_half_even q'.
Proof.
  intros E. unfold round_half_even. rewrite (Qfloor_comp _ _ E).
  assert (H : q - inject_Z (Qfloor q') == q' - inject_Z (Qfloor q'))
    by (rewrite E; reflexivity).
  now rewrite H.
Qed.

Lemma round_half_even_mono q1 q2 :
  q1 <= q2 -> (round_half_even q1 <= round_half_even q2)%Z.
Proof.
  intros L.
  pose proof (Qfloor_resp_le _ _ L) as Hf.
  destruct (Z.eq_dec (Qfloor q1) (Qfloor q2)) as [E|N].
  - unfold round_half_even. rewrite E.
    destruct (Qcompare_spec (q1 - inject_Z (Qfloor q2)) (1 # 2)) as [E1|E1|E1];
      destruct (Qcompare_spec (q2 - inject_Z (Qfloor q2)) (1 # 2))
        as [E2|E2|E2];
      try destruct (Z.even (Qfloor q2)); try lia; lra.
  - assert (H1 : (round_half_even q1 <= Qfloor q1 + 1)%Z).
    { unfold round_half_even.
      destruct (_ ?= _); try destruct (Z.even _); lia. }
    assert (H2 : (Qfloor q2 <= round_half_even q2)%Z).
    { unfold round_half_even.
      destruct (_ ?= _); try destruct (Z.even _); lia. }
    lia.
Qed.

Lemma two_pos e : 0 < 2 ^ e.
Proof. apply Qpower_0_lt. reflexivity. Qed.

Lemma two_plus a b : 2 ^ (a + b) == 2 ^ a * 2 ^ b.
Proof. apply Qpower_plus. discriminate. Qed.

Lemma two_le a b : (a <= b)%Z -> 2 ^ a <= 2 ^ b.
Proof. intros H. apply Qpower_le_compat_l; [exact H|discriminate]. Qed.

Lemma two_lt a b : (a < b)%Z -> 2 ^ a < 2 ^ b.
Proof. intros H. apply Qpower_lt_compat_l; [exact H|reflexivity]. Qed.

Lemma two_lt_inv a b : 2 ^ a < 2 ^ b -> (a < b)%Z.
Proof.
  intros H. destruct (Z_lt_le_dec a b) as [L|L]; [exact L|].
  apply two_le in L. lra.
Qed.

Lemma two_Z n : (0 <= n)%Z -> inject_Z (2 ^ n) == 2 ^ n.
Proof. intros H. now rewrite Zpower_Qpower. Qed.

Lemma two_minus a b : 2 ^ (a - b) == 2 ^ a / 2 ^ b.
Proof. apply Qpower_minus. discriminate. Qed.

(** The binade of a positive rational. *)
Lemma binade_spec q : 0 < q -> 2 ^ binade q <= q < 2 ^ (binade q + 1).
Proof.
  intros Hq. destruct q as [n d]. unfold binade. simpl Qnum. simpl Qden.
  assert (Hn : (0 < n)%Z) by (unfold Qlt in Hq; simpl in Hq; lia).
  set (a := Z.log2 n). set (b := Z.log2 (Z.pos d)).
  pose proof (Z.log2_spec n Hn) as [Ha1 Ha2]. fold a in Ha1, Ha2.
  pose proof (Z.log2_spec (Z.pos d) eq_refl) as [Hb1 Hb2]. fold b in Hb1, Hb2.
  pose proof (Z.log2_nonneg n) as Ha0. fold a in Ha0.
  pose proof (Z.log2_nonneg (Z.pos d)) as Hb0. fold b in Hb0.
  assert (Hq' : n # d == inject_Z n / inject_Z (Z.pos d)).
  { rewrite (Qmake_Qdiv n d). reflexivity. }
  assert (Hd0 : 0 < inject_Z (Z.pos d)) by reflexivity.
  (* bounds in Q *)
  assert (A1 : 2 ^ a <= inject_Z n)
    by (rewrite <- two_Z by lia; now rewrite <- Zle_Qle).
  assert (A2 : inject_Z n < 2 ^ (a + 1))
    by (rewrite <- two_Z by lia; now rewrite <- Zlt_Qlt).
  assert (B1 : 2 ^ b <= inject_Z (Z.pos d))
    by (rewrite <- two_Z by lia; now rewrite <- Zle_Qle).
  assert (B2 : inject_Z (Z.pos d) < 2 ^ (b + 1))
    by (rewrite <- two_Z by lia; now rewrite <- Zlt_Qlt).
  pose proof (two_pos a) as Pa. pose proof (two_pos b) as Pb.
  pose proof (two_pos (a + 1)) as Pa1. pose proof (two_pos (b + 1)) as Pb1.
  assert (Lo : 2 ^ (a - b - 1) <= n # d).
  { rewrite Hq'. apply Qle_shift_div_l; [exact Hd0|].
    apply Qle_trans with (2 ^ (a - b - 1) * 2 ^ (b + 1)).
    - apply Qmult_le_l; [apply two_pos|]. lra.
    - rewrite <- two_plus. replace (a - b - 1 + (b + 1))%Z with a by lia.
      exact A1. }
  assert (Hi : n # d < 2 ^ (a - b + 1)).
  { rewrite Hq'. apply Qlt_shift_div_r; [exact Hd0|].
    apply Qlt_le_trans with (2 ^ (a - b + 1) * 2 ^ b).
    - rewrite <- two_plus. replace (a - b + 1 + b)%Z with (a + 1)%Z by lia.
      exact A2.
    - apply Qmult_le_l; [apply two_pos|]. exact B1. }
  destruct (Qle_bool (2 ^ (a - b)) (n # d)) eqn:E.
  - apply Qle_bool_iff in E. split; [exact E|exact Hi].
  - split; [exact Lo|].
    replace (a - b - 1 + 1)%Z with (a - b)%Z by lia.
    destruct (Qlt_le_dec (n # d) (2 ^ (a - b))) as [L|L]; [exact L|].
    apply Qle_bool_iff in L. congruence.
Qed.

Lemma binade_unique q e :
  2 ^ e <= q < 2 ^ (e + 1) -> binade q = e.
Proof.
  intros [H1 H2].
  assert (Hq : 0 < q) by (pose proof (two_pos e); lra).
  destruct (binade_spec q Hq) as [B1 B2].
  assert (L1 : (binade q < e + 1)%Z) by (apply two_lt_inv; lra).
  assert (L2 : (e < binade q + 1)%Z) by (apply two_lt_inv; lra).
  lia.
Qed.

Lemma binade_mono q1 q2 : 0 < q1 -> q1 <= q2 -> (binade q1 <= binade q2)%Z.
Proof.
  intros H1 L.
  destruct (binade_spec q1 H1) as [A1 A2].
  destruct (binade_spec q2) as [B1 B2]; [lra|].
  assert (H : (binade q1 < binade q2 + 1)%Z) by (apply two_lt_inv; lra).
  lia.
Qed.

Lemma binade_comp q q' : 0 < q -> q == q' -> binade q = binade q'.
Proof.
  intros Hq E. symmetry. apply binade_unique. rewrite <- E.
  now apply binade_spec.
Qed.

Lemma round64_0 : round64 0 = 0.
Proof. reflexivity. Qed.

Lemma round64_unfold q :
  ~ q == 0 ->
  round64 q ==
  inject_Z (round_half_even (q / 2 ^ last_place q)) * 2 ^ last_place q.
Proof.
  intros H. unfold round64.
  destruct (Qeq_bool q 0) eqn:E; [apply Qeq_bool_iff in E; contradiction|].
  apply Qred_correct.
Qed.

Lemma scaled q s : q / 2 ^ s * 2 ^ s == q.
Proof.
  unfold Qdiv. rewrite <- Qmult_assoc, (Qmult_comm (/ _)), Qmult_inv_r.
  - apply Qmult_1_r.
  - pose proof (two_pos s). lra.
Qed.

Lemma Qabs_pos_lt q : ~ q == 0 -> 0 < Qabs q.
Proof.
  intros H. apply Qabs_case; intros L.
  - destruct (Qlt_le_dec 0 q) as [P|P]; [exact P|]. exfalso. apply H. lra.
  - destruct (Qlt_le_dec q 0) as [P|P]; [lra|]. exfalso. apply H. lra.
Qed.

(** What rounding costs: half a unit in the last place. *)
Lemma round64_half_ulp q :
  ~ q == 0 -> Qabs (round64 q - q) <= 2 ^ (last_place q - 1).
Proof.
  intros H. rewrite (round64_unfold q H).
  set (s := last_place q). set (m := q / 2 ^ s).
  pose proof (round_half_even_near m) as [N1 N2].
  pose proof (two_pos s) as Ps.
  assert (Hq : q == m * 2 ^ s) by (unfold m; now rewrite scaled).
  assert (Hh : 2 ^ (s - 1) == 2 ^ s * (1 # 2)).
  { replace (s - 1)%Z with (s + -1)%Z by lia. rewrite two_plus. reflexivity. }
  rewrite Hh. clearbody m. clear Hh.
  set (n := inject_Z (round_half_even m)) in *. clearbody n.
  assert (Hd : n * 2 ^ s - q == (n - m) * 2 ^ s) by (rewrite Hq; ring).
  rewrite Hd. apply Qabs_Qle_condition.
  split.
  - apply Qle_trans with ((- (1 # 2)) * 2 ^ s); [lra|].
    apply Qmult_le_compat_r; lra.
  - apply Qle_trans with ((1 # 2) * 2 ^ s); [|lra].
    apply Qmult_le_compat_r; lra.
Qed.

Lemma round64_error q :
  Qabs (round64 q - q) <= Qabs q * 2 ^ (-53) + 2 ^ (-1075).
Proof.
  destruct (Qeq_dec q 0) as [E|N].
  - unfold round64. assert (Qeq_bool q 0 = true) as -> by now apply Qeq_bool_iff.
    pose proof (Qabs_nonneg q). pose proof (two_pos (-53)).
    pose proof (two_pos (-1075)).
    apply Qabs_Qle_condition.
    assert (0 <= Qabs q * 2 ^ (-53)) by (apply Qmult_le_0_compat; lra).
    split; lra.
  - eapply Qle_trans; [apply round64_half_ulp; exact N|].
    unfold last_place.
    pose proof (binade_spec (Qabs q) (Qabs_pos_lt q N)) as [B1 _].
    pose proof (two_pos (-53)) as P53. pose proof (two_pos (-1075)) as P1075.
    pose proof (Qabs_nonneg q) as Ha.
    destruct (Z.max_spec (binade (Qabs q)) (-1022)) as [[L ->]|[L ->]].
    + replace (-1022 - 52 - 1)%Z with (-1075)%Z by lia.
      assert (0 <= Qabs q * 2 ^ (-53)) by (apply Qmult_le_0_compat; lra).
      lra.
    + replace (binade (Qabs q) - 52 - 1)%Z
        with (binade (Qabs q) + -53)%Z by lia.
      rewrite two_plus.
      apply Qle_trans with (Qabs q * 2 ^ (-53)); [|lra].
      apply Qmult_le_compat_r; lra.
Qed.

Lemma round_half_even_nonneg q : 0 <= q -> (0 <= round_half_even q)%Z.
Proof.
  intros H. change 0%Z with (round_half_even (inject_Z 0)) at 1.
  - now apply round_half_even_mono.
Qed.

Lemma round64_nonneg q : 0 <= q -> 0 <= round64 q.
Proof.
  intros H. destruct (Qeq_dec q 0) as [E|N].
  - unfold round64. assert (Qeq_bool q 0 = true) as -> by now apply Qeq_bool_iff.
    lra.
  - rewrite (round64_unfold q N).
    pose proof (two_pos (last_place q)) as Ps.
    apply Qmult_le_0_compat; [|lra].
    change 0 with (inject_Z 0). rewrite <- Zle_Qle.
    apply round_half_even_nonneg.
    apply Qle_shift_div_l; [exact Ps|]. lra.
Qed.

(** Rounding keeps the order of the numbers it is given. *)
Lemma round64_mono q1 q2 : 0 <= q1 -> q1 <= q2 -> round64 q1 <= round64 q2.
Proof.
  intros H1 L.
  destruct (Qeq_dec q1 0) as [E1|N1].
  { unfold round64 at 1.
    assert (Qeq_bool q1 0 = true) as -> by now apply Qeq_bool_iff.
    apply round64_nonneg. lra. }
  assert (P1 : 0 < q1).
  { destruct (Qlt_le_dec 0 q1) as [P|P]; [exact P|]. exfalso. apply N1. lra. }
  assert (P2 : 0 < q2) by lra.
  assert (N2 : ~ q2 == 0) by lra.
  rewrite (round64_unfold q1 N1), (round64_unfold q2 N2).
  unfold last_place.
  assert (A1 : Qabs q1 == q1) by (apply Qabs_pos; lra).
  assert (A2 : Qabs q2 == q2) by (apply Qabs_pos; lra).
  assert (C1 : binade (Qabs q1) = binade q1)
    by (apply binade_comp; [rewrite A1; exact P1|exact A1]).
  assert (C2 : binade (Qabs q2) = binade q2)
    by (apply binade_comp; [rewrite A2; exact P2|exact A2]).
  rewrite C1, C2. clear C1 C2.
  pose proof (binade_spec q1 P1) as [B1 B1'].
  pose proof (binade_spec q2 P2) as [B2 B2'].
  pose proof (binade_mono q1 q2 P1 L) as Hb.
  set (b1 := binade q1) in *. set (b2 := binade q2) in *.
  set (E1 := Z.max b1 (-1022)). set (E2 := Z.max b2 (-1022)).
  assert (HE : (E1 <= E2)%Z) by (unfold E1, E2; lia).
  pose proof (two_pos (E1 - 52)) as Ps1. pose proof (two_pos (E2 - 52)) as Ps2.
  destruct (Z.eq_dec E1 E2) as [Eq|Ne].
  - rewrite <- Eq. apply Qmult_le_compat_r; [|lra].
    rewrite <- Zle_Qle. apply round_half_even_mono.
    unfold Qdiv. apply Qmult_le_compat_r; [exact L|].
    apply Qlt_le_weak, Qinv_lt_0_compat. exact Ps1.
  - assert (Hlt : (E1 < E2)%Z) by lia.
    assert (Hb2 : E2 = b2) by (unfold E1, E2 in *; lia).
    (* upper bound of the first *)
    assert (U : inject_Z (round_half_even (q1 / 2 ^ (E1 - 52))) * 2 ^ (E1 - 52)
                <= 2 ^ (E1 + 1)).
    { replace (E1 + 1)%Z with (53 + (E1 - 52))%Z by lia. rewrite two_plus.
      apply Qmult_le_compat_r; [|lra].
      rewrite <- (two_Z 53) by lia. rewrite <- Zle_Qle.
      apply Z.le_trans with (round_half_even (inject_Z (2 ^ 53)));
        [|rewrite round_half_even_Z; apply Z.le_refl].
      apply round_half_even_mono. rewrite (two_Z 53) by lia.
      apply Qle_shift_div_r; [exact Ps1|].
      rewrite <- two_plus. replace (53 + (E1 - 52))%Z with (E1 + 1)%Z by lia.
      apply Qle_trans with (2 ^ (b1 + 1)); [lra|].
      apply two_le. unfold E1. lia. }
    assert (Lo : 2 ^ E2 <=
                 inject_Z (round_half_even (q2 / 2 ^ (E2 - 52)))
                 * 2 ^ (E2 - 52)).
    { replace E2 with (52 + (E2 - 52))%Z at 1 by lia. rewrite two_plus.
      apply Qmult_le_compat_r; [|lra].
      rewrite <- (two_Z 52) by lia. rewrite <- Zle_Qle.
      apply Z.le_trans with (round_half_even (inject_Z (2 ^ 52)));
        [rewrite round_half_even_Z; apply Z.le_refl|].
      apply round_half_even_mono. rewrite (two_Z 52) by lia.
      apply Qle_shift_div_l; [exact Ps2|].
      rewrite <- two_plus. replace (52 + (E2 - 52))%Z with b2 by lia.
      exact B2. }
    apply Qle_trans with (2 ^ (E1 + 1)); [exact U|].
    apply Qle_trans with (2 ^ E2); [|exact Lo].
    apply two_le. lia.
Qed.

Lemma round64_comp q q' : q == q' -> round64 q == round64 q'.
Proof.
  intros E. destruct (Qeq_dec q 0) as [Z|N].
  - unfold round64.
    assert (Qeq_bool q 0 = true) as -> by now apply Qeq_bool_iff.
    assert (Qeq_bool q' 0 = true) as ->
      by (apply Qeq_bool_iff; now rewrite <- E).
    reflexivity.
  - assert (N' : ~ q' == 0) by now rewrite <- E.
    rewrite (round64_unfold q N), (round64_unfold q' N').
    assert (Hl : last_place q = last_place q').
    { unfold last_place. f_equal. f_equal.
      apply binade_comp; [now apply Qabs_pos_lt|now rewrite E]. }
    rewrite Hl.
    rewrite (round_half_even_comp (q / 2 ^ last_place q')
               (q' / 2 ^ last_place q')) by now rewrite E.
    reflexivity.
Qed.

Lemma truncate_comp x y : x == y -> truncate x = truncate y.
Proof.
  intros E. unfold truncate.
  assert (Qle_bool 0 x = Qle_bool 0 y) as ->.
  { destruct (Qle_bool 0 x) eqn:Hx, (Qle_bool 0 y) eqn:Hy; try reflexivity.
    - apply Qle_bool_iff in Hx. rewrite E in Hx.
      apply Qle_bool_iff in Hx. congruence.
    - apply Qle_bool_iff in Hy. rewrite <- E in Hy.
      apply Qle_bool_iff in Hy. congruence. }
  destruct (Qle_bool 0 y); [apply Qfloor_comp | apply Qceiling_comp]; exact E.
Qed.

Lemma truncate_mono x y : x <= y -> (truncate x <= truncate y)%Z.
Proof.
  intros L. unfold truncate.
  destruct (Qle_bool 0 x) eqn:Hx, (Qle_bool 0 y) eqn:Hy.
  - now apply Qfloor_resp_le.
  - apply Qle_bool_iff in Hx.
    assert (Qle_bool 0 y = true)
      by (apply Qle_bool_iff; eapply Qle_trans; eassumption).
    congruence.
  - apply Qle_bool_iff in Hy.
    assert (Hx0 : x <= 0).
    { destruct (Qlt_le_dec x 0) as [H|H]; [now apply Qlt_le_weak|].
      apply Qle_bool_iff in H. congruence. }
    apply Z.le_trans with 0%Z.
    + change 0%Z with (Qceiling 0). now apply Qceiling_resp_le.
    + change 0%Z with (Qfloor 0). now apply Qfloor_resp_le.
  - now apply Qceiling_resp_le.
Qed.

Lemma truncate_Z n : truncate (inject_Z n) = n.
Proof.
  unfold truncate.
  destruct (Qle_bool 0 (inject_Z n)); [apply Qfloor_Z | apply Qceiling_Z].
Qed.

(** Truncation moves a number by less than 1. *)
Lemma truncate_near x :
  x - 1 < inject_Z (truncate x) < x + 1.
Proof.
  unfold truncate. destruct (Qle_bool 0 x).
  - pose proof (Qfloor_le x) as L. pose proof (Qlt_floor x) as H.
    rewrite inject_Z_plus in H. change (inject_Z 1) with 1 in H. split; lra.
  - pose proof (Qle_ceiling x) as L. pose proof (Qceiling_lt x) as H.
    unfold Z.sub in H. rewrite inject_Z_plus, inject_Z_opp in H.
    change (inject_Z 1) with 1 in H. split; lra.
Qed.

(** Equal rationals round to the same fraction. *)
Lemma round64_eq q q' : q == q' -> round64 q = round64 q'.
Proof.
  intros E. destruct (Qeq_dec q 0) as [Z|N].
  - unfold round64.
    assert (Qeq_bool q 0 = true) as -> by now apply Qeq_bool_iff.
    assert (Qeq_bool q' 0 = true) as ->
      by (apply Qeq_bool_iff; now rewrite <- E).
    reflexivity.
  - assert (N' : ~ q' == 0) by now rewrite <- E.
    unfold round64.
    assert (Qeq_bool q 0 = false) as ->.
    { destruct (Qeq_bool q 0) eqn:H; [|reflexivity].
      apply Qeq_bool_iff in H. contradiction. }
    assert (Qeq_bool q' 0 = false) as ->.
    { destruct (Qeq_bool q' 0) eqn:H; [|reflexivity].
      apply Qeq_bool_iff in H. contradiction. }
    assert (Hl : last_place q = last_place q').
    { unfold last_place. f_equal. f_equal.
      apply binade_comp; [now apply Qabs_pos_lt|now rewrite E]. }
    rewrite Hl.
    rewrite (round_half_even_comp (q / 2 ^ last_place q')
               (q' / 2 ^ last_place q')) by now rewrite E.
    reflexivity.
Qed.

Lemma fl_eq q q' : q == q' -> fl q = fl q'.
Proof. intros E. unfold fl. now rewrite (round64_eq q q' E). Qed.

(** A rounded value below 2^1024 in magnitude is the float. *)
Lemma fl_finite q :
  Qabs (round64 q) < 2 ^ 1024 -> fl q = Finite (round64 q).
Proof.
  intros H. unfold fl. cbv zeta.
  destruct (Qle_bool (2 ^ 1024) (Qabs (round64 q))) eqn:E; [|reflexivity].
  apply Qle_bool_iff in E. exfalso. apply (Qlt_not_le _ _ H E).
Qed.

Lemma fl_Finite_inv q x : fl q = Finite x -> x = round64 q.
Proof.
  unfold fl. cbv zeta.
  destruct (Qle_bool (2 ^ 1024) (Qabs (round64 q))); [discriminate|].
  now intros [= <-].
Qed.

Lemma fl_not_NaN q : fl q <> NaN.
Proof.
  unfold fl. cbv zeta.
  destruct (Qle_bool (2 ^ 1024) (Qabs (round64 q))); discriminate.
Qed.

(** Rounding keeps a number between two integers of at most 53 bits that
    it lies between. *)
Lemma round64_between q (lo hi : Z) :
  round64 (inject_Z lo) = inject_Z lo ->
  round64 (inject_Z hi) = inject_Z hi ->
  (0 <= lo)%Z ->
  inject_Z lo <= q <= inject_Z hi ->
  inject_Z lo <= round64 q <= inject_Z hi.
Proof.
  intros El Eh Hlo [H1 H2].
  assert (P : 0 <= inject_Z lo).
  { change 0 with (inject_Z 0). now rewrite <- Zle_Qle. }
  split.
  - rewrite <- El. apply round64_mono; assumption.
  - rewrite <- Eh. apply round64_mono; [|assumption].
    eapply Qle_trans; eassumption.
Qed.

Lemma Qabs_cases x : (0 <= x /\ Qabs x == x) \/ (x < 0 /\ Qabs x == - x).
Proof.
  destruct (Qlt_le_dec x 0) as [H|H].
  - right. split; [exact H|]. apply Qabs_neg. lra.
  - left. split; [exact H|]. now apply Qabs_pos.
Qed.

(** The relative error of a rounding is at most 2^-53, but for the
    numbers next to 0. *)
Lemma round64_close q :
  Qabs (round64 q - q)
    <= Qabs q * (1 # 9007199254740992) + (1 # 1152921504606846976).
Proof.
  eapply Qle_trans; [apply round64_error|].
  assert (E : 2 ^ (-53) == 1 # 9007199254740992) by reflexivity.
  assert (T : 2 ^ (-1075) <= 1 # 1152921504606846976).
  { assert (T' : 2 ^ (-60) == 1 # 1152921504606846976) by reflexivity.
    rewrite <- T'. apply two_le. lia. }
  rewrite E. lra.
Qed.

(** Three roundings and a truncation away from [b - r * s]. *)
Lemma green_chain r rho p g z :
  Qabs (rho - r) <= Qabs r * (1 # 9007199254740992) + (1 # 1152921504606846976) ->
  Qabs (p - rho * 100)
    <= Qabs (rho * 100) * (1 # 9007199254740992) + (1 # 1152921504606846976) ->
  Qabs (g - (240 - p))
    <= Qabs (240 - p) * (1 # 9007199254740992) + (1 # 1152921504606846976) ->
  g - 1 < z < g + 1 ->
  - (2147483648) <= z < 2147483648 ->
  Qabs (z - (240 - r * 100)) < 1 + (1 # 1000).
Proof.
  intros E1 E2 E3 [T1 T2] [C1 C2].
  apply Qabs_Qle_condition in E1 as [E1 E1'].
  apply Qabs_Qle_condition in E2 as [E2 E2'].
  apply Qabs_Qle_condition in E3 as [E3 E3'].
  apply Qabs_Qlt_condition.
  destruct (Qabs_cases r) as [[S1 A1]|[S1 A1]]; rewrite A1 in *; clear A1;
  destruct (Qabs_cases (rho * 100)) as [[S2 A2]|[S2 A2]];
    rewrite A2 in *; clear A2;
  destruct (Qabs_cases (240 - p)) as [[S3 A3]|[S3 A3]];
    rewrite A3 in *; clear A3;
  split; lra.
Qed.

Lemma blue_chain r rho p g z :
  Qabs (rho - r) <= Qabs r * (1 # 9007199254740992) + (1 # 1152921504606846976) ->
  Qabs (p - rho * 140)
    <= Qabs (rho * 140) * (1 # 9007199254740992) + (1 # 1152921504606846976) ->
  Qabs (g - (200 - p))
    <= Qabs (200 - p) * (1 # 9007199254740992) + (1 # 1152921504606846976) ->
  g - 1 < z < g + 1 ->
  - (2147483648) <= z < 2147483648 ->
  Qabs (z - (200 - r * 140)) < 1 + (1 # 1000).
Proof.
  intros E1 E2 E3 [T1 T2] [C1 C2].
  apply Qabs_Qle_condition in E1 as [E1 E1'].
  apply Qabs_Qle_condition in E2 as [E2 E2'].
  apply Qabs_Qle_condition in E3 as [E3 E3'].
  apply Qabs_Qlt_condition.
  destruct (Qabs_cases r) as [[S1 A1]|[S1 A1]]; rewrite A1 in *; clear A1;
  destruct (Qabs_cases (rho * 140)) as [[S2 A2]|[S2 A2]];
    rewrite A2 in *; clear A2;
  destruct (Qabs_cases (200 - p)) as [[S3 A3]|[S3 A3]];
    rewrite A3 in *; clear A3;
  split; lra.
Qed.

(** *** The channel expressions of [get_color_for_age] *)

Lemma channel_returned b s rho z :
  int_of_float (float_sub (Finite b) (float_mul (Finite rho) (Finite s)))
    = Returned z ->
  z = truncate (channel b s rho).
Proof.
  unfold channel. simpl. destruct (fl (rho * s)) eqn:E1; simpl.
  - apply fl_Finite_inv in E1 as ->.
    destruct (fl (b - round64 (rho * s))) eqn:E2; simpl; try discriminate.
    apply fl_Finite_inv in E2 as ->. now intros [= <-].
  - discriminate.
  - discriminate.
Qed.

Lemma channel_raised b s rho e :
  int_of_float (float_sub (Finite b) (float_mul (Finite rho) (Finite s)))
    = Raised e ->
  e = OverflowError.
Proof.
  simpl. destruct (fl (rho * s)) eqn:E1; simpl.
  - destruct (fl (b - q)) eqn:E2; simpl.
    + discriminate.
    + now intros [= <-].
    + exfalso. eapply fl_not_NaN; eassumption.
  - now intros [= <-].
  - exfalso. eapply fl_not_NaN; eassumption.
Qed.

Lemma small_is_finite q (n : Z) :
  0 <= round64 q <= inject_Z n -> inject_Z n < 2 ^ 1024 ->
  fl q = Finite (round64 q).
Proof.
  intros [H1 H2] Hn. apply fl_finite. rewrite Qabs_pos by exact H1.
  eapply Qle_lt_trans; eassumption.
Qed.

Section Channel.
Variables b s : Z.
Hypothesis exact_s : round64 (inject_Z s) = inject_Z s.
Hypothesis exact_b : round64 (inject_Z b) = inject_Z b.
Hypothesis exact_bs : round64 (inject_Z (b - s)) = inject_Z (b - s).
Hypothesis s_b : (0 <= s <= b)%Z.
Hypothesis b_small : inject_Z b < 2 ^ 1024.

Lemma product_bounds rho :
  0 <= rho <= 1 -> 0 <= round64 (rho * inject_Z s) <= inject_Z s.
Proof.
  intros [H0 H1].
  assert (Ps : 0 <= inject_Z s).
  { change 0 with (inject_Z 0). rewrite <- Zle_Qle. lia. }
  change 0 with (inject_Z 0).
  apply round64_between; [reflexivity|exact exact_s|lia|].
  change (inject_Z 0) with 0. split.
  - now apply Qmult_le_0_compat.
  - rewrite <- (Qmult_1_l (inject_Z s)) at 2.
    now apply Qmult_le_compat_r.
Qed.

Lemma channel_bounds rho :
  0 <= rho <= 1 ->
  inject_Z (b - s) <= channel (inject_Z b) (inject_Z s) rho <= inject_Z b.
Proof.
  intros H. destruct (product_bounds rho H) as [P0 P1]. unfold channel.
  apply round64_between; [exact exact_bs|exact exact_b|lia|].
  unfold Z.sub. rewrite inject_Z_plus, inject_Z_opp. split; lra.
Qed.

Lemma channel_in_range rho :
  0 <= rho <= 1 ->
  int_of_float (float_sub (Finite (inject_Z b))
                  (float_mul (Finite rho) (Finite (inject_Z s))))
    = Returned (truncate (channel (inject_Z b) (inject_Z s) rho)) /\
  (b - s <= truncate (channel (inject_Z b) (inject_Z s) rho) <= b)%Z.
Proof.
  intros H. destruct (product_bounds rho H) as [P0 P1].
  destruct (channel_bounds rho H) as [C0 C1].
  assert (Pbs : 0 <= inject_Z (b - s)).
  { change 0 with (inject_Z 0). rewrite <- Zle_Qle. lia. }
  assert (Hsb : inject_Z s <= inject_Z b) by (rewrite <- Zle_Qle; lia).
  split.
  - simpl.
    rewrite (small_is_finite (rho * inject_Z s) b) by (try split; lra).
    simpl.
    rewrite (small_is_finite (inject_Z b - round64 (rho * inject_Z s)) b);
      [reflexivity| |exact b_small].
    fold (channel (inject_Z b) (inject_Z s) rho). split; lra.
  - split.
    + rewrite <- (truncate_Z (b - s)) at 1. now apply truncate_mono.
    + apply Z.le_trans with (truncate (inject_Z b));
        [now apply truncate_mono|rewrite truncate_Z; apply Z.le_refl].
Qed.

Lemma channel_mono rho1 rho2 :
  0 <= rho2 -> rho2 <= rho1 -> rho1 <= 1 ->
  (truncate (channel (inject_Z b) (inject_Z s) rho1)
   <= truncate (channel (inject_Z b) (inject_Z s) rho2))%Z.
Proof.
  intros H0 H12 H1.
  assert (Ps : 0 <= inject_Z s).
  { change 0 with (inject_Z 0). rewrite <- Zle_Qle. lia. }
  assert (Hsb : inject_Z s <= inject_Z b) by (rewrite <- Zle_Qle; lia).
  destruct (product_bounds rho1) as [P0 P1]; [split; lra|].
  assert (Hp : round64 (rho2 * inject_Z s) <= round64 (rho1 * inject_Z s)).
  { apply round64_mono; [now apply Qmult_le_0_compat|].
    now apply Qmult_le_compat_r. }
  apply truncate_mono. unfold channel. apply round64_mono; lra.
Qed.

End Channel.

(** *** The quotient *)

Lemma ratio_rounded q :
  0 <= q <= 1 -> fl q = Finite (round64 q) /\ 0 <= round64 q <= 1.
Proof.
  intros H.
  assert (B : 0 <= round64 q <= 1).
  { change 0 with (inject_Z 0). change 1 with (inject_Z 1).
    apply round64_between; [reflexivity|reflexivity|lia|exact H]. }
  split; [|exact B].
  apply (small_is_finite q 1); [exact B|reflexivity].
Qed.

Lemma true_div_in_range a b :
  b <> 0%Z -> 0 <= inject_Z a / inject_Z b <= 1 ->
  true_div a b = Returned (Finite (round64 (inject_Z a / inject_Z b))).
Proof.
  intros Hb H. unfold true_div.
  destruct (Z.eqb_spec b 0); [contradiction|].
  now rewrite (proj1 (ratio_rounded _ H)).
Qed.

Lemma true_div_returned a b x :
  true_div a b = Returned x ->
  b <> 0%Z /\ x = Finite (round64 (inject_Z a / inject_Z b)).
Proof.
  unfold true_div. destruct (Z.eqb_spec b 0); [discriminate|].
  destruct (fl (inject_Z a / inject_Z b)) eqn:E; try discriminate.
  apply fl_Finite_inv in E as ->. intros [= <-]. now split.
Qed.

Lemma true_div_raised a b e :
  true_div a b = Raised e ->
  (b = 0%Z /\ e = ZeroDivisionError) \/ (b <> 0%Z /\ e = OverflowError).
Proof.
  unfold true_div. destruct (Z.eqb_spec b 0).
  - intros [= <-]. now left.
  - destruct (fl (inject_Z a / inject_Z b)); try discriminate;
      intros [= <-]; now right.
Qed.

(** The quotient at the edges of binary64: of two equally near floats the
    even one is taken; 1/3 has 53 bits; the smallest float is 2^-1074 and
    half of it is 0; the largest is 2^1024 - 2^971, and halfway to 2^1024
    the quotient is too large. *)
Example true_div_edges :
  true_div (2 ^ 53 + 1) 1 = Returned (Finite (inject_Z (2 ^ 53))) /\
  true_div (2 ^ 53 + 3) 1 = Returned (Finite (inject_Z (2 ^ 53 + 4))) /\
  true_div 1 3 = Returned (Finite (6004799503160661 # 2 ^ 54)) /\
  true_div 1 (2 ^ 1074) = Returned (Finite (1 # 2 ^ 1074)) /\
  true_div 1 (2 ^ 1075) = Returned (Finite 0) /\
  true_div 3 (2 ^ 1075) = Returned (Finite (1 # 2 ^ 1073)) /\
  true_div (2 ^ 1024 - 2 ^ 970 - 1) 1
    = Returned (Finite (inject_Z (2 ^ 1024 - 2 ^ 971))) /\
  true_div (2 ^ 1024 - 2 ^ 970) 1 = Raised OverflowError /\
  true_div 1 0 = Raised ZeroDivisionError.
Proof. vm_compute. repeat split. Qed.

(** The other operations where they leave the finite floats. *)
Example float_edges :
  float_mul (Finite (inject_Z (10 ^ 308))) (Finite 100) = Infinity false /\
  float_sub (Finite 240) (Infinity false) = Infinity true /\
  int_of_float (Infinity true) = Raised OverflowError /\
  int_of_float (Finite (-7 # 2)) = Returned (-3)%Z /\
  int_of_float (Finite (7 # 2)) = Returned 3%Z.
Proof. vm_compute. repeat split. Qed.

End Binary64Facts.

(** ** The gradient branch of [get_color_for_age] *)

Module GradientBranch.
Import Binary64 Binary64Facts Coloring ColoringSpec.
Local Open Scope Q_scope.

Lemma gradient_returned t mn mx c :
  t <> 0%Z -> mn <> mx ->
  get_color_for_age t mn mx = Returned c ->
  c = mkQColor 255 (green_of (exact_ratio t mn mx))
        (blue_of (exact_ratio t mn mx)) /\
  c_int (green c) = true /\ c_int (blue c) = true.
Proof.
  intros Ht Hne. unfold get_color_for_age, age_ratio.
  destruct (Z.eqb_spec t 0); [contradiction|].
  destruct (Z.eqb_spec mn mx); [contradiction|].
  destruct (true_div (mx - t) (mx - mn)) as [x|e] eqn:Ed; [|discriminate].
  apply true_div_returned in Ed as [_ ->]. cbn [and_then].
  fold (exact_ratio t mn mx).
  destruct (int_of_float
              (float_sub (Finite 240)
                 (float_mul (Finite (round64 (exact_ratio t mn mx)))
                    (Finite 100)))) as [g|e] eqn:Eg; [|discriminate].
  apply channel_returned in Eg. cbn [and_then].
  destruct (int_of_float
              (float_sub (Finite 200)
                 (float_mul (Finite (round64 (exact_ratio t mn mx)))
                    (Finite 140)))) as [b|e] eqn:Eb; [|discriminate].
  apply channel_returned in Eb. cbn [and_then].
  unfold QColor_rgb.
  destruct (c_int g) eqn:Cg, (c_int b) eqn:Cb; try discriminate.
  intros [= <-]. subst g b. repeat split; assumption.
Qed.

Lemma gradient_raised t mn mx e :
  t <> 0%Z -> mn <> mx ->
  get_color_for_age t mn mx = Raised e -> e = OverflowError.
Proof.
  intros Ht Hne. unfold get_color_for_age, age_ratio.
  destruct (Z.eqb_spec t 0); [contradiction|].
  destruct (Z.eqb_spec mn mx); [contradiction|].
  destruct (true_div (mx - t) (mx - mn)) as [x|e'] eqn:Ed.
  - apply true_div_returned in Ed as [_ ->]. cbn [and_then].
    fold (exact_ratio t mn mx).
    destruct (int_of_float
              (float_sub (Finite 240)
                 (float_mul (Finite (round64 (exact_ratio t mn mx)))
                    (Finite 100)))) as [g|e'] eqn:Eg.
    + cbn [and_then].
      destruct (int_of_float
              (float_sub (Finite 200)
                 (float_mul (Finite (round64 (exact_ratio t mn mx)))
                    (Finite 140)))) as [b|e'] eqn:Eb.
      * cbn [and_then]. unfold QColor_rgb.
        destruct (c_int 255 && c_int g && c_int b); cbv iota;
          [discriminate|].
        now intros [= <-].
      * cbn [and_then]. intros [= <-]. eapply channel_raised, Eb.
    + cbn [and_then]. intros [= <-]. eapply channel_raised, Eg.
  - cbn [and_then]. intros [= <-].
    apply true_div_raised in Ed as [[Hz _]|[_ He]]; [lia|exact He].
Qed.

Lemma gradient_in_range t mn mx :
  t <> 0%Z -> mn <> mx -> 0 <= exact_ratio t mn mx <= 1 ->
  get_color_for_age t mn mx =
    Returned (mkQColor 255 (green_of (exact_ratio t mn mx))
                (blue_of (exact_ratio t mn mx))) /\
  (140 <= green_of (exact_ratio t mn mx) <= 240)%Z /\
  (60 <= blue_of (exact_ratio t mn mx) <= 200)%Z.
Proof.
  intros Ht Hne Hr. unfold get_color_for_age, age_ratio.
  destruct (Z.eqb_spec t 0); [contradiction|].
  destruct (Z.eqb_spec mn mx); [contradiction|].
  rewrite true_div_in_range by (try exact Hr; lia).
  fold (exact_ratio t mn mx). cbn [and_then].
  destruct (ratio_rounded _ Hr) as [_ Hrho].
  destruct (channel_in_range 240 100) with (rho := round64 (exact_ratio t mn mx))
    as [Eg Bg]; try reflexivity; try lia; try exact Hrho.
  destruct (channel_in_range 200 140) with (rho := round64 (exact_ratio t mn mx))
    as [Eb Bb]; try reflexivity; try lia; try exact Hrho.
  change (inject_Z 240) with 240 in Eg, Bg.
  change (inject_Z 100) with 100 in Eg, Bg.
  change (inject_Z 200) with 200 in Eb, Bb.
  change (inject_Z 140) with 140 in Eb, Bb.
  rewrite Eg. cbn [and_then]. rewrite Eb. cbn [and_then].
  fold (green_of (exact_ratio t mn mx)) in *.
  fold (blue_of (exact_ratio t mn mx)) in *.
  split; [|split; [exact Bg|exact Bb]].
  unfold QColor_rgb.
  assert (c_int (green_of (exact_ratio t mn mx)) = true) as ->.
  { unfold c_int. apply andb_true_iff. split; [apply Z.leb_le|apply Z.ltb_lt]; lia. }
  assert (c_int (blue_of (exact_ratio t mn mx)) = true) as ->.
  { unfold c_int. apply andb_true_iff. split; [apply Z.leb_le|apply Z.ltb_lt]; lia. }
  reflexivity.
Qed.

Lemma c_int_bounds (z : Z) :
  c_int z = true -> - (2147483648) <= inject_Z z < 2147483648.
Proof.
  unfold c_int. intros H. apply andb_true_iff in H as [H1 H2].
  apply Z.leb_le in H1. apply Z.ltb_lt in H2.
  change (- (2147483648)) with (inject_Z (- 2 ^ 31)).
  change 2147483648 with (inject_Z (2 ^ 31)).
  rewrite <- Zle_Qle, <- Zlt_Qlt. split; assumption.
Qed.

(** The channels of a colour the gradient branch returns are within a
    truncation and three roundings of the exact interpolation. *)
Lemma gradient_linear t mn mx c :
  t <> 0%Z -> mn <> mx ->
  get_color_for_age t mn mx = Returned c ->
  red c = 255%Z /\
  Qabs (inject_Z (green c) - (240 - exact_ratio t mn mx * 100))
    < 1 + (1 # 1000) /\
  Qabs (inject_Z (blue c) - (200 - exact_ratio t mn mx * 140))
    < 1 + (1 # 1000).
Proof.
  intros Ht Hne H.
  destruct (gradient_returned t mn mx c Ht Hne H) as (-> & Cg & Cb).
  cbn [red green blue] in *. split; [reflexivity|].
  set (r := exact_ratio t mn mx) in *. split.
  - apply (green_chain r (round64 r) (round64 (round64 r * 100))
             (channel 240 100 (round64 r))).
    + apply round64_close.
    + apply round64_close.
    + apply round64_close.
    + apply truncate_near.
    + apply c_int_bounds, Cg.
  - apply (blue_chain r (round64 r) (round64 (round64 r * 140))
             (channel 200 140 (round64 r))).
    + apply round64_close.
    + apply round64_close.
    + apply round64_close.
    + apply truncate_near.
    + apply c_int_bounds, Cb.
Qed.

Lemma green_of_eq q q' : q == q' -> green_of q = green_of q'.
Proof. intros E. unfold green_of. now rewrite (round64_eq q q' E). Qed.

Lemma blue_of_eq q q' : q == q' -> blue_of q = blue_of q'.
Proof. intros E. unfold blue_of. now rewrite (round64_eq q q' E). Qed.

Lemma channels_mono r1 r2 :
  0 <= r2 -> r2 <= r1 -> r1 <= 1 ->
  (green_of r1 <= green_of r2)%Z /\ (blue_of r1 <= blue_of r2)%Z.
Proof.
  intros H0 H12 H1.
  destruct (ratio_rounded r1) as [_ [A0 A1]]; [split; lra|].
  destruct (ratio_rounded r2) as [_ [B0 B1]]; [split; lra|].
  pose proof (round64_mono r2 r1 H0 H12) as Hm.
  split.
  - apply (channel_mono 240 100); try reflexivity; try lia; assumption.
  - apply (channel_mono 200 140); try reflexivity; try lia; assumption.
Qed.

Lemma exact_ratio_antitone t1 t2 mn mx :
  (mn < mx)%Z -> (t1 <= t2)%Z -> exact_ratio t2 mn mx <= exact_ratio t1 mn mx.
Proof.
  intros Hd Ht. unfold exact_ratio, Qdiv.
  apply Qmult_le_compat_r.
  - rewrite <- Zle_Qle. lia.
  - apply Qlt_le_weak, Qinv_lt_0_compat.
    change 0 with (inject_Z 0). rewrite <- Zlt_Qlt. lia.
Qed.

Lemma exact_ratio_at_max mn mx : exact_ratio mx mn mx == 0.
Proof.
  unfold exact_ratio. rewrite Z.sub_diag. unfold Qdiv. apply Qmult_0_l.
Qed.

Lemma exact_ratio_at_min mn mx : mn <> mx -> exact_ratio mn mn mx == 1.
Proof.
  intros Hne. unfold exact_ratio. apply Qmult_inv_r.
  change 0 with (inject_Z 0). rewrite inject_Z_injective. lia.
Qed.

Lemma exact_ratio_bounds t mn mx :
  (mn <= t <= mx)%Z -> mn <> mx -> 0 <= exact_ratio t mn mx <= 1.
Proof.
  intros Ht Hne. split.
  - rewrite <- (exact_ratio_at_max mn mx). apply exact_ratio_antitone; lia.
  - rewrite <- (exact_ratio_at_min mn mx Hne). apply exact_ratio_antitone; lia.
Qed.

Lemma gradient_at_max mn mx :
  mx <> 0%Z -> mn <> mx ->
  get_color_for_age mx mn mx = Returned (mkQColor 255 240 200).
Proof.
  intros H0 Hne.
  destruct (gradient_in_range mx mn mx H0 Hne) as [E _].
  { rewrite exact_ratio_at_max. split; lra. }
  rewrite E.
  rewrite (green_of_eq _ 0 (exact_ratio_at_max mn mx)).
  rewrite (blue_of_eq _ 0 (exact_ratio_at_max mn mx)).
  reflexivity.
Qed.

Lemma gradient_at_min mn mx :
  mn <> 0%Z -> mn <> mx ->
  get_color_for_age mn mn mx = Returned (mkQColor 255 140 60).
Proof.
  intros H0 Hne.
  destruct (gradient_in_range mn mn mx H0 Hne) as [E _].
  { rewrite (exact_ratio_at_min mn mx Hne). split; lra. }
  rewrite E.
  rewrite (green_of_eq _ 1 (exact_ratio_at_min mn mx Hne)).
  rewrite (blue_of_eq _ 1 (exact_ratio_at_min mn mx Hne)).
  reflexivity.
Qed.

End GradientBranch.

(** ** Colouring *)

Module ColoringFacts.
Import Binary64 Coloring ColoringSpec Samples.

(** *** The normalisation domain of [populate_queries] *)

Lemma valid_times_In t (queries : list (string * Query)) :
  In t (valid_times queries) <->
  exists q, In q queries /\ last_file_time q.2 = t /\
            last_file_time q.2 > 0 /\ acknowledged q.2 = false.
Proof.
  unfold valid_times. rewrite in_map_iff. split.
  - intros (q & Ht & Hq). apply filter_In in Hq as [Hin Hc].
    apply andb_true_iff in Hc as [Hp Ha].
    exists q. repeat split; auto; [lia|now destruct (acknowledged q.2)].
  - intros (q & Hin & Ht & Hp & Ha). exists q. split; [exact Ht|].
    apply filter_In. split; [exact Hin|].
    rewrite Ha. apply andb_true_iff. split; [lia|reflexivity].
Qed.

Lemma foldl_min_spec ts t :
  foldl Z.min t ts <= t /\
  (forall x, In x ts -> foldl Z.min t ts <= x) /\
  In (foldl Z.min t ts) (t :: ts).
Proof.
  revert t. induction ts as [|y ts IH]; intros t; simpl.
  - split; [lia|]. split; [tauto|]. now left.
  - destruct (IH (Z.min t y)) as (H1 & H2 & H3). split; [lia|]. split.
    + intros x [->|Hx]; [lia|auto].
    + simpl in H3. destruct H3 as [H3|H3]; [|tauto].
      destruct (Z.min_spec t y) as [[_ E]|[_ E]]; rewrite E in *; tauto.
Qed.

Lemma foldl_max_spec ts t :
  t <= foldl Z.max t ts /\
  (forall x, In x ts -> x <= foldl Z.max t ts) /\
  In (foldl Z.max t ts) (t :: ts).
Proof.
  revert t. induction ts as [|y ts IH]; intros t; simpl.
  - split; [lia|]. split; [tauto|]. now left.
  - destruct (IH (Z.max t y)) as (H1 & H2 & H3). split; [lia|]. split.
    + intros x [->|Hx]; [lia|auto].
    + simpl in H3. destruct H3 as [H3|H3]; [|tauto].
      destruct (Z.max_spec t y) as [[_ E]|[_ E]]; rewrite E in *; tauto.
Qed.

(** [min_time] and [max_time] are the least and the greatest file time of
    the rows that are unacknowledged with a file time above 0, and both
    are 0 when there is no such row. *)
Lemma time_range_spec (queries : list (string * Query)) :
  (valid_times queries = [] /\ time_range queries = (0, 0)) \/
  (In (time_range queries).1 (valid_times queries) /\
   In (time_range queries).2 (valid_times queries) /\
   forall t, In t (valid_times queries) ->
             (time_range queries).1 <= t <= (time_range queries).2).
Proof.
  unfold time_range.
  destruct (valid_times queries) as [|t ts] eqn:E; [now left|right].
  unfold list_min, list_max. simpl fst. simpl snd.
  destruct (foldl_min_spec ts t) as (A1 & A2 & A3).
  destruct (foldl_max_spec ts t) as (B1 & B2 & B3).
  split; [exact A3|]. split; [exact B3|].
  intros x [<-|Hx]; split; auto.
Qed.

Lemma time_range_cases (queries : list (string * Query)) :
  time_range queries = (0, 0) \/
  0 < (time_range queries).1 <= (time_range queries).2.
Proof.
  destruct (time_range_spec queries) as [[_ E]|(H1 & H2 & H3)]; [now left|right].
  split; [|apply H3, H1].
  apply valid_times_In in H1 as (q & _ & <- & Hp & _). lia.
Qed.

(** Rows of the normalisation domain have an age ratio between 0 and 1. *)
Lemma domain_row_ratio (queries : list (string * Query)) q :
  In q queries -> acknowledged q.2 = false -> last_file_time q.2 > 0 ->
  (time_range queries).1 <> (time_range queries).2 ->
  (0 <= exact_ratio (last_file_time q.2)
          (time_range queries).1 (time_range queries).2 <= 1)%Q.
Proof.
  intros Hin Ha Hp Hne.
  assert (Hv : In (last_file_time q.2) (valid_times queries)).
  { apply valid_times_In. exists q. auto. }
  destruct (time_range_spec queries) as [[E _]|(_ & _ & H3)].
  - rewrite E in Hv. destruct Hv.
  - apply GradientBranch.exact_ratio_bounds; auto.
Qed.

(** *** The colour of a row *)

Lemma interpolate_green r : (interpolate 240 140 r == 240 - r * 100)%Q.
Proof.
  unfold interpolate.
  change (inject_Z 240) with 240%Q. change (inject_Z 140) with 140%Q. ring.
Qed.

Lemma interpolate_blue r : (interpolate 200 60 r == 200 - r * 140)%Q.
Proof.
  unfold interpolate.
  change (inject_Z 200) with 200%Q. change (inject_Z 60) with 60%Q. ring.
Qed.

(** The gradient branch does what rule 6 says. *)
Lemma get_color_for_age_linear t mn mx :
  t <> 0 -> mn <> mx ->
  linear_gradient t mn mx (get_color_for_age t mn mx).
Proof.
  intros Ht Hne. unfold linear_gradient. cbv zeta.
  destruct (get_color_for_age t mn mx) as [c|e] eqn:E.
  - destruct (GradientBranch.gradient_linear t mn mx c Ht Hne E)
      as (Hr & Hg & Hb).
    split; [exact Hr|]. unfold follows.
    rewrite interpolate_green, interpolate_blue. split; assumption.
  - split; [exact (GradientBranch.gradient_raised t mn mx e Ht Hne E)|].
    intros Hr.
    destruct (GradientBranch.gradient_in_range t mn mx Ht Hne Hr) as [E' _].
    congruence.
Qed.

(** C4. The colour of a row is given by the first rule that matches, in
    the order: acknowledged and not expired, dead, paused, no file yet,
    one-point domain, linear gradient.  Under the first five rules the
    fixed colour is returned.  Under the sixth, red is 255 and the green
    and blue channels follow the linear interpolation from 240 to 140 and
    from 200 to 60 along the exact age ratio; a colour is returned when
    that ratio is between 0 and 1, and nothing but [OverflowError] is
    raised when it is not.  What the colouring does is a function of
    (last_file_time, min_time, max_time, acknowledged, acknowledged_time,
    dead, paused, now) alone. *)
Theorem create_query_item_color_rule (query : Query) (now min_time max_time : Z) :
  color_rule (last_file_time query) min_time max_time
    (acknowledged query) (acknowledged_time query)
    (dead query) (paused query) now
    (create_query_item query now min_time max_time) /\
  (forall query' : Query,
     last_file_time query' = last_file_time query ->
     acknowledged query' = acknowledged query ->
     acknowledged_time query' = acknowledged_time query ->
     dead query' = dead query -> paused query' = paused query ->
     create_query_item query' now min_time max_time =
     create_query_item query now min_time max_time).
Proof.
  split.
  - unfold create_query_item, get_status_color, color_rule.
    rewrite Z.gtb_ltb.
    destruct (acknowledged query && _); [reflexivity|].
    destruct (dead query); [reflexivity|].
    destruct (paused query); [reflexivity|].
    destruct (Z.eqb_spec (last_file_time query) 0) as [E0|N0].
    { unfold get_color_for_age. rewrite E0. reflexivity. }
    destruct (Z.eqb_spec min_time max_time) as [Em|Nm].
    { unfold get_color_for_age.
      destruct (Z.eqb_spec (last_file_time query) 0); [contradiction|].
      destruct (Z.eqb_spec min_time max_time); [reflexivity|contradiction]. }
    now apply get_color_for_age_linear.
  - intros query' E1 E2 E3 E4 E5.
    unfold create_query_item, get_status_color.
    now rewrite E1, E2, E3, E4, E5.
Qed.

(** The code computes in binary64: with file time 7 in the domain 1..36
    the exact interpolation of blue is 84, and the blue channel is 83. *)
Example gradient_is_rounded :
  (interpolate 200 60 (exact_ratio 7 1 36) == 84)%Q /\
  get_color_for_age 7 1 36 = Returned (mkQColor 255 157 83).
Proof. split; reflexivity. Qed.

(** C5 (the code at the failing input).  With two rows in the
    normalisation domain (file times 100 and 200) and a third row whose
    acknowledgment has expired (file time 500), the domain is [100, 200],
    the third row reaches the gradient rule, its age ratio is -3 and its
    green and blue channels are 540 and 620. *)
Theorem expired_row_age_ratio :
  time_range [row_old; row_fresh; row_expired] = (100, 200) /\
  get_status_color row_expired.2 (acknowledged_time row_expired.2) sample_now
    = None /\
  age_ratio (last_file_time row_expired.2) 100 200
    = Returned (Finite (-3 # 1)) /\
  (exact_ratio (last_file_time row_expired.2) 100 200 == -3 # 1)%Q /\
  populate_queries [row_old; row_fresh; row_expired] sample_now =
    ([mkQColor 255 140 60; mkQColor 255 240 200; mkQColor 255 540 620], None).
Proof. repeat split. Qed.

(** A ratio far from [0, 1] leaves the C [int]s: the row is not created,
    [populate_queries] is left by the [OverflowError], and the rows in the
    tree are those that stood before it. *)
Example expired_row_overflow :
  time_range [row_first; row_second; row_far] = (1, 2) /\
  create_query_item row_far.2 sample_now 1 2 = Raised OverflowError /\
  populate_queries [row_first; row_second; row_far] sample_now =
    ([mkQColor 255 140 60; mkQColor 255 240 200], Some OverflowError) /\
  populate_queries [row_far; row_first; row_second] sample_now =
    ([], Some OverflowError).
Proof. repeat split. Qed.

Lemma unacknowledged_row_color (q : Query) now mn mx :
  acknowledged q = false -> dead q = false -> paused q = false ->
  create_query_item q now mn mx = get_color_for_age (last_file_time q) mn mx.
Proof.
  intros Ha Hd Hp. unfold create_query_item, get_status_color.
  now rewrite Ha, Hd, Hp.
Qed.

Lemma get_color_for_age_one_point t mn :
  t <> 0 -> get_color_for_age t mn mn = Returned mid_gradient_color.
Proof.
  intros Ht. unfold get_color_for_age.
  destruct (Z.eqb_spec t 0); [contradiction|].
  now rewrite Z.eqb_refl.
Qed.

(** The channels of the gradient branch grow with the file time. *)
Lemma gradient_channels_mono t1 t2 mn mx :
  t1 <> 0 -> t2 <> 0 -> mn <= t1 -> t1 <= t2 -> t2 <= mx ->
  exists c1 c2,
    get_color_for_age t1 mn mx = Returned c1 /\
    get_color_for_age t2 mn mx = Returned c2 /\
    green c1 <= green c2 /\ blue c1 <= blue c2.
Proof.
  intros H1 H2 Hlo Hle Hhi.
  destruct (Z.eq_dec mn mx) as [->|Hne].
  - exists mid_gradient_color, mid_gradient_color.
    rewrite !get_color_for_age_one_point by assumption.
    repeat split; lia.
  - destruct (GradientBranch.exact_ratio_bounds t1 mn mx) as [A0 A1];
      [lia|exact Hne|].
    destruct (GradientBranch.exact_ratio_bounds t2 mn mx) as [B0 B1];
      [lia|exact Hne|].
    destruct (GradientBranch.gradient_in_range t1 mn mx H1 Hne)
      as (E1 & _); [split; assumption|].
    destruct (GradientBranch.gradient_in_range t2 mn mx H2 Hne)
      as (E2 & _); [split; assumption|].
    eexists _, _. split; [exact E1|]. split; [exact E2|].
    cbn [green blue].
    apply GradientBranch.channels_mono; try assumption.
    apply GradientBranch.exact_ratio_antitone; lia.
Qed.

Lemma gradient_endpoints mn mx :
  mn <> 0 -> mx <> 0 -> mn <> mx ->
  exists c1 c2,
    get_color_for_age mn mn mx = Returned c1 /\
    get_color_for_age mx mn mx = Returned c2 /\
    green c1 < green c2 /\ blue c1 < blue c2.
Proof.
  intros H1 H2 Hne.
  exists (mkQColor 255 140 60), (mkQColor 255 240 200).
  rewrite GradientBranch.gradient_at_min, GradientBranch.gradient_at_max
    by assumption.
  cbn [green blue]. repeat split; lia.
Qed.

(** C6. For two unacknowledged, non-dead, non-paused queries with file
    times in [min_time, max_time], a colour is returned for each, and the
    green and blue channels of the gradient colouring do not increase as
    the file time decreases; when min_time <> max_time the colour at
    min_time has strictly smaller green and blue than the colour at
    max_time.  The first two parts are about [get_color_for_age] on file
    times other than 0 (those it sends to the gradient), the third about
    the rows [populate_queries] colours with the min_time and max_time it
    computes. *)
Theorem gradient_darkens_with_age :
  (forall t1 t2 mn mx,
     t1 <> 0 -> t2 <> 0 -> mn <= t1 -> t1 <= t2 -> t2 <= mx ->
     exists c1 c2,
       get_color_for_age t1 mn mx = Returned c1 /\
       get_color_for_age t2 mn mx = Returned c2 /\
       green c1 <= green c2 /\ blue c1 <= blue c2) /\
  (forall mn mx,
     mn <> 0 -> mx <> 0 -> mn <> mx ->
     exists c1 c2,
       get_color_for_age mn mn mx = Returned c1 /\
       get_color_for_age mx mn mx = Returned c2 /\
       green c1 < green c2 /\ blue c1 < blue c2) /\
  (forall (queries : list (string * Query)) (now : Z) (q1 q2 : Query),
     acknowledged q1 = false -> dead q1 = false -> paused q1 = false ->
     acknowledged q2 = false -> dead q2 = false -> paused q2 = false ->
     (time_range queries).1 <= last_file_time q1 ->
     last_file_time q1 <= last_file_time q2 ->
     last_file_time q2 <= (time_range queries).2 ->
     exists c1 c2,
       create_query_item q1 now
         (time_range queries).1 (time_range queries).2 = Returned c1 /\
       create_query_item q2 now
         (time_range queries).1 (time_range queries).2 = Returned c2 /\
       green c1 <= green c2 /\ blue c1 <= blue c2 /\
       ((time_range queries).1 <> (time_range queries).2 ->
        last_file_time q1 = (time_range queries).1 ->
        last_file_time q2 = (time_range queries).2 ->
        green c1 < green c2 /\ blue c1 < blue c2)).
Proof.
  split; [exact gradient_channels_mono|]. split; [exact gradient_endpoints|].
  intros queries now q1 q2 Ha1 Hd1 Hp1 Ha2 Hd2 Hp2 Hlo Hle Hhi.
  rewrite !unacknowledged_row_color by assumption.
  destruct (time_range_cases queries) as [E|Hpos].
  - rewrite E in *. simpl in *.
    assert (last_file_time q1 = 0) as -> by lia.
    assert (last_file_time q2 = 0) as -> by lia.
    exists neutral_color, neutral_color.
    split; [reflexivity|]. split; [reflexivity|].
    split; [lia|]. split; [lia|]. intros Hne. contradiction.
  - destruct (gradient_channels_mono (last_file_time q1) (last_file_time q2)
                (time_range queries).1 (time_range queries).2)
      as (c1 & c2 & E1 & E2 & Hg & Hb); try lia.
    exists c1, c2. split; [exact E1|]. split; [exact E2|].
    split; [exact Hg|]. split; [exact Hb|].
    intros Hne F1 F2. rewrite F1 in E1. rewrite F2 in E2.
    destruct (gradient_endpoints (time_range queries).1 (time_range queries).2)
      as (d1 & d2 & D1 & D2 & Hs); try lia.
    rewrite E1 in D1. rewrite E2 in D2.
    injection D1 as <-. injection D2 as <-. exact Hs.
Qed.

Lemma gradient_darkens_with_age_witness :
  (exists c1 c2,
     create_query_item row_old.2 sample_now 100 200 = Returned c1 /\
     create_query_item row_fresh.2 sample_now 100 200 = Returned c2 /\
     green c1 < green c2) /\
  (exists c1 c2,
     get_color_for_age 120 100 200 = Returned c1 /\
     get_color_for_age 180 100 200 = Returned c2 /\
     blue c1 <= blue c2).
Proof.
  destruct gradient_darkens_with_age as (Hmono & _ & Hrows).
  split.
  - destruct (Hrows [row_old; row_fresh] sample_now row_old.2 row_fresh.2)
      as (c1 & c2 & E1 & E2 & _ & _ & Hs);
      [reflexivity|reflexivity|reflexivity|reflexivity|reflexivity|reflexivity
      |simpl; lia|simpl; lia|simpl; lia|].
    exists c1, c2. split; [exact E1|]. split; [exact E2|].
    apply Hs; [simpl; lia|reflexivity|reflexivity].
  - destruct (Hmono 120 180 100 200) as (c1 & c2 & E1 & E2 & _ & Hb);
      [lia|lia|lia|lia|lia|].
    exists c1, c2. split; [exact E1|]. split; [exact E2|]. exact Hb.
Defined.

End ColoringFacts.

(** ** Persistence *)

Module PersistenceFacts.
Import Persistence IngestSpec Samples.

(** *** Running the connection monad *)

Lemma bind_inr {A B} (m : M A) (k : A -> M B) c b c' :
  bind m k c = (inr b, c') ->
  exists a c1, m c = (inr a, c1) /\ k a c1 = (inr b, c').
Proof.
  unfold bind. destruct (m c) as [[e|a] c1]; [discriminate|]. eauto.
Qed.

Lemma bind_inl {A B} (m : M A) (k : A -> M B) c e c' :
  bind m k c = (inl e, c') ->
  m c = (inl e, c') \/ exists a c1, m c = (inr a, c1) /\ k a c1 = (inl e, c').
Proof.
  unfold bind. destruct (m c) as [[e1|a] c1]; intros E;
    [left; now injection E as -> -> | right; exists a, c1; split; [reflexivity | exact E]].
Qed.

Lemma keeps_ret {A} (a : A) : keeps_committed (ret a).
Proof. intros c. reflexivity. Qed.

Lemma keeps_bind {A B} (m : M A) (k : A -> M B) :
  keeps_committed m -> (forall a, keeps_committed (k a)) ->
  keeps_committed (bind m k).
Proof.
  intros Hm Hk c. unfold bind. specialize (Hm c).
  destruct (m c) as [[e|a] c1]; simpl in *; [exact Hm|].
  now rewrite Hk.
Qed.

Lemma keeps_engine : keeps_committed engine.
Proof. intros c. unfold engine. destruct (budget c) as [[|n]|]; reflexivity. Qed.

Lemma keeps_execute stmt : keeps_committed (execute stmt).
Proof.
  apply keeps_bind; [apply keeps_engine|]. intros _ c.
  destruct (stmt (working c)) as [e|[[d n] i]]; reflexivity.
Qed.

Lemma keeps_for_each {A} (l : list A) body :
  (forall x, keeps_committed (body x)) -> keeps_committed (for_each l body).
Proof.
  intros Hb. induction l as [|x l IH]; simpl; [apply keeps_ret|].
  apply keeps_bind; auto.
Qed.

Lemma keeps_fails {A} (m : M A) : keeps_committed m -> fails_atomically m.
Proof. intros H c e c' E. specialize (H c). now rewrite E in H. Qed.

Lemma fails_bind {A B} (m : M A) (k : A -> M B) :
  keeps_committed m -> (forall a, fails_atomically (k a)) ->
  fails_atomically (bind m k).
Proof.
  intros Hm Hk c e c' E. apply bind_inl in E as [E|(a & c1 & E1 & E2)].
  - now apply (keeps_fails m Hm c e).
  - apply Hk in E2. specialize (Hm c). rewrite E1 in Hm. simpl in Hm. congruence.
Qed.

(** A commit followed by computations that cannot fail. *)
Lemma fails_commit_then {A} (k : M A) :
  (forall c e c', k c <> (inl e, c')) -> fails_atomically (commit ;;; k).
Proof.
  intros Hk c e c' E. apply bind_inl in E as [E|(a & c1 & E1 & E2)].
  - unfold commit in E. apply bind_inl in E as [E|(a & c1 & _ & E2)].
    + apply (keeps_fails _ keeps_engine) in E. exact E.
    + discriminate.
  - now apply Hk in E2.
Qed.

Lemma spent_trans k1 k2 b b1 b2 :
  spent k1 b b1 -> spent k2 b1 b2 -> spent (k1 + k2) b b2.
Proof.
  unfold spent. destruct b as [n|]; [|now intros ->].
  intros [H1 ->] [H2 ->]. split; [lia|f_equal; lia].
Qed.

Lemma spent_0 b : spent 0 b b.
Proof. destruct b as [n|]; simpl; [split; [lia|f_equal; lia]|reflexivity]. Qed.

(** *** Single steps *)

Lemma engine_inr c u c' :
  engine c = (inr u, c') ->
  committed c' = committed c /\ working c' = working c /\
  lastrowid c' = lastrowid c /\ rowcount c' = rowcount c /\
  spent 1 (budget c) (budget c').
Proof.
  unfold engine, spent. destruct (budget c) as [[|n]|] eqn:E; intros H;
    inversion H; subst; simpl; rewrite ?E; repeat split; try lia.
  f_equal; lia.
Qed.

Lemma spent_enough k m b b' : spent k b b' -> enough (k + m) b -> enough m b'.
Proof.
  unfold spent, enough. destruct b as [n|]; [|now intros ->].
  intros [H ->] Hn. lia.
Qed.

Lemma enough_le k m b : (m <= k)%nat -> enough k b -> enough m b.
Proof. unfold enough. destruct b; [lia|auto]. Qed.

Lemma engine_enough c :
  enough 1 (budget c) -> exists c', engine c = (inr tt, c').
Proof.
  unfold engine, enough. destruct (budget c) as [[|n]|]; [lia|eauto|eauto].
Qed.

Lemma execute_inr stmt c u c' :
  execute stmt c = (inr u, c') ->
  exists d n i,
    stmt (working c) = inr (d, n, i) /\
    committed c' = committed c /\ working c' = d /\
    lastrowid c' = default (lastrowid c) i /\ rowcount c' = n /\
    spent 1 (budget c) (budget c').
Proof.
  intros E. apply bind_inr in E as (a & c1 & E1 & E2).
  apply engine_inr in E1 as (H1 & H2 & H3 & H4 & H5).
  rewrite H2 in E2.
  destruct (stmt (working c)) as [e|[[d n] i]]; [discriminate|].
  inversion E2; subst; simpl. exists d, n, i.
  rewrite H1, H3. repeat split; auto.
Qed.

Lemma execute_enough stmt c d n i :
  enough 1 (budget c) -> stmt (working c) = inr (d, n, i) ->
  exists c', execute stmt c = (inr tt, c').
Proof.
  intros Hb Hs. unfold execute, bind.
  destruct (engine_enough c Hb) as (c1 & E). rewrite E.
  apply engine_inr in E as (_ & -> & _). rewrite Hs. eauto.
Qed.

Lemma commit_inr c u c' :
  commit c = (inr u, c') ->
  committed c' = working c /\ working c' = working c /\
  rowcount c' = rowcount c /\ spent 1 (budget c) (budget c').
Proof.
  intros E. apply bind_inr in E as (a & c1 & E1 & E2).
  apply engine_inr in E1 as (H1 & H2 & H3 & H4 & H5).
  inversion E2; subst; simpl. rewrite H2, H4. auto.
Qed.

Lemma commit_enough c :
  enough 1 (budget c) -> exists c', commit c = (inr tt, c').
Proof.
  intros Hb. unfold commit, bind.
  destruct (engine_enough c Hb) as (c1 & ->). eauto.
Qed.

(** *** Binding parameters *)

Lemma keeps_bind_parameters params : keeps_committed (bind_parameters params).
Proof.
  intros c. unfold bind_parameters.
  destruct (forallb int64 params); reflexivity.
Qed.

Lemma bind_parameters_inr params c u c' :
  bind_parameters params c = (inr u, c') ->
  forallb int64 params = true /\ c' = c.
Proof.
  unfold bind_parameters. destruct (forallb int64 params); [|discriminate].
  intros [= <- <-]. auto.
Qed.

Lemma bound_execute_inr params stmt c u c' :
  (bind_parameters params ;;; execute stmt) c = (inr u, c') ->
  forallb int64 params = true /\ execute stmt c = (inr u, c').
Proof.
  intros E. apply bind_inr in E as (a & c1 & E1 & E2).
  apply bind_parameters_inr in E1 as [Hr ->]. auto.
Qed.



Lemma keeps_bound_execute params stmt :
  keeps_committed (bind_parameters params ;;; execute stmt).
Proof.
  apply keeps_bind; [apply keeps_bind_parameters|intros _; apply keeps_execute].
Qed.

(** *** The insertion loops of [save_subscription_data] *)

Section SaveLoops.
Variable json_dumps : list json -> string.

Local Abbreviation insert_queries sub_id qs :=
  (for_each qs (fun query =>
     bind_parameters (query_parameters query) ;;;
     execute (insert_into_queries json_dumps sub_id query))).

Local Abbreviation insert_subscriptions subs :=
  (for_each subs (fun sub =>
     execute (insert_into_subscriptions
                (default "Unknown" (d_name sub))
                (default "" (d_gug_name sub))) ;;;
     sub_id <- get_lastrowid ;;
     insert_queries sub_id (default [] (d_queries sub)))).

Lemma insert_queries_inr sub_id qs :
  forall c u c' sr qr s q,
    insert_queries sub_id qs c = (inr u, c') ->
    working c = mkDatabase sr (Some qr) s q ->
    working c' =
      mkDatabase sr (Some (qr ++ query_rows json_dumps q sub_id qs)) s
        (q + Z.of_nat (length qs)) /\
    committed c' = committed c /\
    spent (length qs) (budget c) (budget c') /\
    queries_in_range qs = true.
Proof.
  induction qs as [|query qs IH]; intros c u c' sr qr s q E Hw.
  - inversion E; subst. simpl. rewrite app_nil_r, Z.add_0_r.
    auto using spent_0.
  - simpl in E. apply bind_inr in E as (a & c1 & E1 & E2).
    apply bound_execute_inr in E1 as [Hr E1].
    apply execute_inr in E1 as (d & n & i & Hs & Hc & Hd & _ & _ & Hb).
    rewrite Hw in Hs. unfold insert_into_queries in Hs. simpl in Hs.
    injection Hs as <- <- <-.
    eapply IH in E2 as (Hw' & Hc' & Hb' & Hr'); [|exact Hd].
    split; [|split; [|split]].
    + rewrite Hw'. simpl. rewrite <- app_assoc. simpl.
      f_equal. lia.
    + congruence.
    + apply (spent_trans 1 (length qs) _ _ _ Hb Hb').
    + change (queries_in_range (query :: qs))
        with (forallb int64 (query_parameters query) && queries_in_range qs).
      now rewrite Hr, Hr'.
Qed.



Lemma payload_rows_cons s q sub subs :
  (payload_rows json_dumps s q (sub :: subs)).1 =
    mkSubscriptionRow (s + 1)
      (default "Unknown" (d_name sub)) (default "" (d_gug_name sub))
    :: (payload_rows json_dumps (s + 1)
          (q + Z.of_nat (length (default [] (d_queries sub)))) subs).1 /\
  (payload_rows json_dumps s q (sub :: subs)).2 =
    query_rows json_dumps q (s + 1) (default [] (d_queries sub))
    ++ (payload_rows json_dumps (s + 1)
          (q + Z.of_nat (length (default [] (d_queries sub)))) subs).2.
Proof. simpl. destruct (payload_rows _ _ _ subs). split; reflexivity. Qed.

Lemma insert_subscriptions_inr subs :
  forall c u c' sr qr s q,
    insert_subscriptions subs c = (inr u, c') ->
    working c = mkDatabase (Some sr) (Some qr) s q ->
    working c' =
      mkDatabase
        (Some (sr ++ (payload_rows json_dumps s q subs).1))
        (Some (qr ++ (payload_rows json_dumps s q subs).2))
        (s + Z.of_nat (length subs))
        (q + Z.of_nat (payload_query_count subs)) /\
    committed c' = committed c /\
    spent (length subs + payload_query_count subs) (budget c) (budget c') /\
    payload_in_range subs = true.
Proof.
  induction subs as [|sub subs IH]; intros c u c' sr qr s q E Hw.
  - inversion E; subst. simpl. rewrite !app_nil_r, !Z.add_0_r.
    auto using spent_0.
  - change (for_each (sub :: subs) ?body)
      with (body sub ;;; for_each subs body) in E.
    apply bind_inr in E as (a & c1 & E1 & E2).
    apply bind_inr in E1 as (a0 & c2 & E0 & E1).
    apply execute_inr in E0 as (d & n & i & Hs & Hc & Hd & Hl & _ & Hb).
    rewrite Hw in Hs. unfold insert_into_subscriptions in Hs. simpl in Hs.
    injection Hs as <- <- <-. simpl in Hl.
    unfold bind at 1, get_lastrowid in E1. rewrite Hl in E1.
    eapply insert_queries_inr in E1 as (Hw1 & Hc1 & Hb1 & Hr1); [|exact Hd].
    eapply IH in E2 as (Hw' & Hc' & Hb' & Hr'); [|exact Hw1].
    destruct (payload_rows_cons s q sub subs) as [-> ->].
    split; [|split; [|split]].
    + rewrite Hw'. unfold payload_query_count. simpl length.
      rewrite length_app. rewrite <- !app_assoc. simpl. f_equal; lia.
    + congruence.
    + pose proof (spent_trans _ _ _ _ _ Hb Hb1) as Hb2.
      pose proof (spent_trans _ _ _ _ _ Hb2 Hb') as Hb3.
      revert Hb3. unfold payload_query_count. simpl length.
      rewrite length_app.
      match goal with
      | |- spent ?k1 _ _ -> spent ?k2 _ _ => replace k2 with k1 by lia
      end.
      auto.
    + change (payload_in_range (sub :: subs))
        with (queries_in_range (default [] (d_queries sub))
              && payload_in_range subs).
      now rewrite Hr1, Hr'.
Qed.




(** *** [save_subscription_data] *)

Lemma save_transaction_fails data :
  fails_atomically (save_transaction json_dumps data).
Proof.
  unfold save_transaction.
  apply fails_bind; [apply keeps_execute|intros _].
  apply fails_bind; [apply keeps_execute|intros _].
  apply fails_bind.
  - apply keeps_for_each. intros sub.
    apply keeps_bind; [apply keeps_execute|intros _].
    apply keeps_bind; [intros c; reflexivity|intros sub_id].
    apply keeps_for_each. intros query. apply keeps_bound_execute.
  - intros _. apply fails_commit_then. discriminate.
Qed.

Lemma save_transaction_inr data c b c' :
  save_transaction json_dumps data c = (inr b, c') ->
  let payload := default [] (d_subscriptions data) in
  b = true /\
  is_Some (subscriptions_table (working c)) /\
  is_Some (queries_table (working c)) /\
  committed c' =
    mkDatabase
      (Some (payload_rows json_dumps (subscriptions_seq (working c))
               (queries_seq (working c)) payload).1)
      (Some (payload_rows json_dumps (subscriptions_seq (working c))
               (queries_seq (working c)) payload).2)
      (subscriptions_seq (working c) + Z.of_nat (length payload))
      (queries_seq (working c) + Z.of_nat (payload_query_count payload)) /\
  spent (save_statement_count payload) (budget c) (budget c') /\
  payload_in_range payload = true.
Proof.
  intros E payload. unfold save_transaction in E. fold payload in E.
  apply bind_inr in E as (u1 & c1 & E1 & E).
  apply bind_inr in E as (u2 & c2 & E2 & E).
  apply bind_inr in E as (u3 & c3 & E3 & E).
  apply bind_inr in E as (u4 & c4 & E4 & E).
  injection E as <- <-.
  apply execute_inr in E1 as (d1 & n1 & i1 & Hs1 & _ & Hd1 & _ & _ & Hb1).
  apply execute_inr in E2 as (d2 & n2 & i2 & Hs2 & _ & Hd2 & _ & _ & Hb2).
  unfold delete_from_queries in Hs1.
  destruct (working c) as [st qt ss qs] eqn:Ew. simpl in *.
  destruct qt as [qrows|]; [|discriminate]. injection Hs1 as <- <- <-.
  rewrite Hd1 in Hs2. unfold delete_from_subscriptions in Hs2. simpl in Hs2.
  destruct st as [srows|]; [|discriminate]. injection Hs2 as <- <- <-.
  eapply insert_subscriptions_inr in E3 as (Hw3 & _ & Hb3 & Hr3); [|exact Hd2].
  apply commit_inr in E4 as (Hc4 & _ & _ & Hb4).
  split; [reflexivity|]. split; [eauto|]. split; [eauto|].
  split; [|split; [|exact Hr3]].
  - rewrite Hc4, Hw3. reflexivity.
  - pose proof (spent_trans _ _ _ _ _ Hb1 Hb2) as H12.
    pose proof (spent_trans _ _ _ _ _ H12 Hb3) as H123.
    pose proof (spent_trans _ _ _ _ _ H123 Hb4) as H.
    revert H. unfold save_statement_count.
    match goal with
    | |- spent ?k1 _ _ -> spent ?k2 _ _ => replace k2 with k1 by lia
    end.
    auto.
Qed.


(** Either the call raises and the store is what it was, or it returns
    [True] and the store holds the rows of the payload. *)
Lemma save_subscription_data_cases :
  forall store faults data,
     let payload := default [] (d_subscriptions data) in
     match save_subscription_data json_dumps store faults data with
     | (Raised e, store') => store' = store
     | (Returned b, store') =>
         b = true /\
         exists d,
           store = Sqlite d /\
           store' =
             Sqlite
               (mkDatabase
                  (Some (payload_rows json_dumps (subscriptions_seq d)
                           (queries_seq d) payload).1)
                  (Some (payload_rows json_dumps (subscriptions_seq d)
                           (queries_seq d) payload).2)
                  (subscriptions_seq d + Z.of_nat (length payload))
                  (queries_seq d + Z.of_nat (payload_query_count payload))) /\
           payload_in_range payload = true /\
           enough (save_statement_count payload) faults
     end.
Proof.
  intros store faults data payload. unfold save_subscription_data.
  destruct store as [| |d]; [reflexivity|reflexivity|].
  destruct (save_transaction json_dumps data (connect d faults))
    as [[e|b] c'] eqn:E.
  - apply save_transaction_fails in E. unfold close, rollback. simpl.
    now rewrite E.
  - apply save_transaction_inr in E as (-> & _ & _ & Hc & Hsp & Hr).
    split; [reflexivity|]. exists d. split; [reflexivity|].
    unfold close. rewrite Hc. split; [reflexivity|]. split; [exact Hr|].
    simpl in Hsp. fold payload in Hsp.
    destruct faults as [n|]; simpl in *; tauto.
Qed.







End SaveLoops.

(** *** Acknowledgment updates *)

Lemma update_transaction_fails params stmt :
  fails_atomically (update_transaction params stmt).
Proof.
  unfold update_transaction.
  apply fails_bind; [apply keeps_bind_parameters|intros _].
  apply fails_bind; [apply keeps_execute|intros _].
  apply fails_commit_then. discriminate.
Qed.

Lemma update_transaction_inr params stmt c b c' :
  update_transaction params stmt c = (inr b, c') ->
  exists d n i,
    stmt (working c) = inr (d, n, i) /\ committed c' = d /\ b = (n >? 0) /\
    spent 2 (budget c) (budget c') /\ forallb int64 params = true.
Proof.
  intros E. unfold update_transaction in E.
  apply bind_inr in E as (u0 & c0 & E0 & E).
  apply bind_parameters_inr in E0 as [Hp ->].
  apply bind_inr in E as (u1 & c1 & E1 & E).
  apply bind_inr in E as (u2 & c2 & E2 & E).
  unfold bind, get_rowcount, ret in E. injection E as <- <-.
  apply execute_inr in E1 as (d & n & i & Hs & _ & Hd & _ & Hn & Hb1).
  apply commit_inr in E2 as (Hc & _ & Hr & Hb2).
  exists d, n, i. repeat split; try congruence.
  apply (spent_trans 1 1 _ _ _ Hb1 Hb2).
Qed.

Lemma update_transaction_enough params stmt c d n i :
  forallb int64 params = true ->
  enough 2 (budget c) -> stmt (working c) = inr (d, n, i) ->
  exists c',
    update_transaction params stmt c = (inr (n >? 0), c') /\ committed c' = d.
Proof.
  intros Hp Hb Hs. unfold update_transaction.
  unfold bind at 1. unfold bind_parameters. rewrite Hp.
  edestruct (execute_enough stmt c) as (c1 & E1);
    [eapply enough_le; [|exact Hb]; lia|exact Hs|].
  unfold bind at 1. rewrite E1.
  apply execute_inr in E1 as (d1 & n1 & i1 & Hs1 & _ & Hd1 & _ & Hn1 & Hb1).
  rewrite Hs in Hs1. injection Hs1 as <- <- <-.
  edestruct (commit_enough c1) as (c2 & E2);
    [apply (spent_enough 1 1 _ _ Hb1); exact Hb|].
  unfold bind at 1. rewrite E2.
  apply commit_inr in E2 as (Hc & _ & Hr & _).
  exists c2. split; [|congruence].
  unfold bind, get_rowcount, ret. now rewrite Hr, Hn1.
Qed.

(** An [UPDATE] whose [WHERE] clause selects no row changes nothing. *)
Lemma update_where_none selected acknowledged ack_time rows :
  ((update_where selected acknowledged ack_time rows).2 >? 0) = false ->
  (update_where selected acknowledged ack_time rows).1 = rows.
Proof.
  unfold update_where. simpl. intros Hn.
  assert (Hf : List.filter selected rows = []).
  { destruct (List.filter selected rows); [reflexivity|].
    rewrite Z.gtb_ltb in Hn. apply Z.ltb_ge in Hn. simpl length in Hn. lia. }
  clear Hn. induction rows as [|q rows IH]; [reflexivity|].
  simpl in *. destruct (selected q); [discriminate|]. f_equal. auto.
Qed.

Lemma update_where_some selected acknowledged ack_time rows :
  ((update_where selected acknowledged ack_time rows).2 >? 0) = true ->
  exists q, In q rows /\ selected q = true.
Proof.
  unfold update_where. simpl. intros Hn.
  destruct (List.filter selected rows) as [|q l] eqn:E; [discriminate|].
  exists q. apply filter_In. rewrite E. now left.
Qed.

Lemma set_queries_same d rows :
  queries_table d = Some rows -> set_queries rows (queries_seq d) d = d.
Proof. destruct d. simpl. now intros ->. Qed.

Lemma update_by_id_is_update acknowledged ack_time query_id :
  is_update (update_by_id acknowledged ack_time query_id) acknowledged ack_time.
Proof.
  intros d d' n i E. unfold update_by_id in E.
  destruct (queries_table d) as [rows|]; [|discriminate].
  exists rows, (where_id query_id). split; [reflexivity|].
  unfold update_where in *. simpl in *. now injection E as <- <- <-.
Qed.

Lemma update_by_text_is_update acknowledged ack_time text human sub_name :
  is_update (update_by_text acknowledged ack_time text human sub_name)
    acknowledged ack_time.
Proof.
  intros d d' n i E. unfold update_by_text in E.
  destruct (subscriptions_table d) as [subs|]; [|discriminate].
  destruct (queries_table d) as [rows|]; [|discriminate].
  exists rows, (where_text subs text human sub_name). split; [reflexivity|].
  unfold update_where in *. simpl in *. now injection E as <- <- <-.
Qed.

(** Once the file is open, an update returns: [False] with the store as it
    was, or [True] with the statement applied to at least one row. *)
Lemma run_update_cases store faults params stmt acknowledged ack_time :
  is_update stmt acknowledged ack_time -> store <> Unreadable ->
  run_update store faults params stmt = (Returned false, store) \/
  exists d d' n i,
    store = Sqlite d /\ stmt d = inr (d', n, i) /\ n > 0 /\
    forallb int64 params = true /\
    run_update store faults params stmt = (Returned true, Sqlite d').
Proof.
  intros Hu Hopen. unfold run_update.
  destruct store as [| |d]; [contradiction|now left|].
  destruct (update_transaction params stmt (connect d faults))
    as [[e|b] c'] eqn:E.
  - left. apply update_transaction_fails in E. unfold close, rollback. simpl.
    now rewrite E.
  - apply update_transaction_inr in E as (d' & n & i & Hs & Hc & -> & _ & Hp).
    simpl in Hs. unfold close. rewrite Hc.
    destruct (n >? 0) eqn:Hn.
    + right. exists d, d', n, i. repeat split; auto. lia.
    + left. do 2 f_equal.
      destruct (Hu _ _ _ _ Hs) as (rows & selected & Hq & -> & ->).
      rewrite update_where_none by exact Hn. now apply set_queries_same.
Qed.

(** A storage failure on the statement or on the commit gives [False] and
    the store as it was. *)
Lemma run_update_failure d n params stmt :
  (n < 2)%nat ->
  run_update (Sqlite d) (Some n) params stmt = (Returned false, Sqlite d).
Proof.
  intros Hn. unfold run_update.
  destruct (update_transaction params stmt (connect d (Some n)))
    as [[e|b] c'] eqn:E.
  - apply update_transaction_fails in E. unfold close, rollback. simpl.
    now rewrite E.
  - apply update_transaction_inr in E as (d' & k & i & _ & _ & _ & Hsp & _).
    simpl in Hsp. lia.
Qed.

Lemma run_update_success d faults params stmt d' n i :
  forallb int64 params = true ->
  enough 2 faults -> stmt d = inr (d', n, i) ->
  run_update (Sqlite d) faults params stmt = (Returned (n >? 0), Sqlite d').
Proof.
  intros Hp Hb Hs. unfold run_update.
  edestruct (update_transaction_enough params stmt (connect d faults))
    as (c' & E & Hc); [exact Hp|exact Hb|exact Hs|].
  rewrite E. unfold close. now rewrite Hc.
Qed.

(** An [int] parameter outside 64 bits: the [execute] raises
    [OverflowError], which the [except] turns into [False]; nothing is
    written. *)
Lemma run_update_overflow d faults params stmt :
  forallb int64 params = false ->
  run_update (Sqlite d) faults params stmt = (Returned false, Sqlite d).
Proof.
  intros Hp. unfold run_update, update_transaction.
  unfold bind at 1. unfold bind_parameters. rewrite Hp. reflexivity.
Qed.

Lemma forallb_int64_1 a : forallb int64 [a] = int64 a.
Proof. cbn [forallb]. apply andb_true_r. Qed.

Lemma forallb_int64_2 a b : forallb int64 [a; b] = int64 a && int64 b.
Proof. cbn [forallb]. now rewrite andb_true_r. Qed.

(** C10 (as amended). [update_query_acknowledgment] and
    [update_queries_by_text] raise only when the database file cannot be
    opened, which happens before their [try] block.  Once it is open they
    return: [False] with the store exactly as it was (after a storage
    error, which is rolled back, or when no row matched), or [True] with
    the new pair written to the matching rows, of which there is at least
    one.  A storage failure on the statement or on the commit gives
    [False], and so does an [int] argument outside 64 bits, which
    [sqlite3] refuses to bind ([OverflowError], caught): nothing is
    written.  Without a failure and with the arguments in range the
    result is [True] exactly when the [WHERE] clause selects a row. *)
Theorem update_acknowledgment_outcome :
  (forall store faults query_id acknowledged ack_time,
     let r := update_query_acknowledgment store faults query_id
                acknowledged ack_time in
     match store with
     | Unreadable => r = (Raised OperationalError, store)
     | NotADatabase => r = (Returned false, store)
     | Sqlite d =>
         r = (Returned false, store) \/
         exists rows,
           queries_table d = Some rows /\
           (exists q, In q rows /\ where_id query_id q = true) /\
           r = (Returned true,
                Sqlite (set_queries
                          (update_where (where_id query_id)
                             acknowledged ack_time rows).1
                          (queries_seq d) d))
     end) /\
  (forall store faults text human sub_name acknowledged ack_time,
     let r := update_queries_by_text store faults text human sub_name
                acknowledged ack_time in
     match store with
     | Unreadable => r = (Raised OperationalError, store)
     | NotADatabase => r = (Returned false, store)
     | Sqlite d =>
         r = (Returned false, store) \/
         exists subs rows,
           subscriptions_table d = Some subs /\
           queries_table d = Some rows /\
           (exists q, In q rows /\
                      where_text subs text human sub_name q = true) /\
           r = (Returned true,
                Sqlite (set_queries
                          (update_where (where_text subs text human sub_name)
                             acknowledged ack_time rows).1
                          (queries_seq d) d))
     end) /\
  (forall d query_id text human sub_name acknowledged ack_time,
     update_query_acknowledgment (Sqlite d) (Some 0%nat) query_id
       acknowledged ack_time = (Returned false, Sqlite d) /\
     update_query_acknowledgment (Sqlite d) (Some 1%nat) query_id
       acknowledged ack_time = (Returned false, Sqlite d) /\
     update_queries_by_text (Sqlite d) (Some 0%nat) text human sub_name
       acknowledged ack_time = (Returned false, Sqlite d) /\
     update_queries_by_text (Sqlite d) (Some 1%nat) text human sub_name
       acknowledged ack_time = (Returned false, Sqlite d)) /\
  (forall subs rows s q query_id text human sub_name acknowledged ack_time,
     let d := mkDatabase (Some subs) (Some rows) s q in
     update_query_acknowledgment (Sqlite d) None query_id
       acknowledged ack_time =
       (if int64 ack_time && int64 query_id
        then (Returned (existsb (where_id query_id) rows),
              Sqlite (set_queries
                        (update_where (where_id query_id)
                           acknowledged ack_time rows).1 q d))
        else (Returned false, Sqlite d)) /\
     update_queries_by_text (Sqlite d) None text human sub_name
       acknowledged ack_time =
       (if int64 ack_time
        then (Returned (existsb (where_text subs text human sub_name) rows),
              Sqlite (set_queries
                        (update_where (where_text subs text human sub_name)
                           acknowledged ack_time rows).1 q d))
        else (Returned false, Sqlite d))) /\
  (forall d faults query_id text human sub_name acknowledged ack_time,
     (int64 ack_time && int64 query_id = false ->
      update_query_acknowledgment (Sqlite d) faults query_id
        acknowledged ack_time = (Returned false, Sqlite d)) /\
     (int64 ack_time = false ->
      update_queries_by_text (Sqlite d) faults text human sub_name
        acknowledged ack_time = (Returned false, Sqlite d))).
Proof.
  assert (Hcount : forall (sel : query_row -> bool) rows,
            (Z.of_nat (length (List.filter sel rows)) >? 0) = existsb sel rows).
  { intros sel rows. induction rows as [|x rows IH]; [reflexivity|].
    simpl. destruct (sel x); [|exact IH].
    simpl length. rewrite Z.gtb_ltb. apply Z.ltb_lt. lia. }
  split; [|split; [|split; [|split]]].
  - intros store faults query_id acknowledged ack_time r. subst r.
    unfold update_query_acknowledgment.
    destruct store as [| |d]; [reflexivity|reflexivity|].
    destruct (run_update_cases (Sqlite d) faults [ack_time; query_id]
                (update_by_id acknowledged ack_time query_id)
                acknowledged ack_time (update_by_id_is_update _ _ _))
      as [E|(d0 & d' & n & i & [= <-] & Hs & Hn & _ & E)];
      [discriminate|now left|right].
    unfold update_by_id in Hs.
    destruct (queries_table d) as [rows|]; [|discriminate].
    unfold update_where in Hs. injection Hs as <- <- <-.
    exists rows. split; [reflexivity|]. split; [|exact E].
    apply (update_where_some _ acknowledged ack_time).
    unfold update_where. simpl. rewrite Z.gtb_ltb. apply Z.ltb_lt. lia.
  - intros store faults text human sub_name acknowledged ack_time r. subst r.
    unfold update_queries_by_text.
    destruct store as [| |d]; [reflexivity|reflexivity|].
    destruct (run_update_cases (Sqlite d) faults [ack_time]
                (update_by_text acknowledged ack_time text human sub_name)
                acknowledged ack_time (update_by_text_is_update _ _ _ _ _))
      as [E|(d0 & d' & n & i & [= <-] & Hs & Hn & _ & E)];
      [discriminate|now left|right].
    unfold update_by_text in Hs.
    destruct (subscriptions_table d) as [subs|]; [|discriminate].
    destruct (queries_table d) as [rows|]; [|discriminate].
    unfold update_where in Hs. injection Hs as <- <- <-.
    exists subs, rows. split; [reflexivity|]. split; [reflexivity|].
    split; [|exact E].
    apply (update_where_some _ acknowledged ack_time).
    unfold update_where. simpl. rewrite Z.gtb_ltb. apply Z.ltb_lt. lia.
  - intros. unfold update_query_acknowledgment, update_queries_by_text.
    repeat split; apply run_update_failure; lia.
  - intros subs rows s q query_id text human sub_name acknowledged ack_time d.
    unfold update_query_acknowledgment, update_queries_by_text.
    split.
    + destruct (int64 ack_time && int64 query_id) eqn:Hp.
      * erewrite run_update_success; [| |exact I|reflexivity].
        -- simpl. now rewrite Hcount.
        -- now rewrite forallb_int64_2.
      * apply run_update_overflow. now rewrite forallb_int64_2.
    + destruct (int64 ack_time) eqn:Hp.
      * erewrite run_update_success; [| |exact I|reflexivity].
        -- simpl. now rewrite Hcount.
        -- now rewrite forallb_int64_1.
      * apply run_update_overflow. now rewrite forallb_int64_1.
  - intros d faults query_id text human sub_name acknowledged ack_time.
    unfold update_query_acknowledgment, update_queries_by_text.
    split; intros Hp; apply run_update_overflow;
      [now rewrite forallb_int64_2|now rewrite forallb_int64_1].
Qed.

(** C10 as stated fails: when the database file cannot be opened,
    [sqlite3.connect] raises outside the [try] block and the exception
    leaves [update_query_acknowledgment]. *)
Lemma update_acknowledgment_can_raise :
  ~ (forall store faults query_id acknowledged ack_time,
       exists b,
         (update_query_acknowledgment store faults query_id
            acknowledged ack_time).1 = Returned b).
Proof.
  intros H. destruct (H Unreadable None 1 true 2000) as [b Hb]. discriminate.
Qed.

(** *** The acknowledgment pair in the store *)

Lemma query_rows_consistent json_dumps seq sub_id qs :
  forallb ack_consistent (query_rows json_dumps seq sub_id qs) = true.
Proof.
  revert seq. induction qs as [|query qs IH]; intros seq; [reflexivity|].
  simpl. apply IH.
Qed.

Lemma payload_rows_consistent json_dumps s q subs :
  forallb ack_consistent (payload_rows json_dumps s q subs).2 = true.
Proof.
  revert s q. induction subs as [|sub subs IH]; intros s q; [reflexivity|].
  destruct (payload_rows_cons json_dumps s q sub subs) as [_ ->].
  rewrite forallb_app, query_rows_consistent, IH. reflexivity.
Qed.

Lemma payload_rows_unacknowledged json_dumps s q subs :
  Forall (fun r => col_acknowledged r = false /\ col_acknowledged_time r = 0)
    (payload_rows json_dumps s q subs).2.
Proof.
  revert s q. induction subs as [|sub subs IH]; intros s q; [constructor|].
  destruct (payload_rows_cons json_dumps s q sub subs) as [_ ->].
  apply Forall_app. split; [|apply IH].
  generalize q. induction (default [] (d_queries sub)) as [|x l IHl];
    intros q0; simpl; constructor; auto.
Qed.

Lemma save_subscription_data_consistent json_dumps store faults data :
  store_ack_consistent store = true ->
  store_ack_consistent (save_subscription_data json_dumps store faults data).2
  = true.
Proof.
  intros Hc.
  pose proof (save_subscription_data_cases json_dumps store faults data) as H.
  simpl in H.
  destruct (save_subscription_data json_dumps store faults data) as [[b|e] store'].
  - destruct H as (_ & d & _ & -> & _). simpl. apply payload_rows_consistent.
  - simpl. now rewrite H.
Qed.

Lemma update_where_consistent selected acknowledged ack_time rows :
  acknowledged = true \/ ack_time <= 0 ->
  forallb ack_consistent rows = true ->
  forallb ack_consistent
    (update_where selected acknowledged ack_time rows).1 = true.
Proof.
  intros Hargs. unfold update_where. simpl.
  induction rows as [|x rows IH]; [reflexivity|]. simpl.
  intros H. apply andb_true_iff in H as [Hx Hr].
  apply andb_true_iff. split; [|auto].
  destruct (selected x); [|exact Hx].
  unfold ack_consistent, set_acknowledgment. simpl.
  destruct Hargs as [->|Ht].
  - now rewrite andb_false_r.
  - destruct (Z.gtb_spec ack_time 0); [lia|reflexivity].
Qed.

Lemma run_update_consistent store faults params stmt acknowledged ack_time :
  is_update stmt acknowledged ack_time ->
  acknowledged = true \/ ack_time <= 0 ->
  store_ack_consistent store = true ->
  store_ack_consistent (run_update store faults params stmt).2 = true.
Proof.
  intros Hu Hargs Hc.
  destruct store as [| |d] eqn:Es; [reflexivity|reflexivity|].
  destruct (run_update_cases (Sqlite d) faults params stmt acknowledged
              ack_time Hu)
    as [E|(d0 & d' & n & i & [= <-] & Hs & _ & _ & E)];
    [discriminate| |]; rewrite E; simpl; [exact Hc|].
  destruct (Hu _ _ _ _ Hs) as (rows & selected & Hq & _ & ->).
  simpl in *. rewrite Hq in Hc.
  now apply update_where_consistent.
Qed.

(** C3 (as amended). Ingestion stores every query row unacknowledged with
    acknowledgment time 0, so a store it has written has no row with
    acknowledged_time > 0 and acknowledged = false.  The two updates write
    the pair they are given: they keep a consistent store consistent when
    they are called with acknowledged = true or ack_time <= 0. *)
Theorem writes_keep_acknowledgment_consistent :
  (forall json_dumps store faults data,
     store_ack_consistent store = true ->
     store_ack_consistent
       (save_subscription_data json_dumps store faults data).2 = true) /\
  (forall json_dumps store faults data rows d,
     save_subscription_data json_dumps store faults data
       = (Returned true, Sqlite d) ->
     queries_table d = Some rows ->
     Forall (fun q => col_acknowledged q = false /\ col_acknowledged_time q = 0)
       rows) /\
  (forall store faults query_id acknowledged ack_time,
     store_ack_consistent store = true ->
     acknowledged = true \/ ack_time <= 0 ->
     store_ack_consistent
       (update_query_acknowledgment store faults query_id
          acknowledged ack_time).2 = true) /\
  (forall store faults text human sub_name acknowledged ack_time,
     store_ack_consistent store = true ->
     acknowledged = true \/ ack_time <= 0 ->
     store_ack_consistent
       (update_queries_by_text store faults text human sub_name
          acknowledged ack_time).2 = true).
Proof.
  split; [|split; [|split]].
  - intros. now apply save_subscription_data_consistent.
  - intros json_dumps store faults data rows d E Hq.
    pose proof (save_subscription_data_cases json_dumps store faults data) as H.
    simpl in H. rewrite E in H. destruct H as (_ & d0 & _ & [= ->] & _).
    simpl in Hq. injection Hq as <-.
    apply payload_rows_unacknowledged.
  - intros store faults query_id ack ack_time Hc Hargs.
    apply run_update_consistent with ack ack_time;
      auto using update_by_id_is_update.
  - intros store faults text human sub_name ack ack_time Hc Hargs.
    apply run_update_consistent with ack ack_time;
      auto using update_by_text_is_update.
Qed.

Lemma writes_keep_acknowledgment_consistent_witness :
  store_ack_consistent sample_store = true /\
  store_ack_consistent
    (update_query_acknowledgment sample_store None 1 true 2000).2 = true /\
  store_ack_consistent
    (update_queries_by_text sample_store None "cats" "Cats" "art" false 0).2
  = true.
Proof.
  destruct writes_keep_acknowledgment_consistent as (_ & _ & Hid & Htext).
  split; [reflexivity|]. split.
  - apply (Hid sample_store None 1 true 2000); [reflexivity|left; reflexivity].
  - apply (Htext sample_store None "cats" "Cats" "art" false 0);
      [reflexivity|right; lia].
Defined.

(** C3 as stated fails: [update_query_acknowledgment] called with
    acknowledged = false and ack_time = 100 stores that pair as it is. *)
Lemma update_stores_time_without_flag :
  store_ack_consistent sample_store = true /\
  update_query_acknowledgment sample_store None 1 false 100 =
    (Returned true,
     Sqlite (mkDatabase
               (Some [mkSubscriptionRow 1 "art" "gug"])
               (Some [sample_row_time_without_flag]) 1 1)) /\
  col_acknowledged sample_row_time_without_flag = false /\
  col_acknowledged_time sample_row_time_without_flag = 100 /\
  store_ack_consistent
    (update_query_acknowledgment sample_store None 1 false 100).2 = false.
Proof. repeat split. Qed.

(** *** [load_subscription_data] *)

Section Load.
Variable json_loads : string -> option (list json).

Lemma fetchall_inr {R} (select : database -> exn + list R) c rows c' :
  fetchall select c = (inr rows, c') ->
  select (working c) = inr rows /\ committed c' = committed c.
Proof.
  intros E. apply bind_inr in E as (u & c1 & E1 & E2).
  apply engine_inr in E1 as (Hc & Hw & _).
  rewrite Hw in E2. destruct (select (working c)); [discriminate|].
  injection E2 as <- <-. auto.
Qed.

Lemma keeps_fetchall {R} (select : database -> exn + list R) :
  keeps_committed (fetchall select).
Proof.
  apply keeps_bind; [apply keeps_engine|]. intros _ c.
  destruct (select (working c)); reflexivity.
Qed.

Lemma keeps_load_rows : keeps_committed (load_rows json_loads).
Proof.
  apply keeps_bind; [apply keeps_fetchall|]. intros rows c.
  destruct (group_rows json_loads rows []); reflexivity.
Qed.

(** Reading never writes. *)
Lemma load_leaves_store store faults :
  (load_subscription_data json_loads store faults).2 = store.
Proof.
  unfold load_subscription_data.
  destruct store as [| |d]; [reflexivity|reflexivity|].
  pose proof (keeps_load_rows (connect d faults)) as H.
  destruct (load_rows json_loads (connect d faults)) as [[e|data] c];
    simpl in *; unfold close; now rewrite H.
Qed.

Lemma load_rows_enough d faults :
  enough 1 faults ->
  (load_rows json_loads (connect d faults)).1 =
    match select_subscriptions_with_queries d with
    | inl e => inl e
    | inr rows =>
        match group_rows json_loads rows [] with
        | inl e => inl e
        | inr groups =>
            inr (mkSubscriptionData (map snd groups) 80 "From Database")
        end
    end.
Proof.
  intros Hb. unfold load_rows, fetchall, bind at 1, bind at 1.
  destruct (engine_enough (connect d faults) Hb) as (c1 & E). rewrite E.
  apply engine_inr in E as (_ & -> & _). simpl.
  destruct (select_subscriptions_with_queries d) as [e|rows]; [reflexivity|].
  destruct (group_rows json_loads rows []); reflexivity.
Qed.

(** C8 (as amended). [load_subscription_data] raises only when the
    database file cannot be opened, which happens before its [try] block.
    Once it is open the call returns and leaves the store as it is: on
    every failure of the read (a file that is not a database, a storage
    error, a missing relation, stored text [json.loads] rejects) the result
    has no subscriptions and carries 'Database Error' in [hydrus_version];
    otherwise it is the grouped rows. *)
Theorem load_subscription_data_outcome :
  (forall store faults,
     (load_subscription_data json_loads store faults).2 = store /\
     match store with
     | Unreadable =>
         (load_subscription_data json_loads store faults).1
         = Raised OperationalError
     | NotADatabase =>
         (load_subscription_data json_loads store faults).1
         = Returned database_error
     | Sqlite d =>
         (load_subscription_data json_loads store faults).1 =
         Returned
           (if bool_decide (faults = Some 0%nat) then database_error
            else
              match select_subscriptions_with_queries d with
              | inl _ => database_error
              | inr rows =>
                  match group_rows json_loads rows [] with
                  | inl _ => database_error
                  | inr groups =>
                      mkSubscriptionData (map snd groups) 80 "From Database"
                  end
              end)
     end) /\
  subscriptions database_error = [] /\
  hydrus_version database_error = "Database Error".
Proof.
  split; [|split; reflexivity].
  intros store faults. split; [apply load_leaves_store|].
  unfold load_subscription_data.
  destruct store as [| |d]; [reflexivity|reflexivity|].
  case_bool_decide as Hf.
  - subst faults. reflexivity.
  - assert (Hb : enough 1 faults).
    { destruct faults as [[|n]|]; simpl; [congruence|lia|exact I]. }
    pose proof (load_rows_enough d faults Hb) as H.
    destruct (load_rows json_loads (connect d faults)) as [[e|data] c].
    + simpl in *.
      destruct (select_subscriptions_with_queries d) as [e'|rows];
        [reflexivity|].
      destruct (group_rows json_loads rows []); [reflexivity|discriminate].
    + simpl in *.
      destruct (select_subscriptions_with_queries d) as [e'|rows];
        [discriminate|].
      destruct (group_rows json_loads rows []); [discriminate|].
      now injection H as ->.
Qed.

End Load.

(** C8 as stated fails: when the database file cannot be opened,
    [sqlite3.connect] raises outside the [try] block and the exception
    leaves [load_subscription_data]. *)
Lemma load_subscription_data_can_raise :
  ~ (forall json_loads store faults,
       exists data,
         (load_subscription_data json_loads store faults).1 = Returned data).
Proof.
  intros H. destruct (H (fun _ => None) Unreadable None) as [data Hd].
  discriminate.
Qed.

(** The ingestion of [sample_payload] issues six statements: with the
    storage engine failing on the second query insert the call raises and
    the store is untouched; without a failure both relations are
    replaced. *)
Example save_fails_on_second_query_insert :
  save_subscription_data (fun _ => "[]") sample_store (Some 4%nat)
    sample_payload = (Raised OperationalError, sample_store).
Proof. reflexivity. Qed.

Example save_replaces_all_rows :
  exists d,
    save_subscription_data (fun _ => "[]") sample_store None sample_payload
      = (Returned true, Sqlite d) /\
    subscriptions_table d = Some [mkSubscriptionRow 2 "new" ""] /\
    (map col_query_text <$> queries_table d) = Some ["q1"; "q2"] /\
    (map col_subscription_id <$> queries_table d) = Some [2; 2].
Proof. eexists. repeat split. Qed.

(** *** Restore *)

Lemma append_eq_self (s t : string) : s +:+ t = s -> t = "".
Proof.
  induction s as [|a s IH]; simpl; [auto|].
  intros [= H]. auto.
Qed.

Lemma restore_backup_path_ne db_path stamp :
  restore_backup_path db_path stamp <> db_path.
Proof.
  unfold restore_backup_path. intros H.
  apply append_eq_self in H. discriminate.
Qed.

Lemma copy2_inr fault src dst (fs fs' : gmap string file) :
  copy2 fault src dst fs = inr fs' ->
  exists f,
    fs !! src = Some f /\ src <> dst /\ fs' = <[dst := f]> fs /\
    fault = None.
Proof.
  unfold copy2. destruct (fs !! src) as [f|]; [|discriminate].
  case_bool_decide as Hsd; [discriminate|].
  intros E. exists f. split; [reflexivity|]. split; [exact Hsd|].
  destruct f; [discriminate| |];
    destruct (fs !! dst) as [[| |]|]; try discriminate;
    destruct fault; try discriminate;
    injection E as <-; auto.
Qed.

(** A copy that raises leaves the file system as it was, unless the
    injected failure struck, which leaves [partial] at the destination. *)
Lemma copy2_inl fault src dst (fs fs' : gmap string file) e :
  copy2 fault src dst fs = inl (e, fs') ->
  fs' = fs \/
  exists partial,
    fault = Some partial /\ src <> dst /\ fs' = <[dst := partial]> fs.
Proof.
  unfold copy2. destruct (fs !! src) as [f|]; [|intros [= _ <-]; now left].
  case_bool_decide as Hsd; [intros [= _ <-]; now left|].
  destruct f; [intros [= _ <-]; now left| |];
    destruct (fs !! dst) as [[| |]|];
    try (intros [= _ <-]; now left);
    destruct fault as [partial|]; try discriminate;
    intros [= _ <-]; right; eauto.
Qed.

Lemma copy2_ok src dst (fs : gmap string file) f :
  fs !! src = Some f -> f <> Unreadable -> src <> dst ->
  fs !! dst <> Some Unreadable ->
  copy2 None src dst fs = inr (<[dst := f]> fs).
Proof.
  intros Hf Hr Hsd Hd. unfold copy2. rewrite Hf.
  rewrite bool_decide_eq_false_2 by exact Hsd.
  destruct f; [contradiction| |];
    destruct (fs !! dst) as [[| |]|]; try reflexivity; contradiction.
Qed.

(** A snapshot is compatible exactly when it is a database with both
    relations. *)
Lemma compatible_iff f :
  compatible (get_backup_info f) = true <->
  exists d subs qs,
    f = Sqlite d /\ subscriptions_table d = Some subs /\
    queries_table d = Some qs.
Proof.
  split.
  - destruct f as [| |d]; simpl; try discriminate.
    destruct (subscriptions_table d) as [subs|] eqn:Es; [|discriminate].
    destruct (queries_table d) as [qs|] eqn:Eq; [|discriminate].
    intros _. exists d, subs, qs. auto.
  - intros (d & subs & qs & -> & Hs & Hq). simpl. now rewrite Hs, Hq.
Qed.

(** C9. [restore_from_backup] raises when the target is missing
    ([FileNotFoundError]) or is not a database with both relations
    ([ValueError]); in both cases it copies nothing and the file system,
    the live store and its row counts included, is unchanged.  Whenever it
    raises, the live store is unchanged, unless the second copy was
    struck while writing: then the safety copy has been made and holds
    what the live store held.  When it returns, it returns [True] after
    exactly two copies, in this order: the live store to the safety path,
    then the backup path to the live store; the safety path then holds
    what the live store held.  And it does return, with the backup in the
    place of the live store, when the target is a database with both
    relations other than the live store itself, the live store can be
    read, the safety path can be written and no copy fails. *)
Theorem restore_from_backup_safe :
  forall db_path stamp backup_path fault1 fault2 (fs : gmap string file),
    let safety := restore_backup_path db_path stamp in
    let result :=
      restore_from_backup db_path stamp backup_path fault1 fault2 fs in
    (fs !! backup_path = None ->
     result = (Raised FileNotFoundError, fs, [])) /\
    (forall f,
       fs !! backup_path = Some f ->
       compatible (get_backup_info f) = false ->
       result = (Raised ValueError, fs, [])) /\
    (forall f,
       compatible (get_backup_info f) = true <->
       exists d subs qs,
         f = Sqlite d /\ subscriptions_table d = Some subs /\
         queries_table d = Some qs) /\
    (forall e,
       result.1.1 = Raised e ->
       (result.1.2 !! db_path = fs !! db_path /\
        row_counts db_path result.1.2 = row_counts db_path fs) \/
       exists live partial,
         fault2 = Some partial /\
         fs !! db_path = Some live /\
         result.2 = [Copied db_path safety] /\
         result.1.2 !! safety = Some live /\
         result.1.2 !! db_path = Some partial) /\
    (forall b,
       result.1.1 = Returned b ->
       b = true /\
       result.2 = [Copied db_path safety; Copied backup_path db_path] /\
       exists live backup_file,
         fs !! db_path = Some live /\
         fs !! backup_path = Some backup_file /\
         compatible (get_backup_info backup_file) = true /\
         result.1.2 !! safety = Some live /\
         result.1.2 !! db_path =
           Some (if bool_decide (backup_path = safety) then live
                 else backup_file) /\
         forall path,
           path <> db_path -> path <> safety ->
           result.1.2 !! path = fs !! path) /\
    (forall live backup_file,
       fs !! db_path = Some live -> live <> Unreadable ->
       fs !! safety <> Some Unreadable ->
       fs !! backup_path = Some backup_file ->
       compatible (get_backup_info backup_file) = true ->
       backup_path <> db_path ->
       fault1 = None -> fault2 = None ->
       result.1.1 = Returned true /\
       result.1.2 !! db_path =
         Some (if bool_decide (backup_path = safety) then live
               else backup_file)).
Proof.
  intros db_path stamp backup_path fault1 fault2 fs safety result.
  pose proof (restore_backup_path_ne db_path stamp) as Hne. fold safety in Hne.
  subst result. unfold restore_from_backup. fold safety.
  split; [now intros ->|]. split; [now intros f -> ->|].
  split; [apply compatible_iff|].
  split; [|split].
  - destruct (fs !! backup_path) as [bf|] eqn:Eb; [|intros e _; now left].
    destruct (compatible (get_backup_info bf)) eqn:Ec; simpl;
      [|intros e _; now left].
    destruct (copy2 fault1 db_path safety fs) as [[e1 fs1]|fs1] eqn:E1; simpl.
    { intros e _. left.
      assert (H : fs1 !! db_path = fs !! db_path).
      { apply copy2_inl in E1 as [->|(partial & _ & _ & ->)]; [reflexivity|].
        apply lookup_insert_ne. congruence. }
      split; [exact H|]. unfold row_counts. now rewrite H. }
    apply copy2_inr in E1 as (live & Hlive & _ & -> & _).
    destruct (copy2 fault2 backup_path db_path (<[safety:=live]> fs))
      as [[e2 fs2]|fs2] eqn:E2; simpl; [|discriminate].
    intros e _.
    apply copy2_inl in E2 as [->|(partial & -> & Hbd & ->)].
    + left.
      assert (H : <[safety:=live]> fs !! db_path = fs !! db_path)
        by (apply lookup_insert_ne; congruence).
      split; [exact H|]. unfold row_counts. now rewrite H.
    + right. exists live, partial. split; [reflexivity|].
      split; [exact Hlive|]. split; [reflexivity|]. split.
      * rewrite lookup_insert_ne by congruence. apply lookup_insert_eq.
      * apply lookup_insert_eq.
  - destruct (fs !! backup_path) as [bf|] eqn:Eb; [|discriminate].
    destruct (compatible (get_backup_info bf)) eqn:Ec; simpl; [|discriminate].
    destruct (copy2 fault1 db_path safety fs) as [[e1 fs1]|fs1] eqn:E1; simpl;
      [discriminate|].
    apply copy2_inr in E1 as (live & Hlive & _ & -> & _).
    destruct (copy2 fault2 backup_path db_path (<[safety:=live]> fs))
      as [[e2 fs2]|fs2] eqn:E2; simpl; [discriminate|].
    intros b [= <-].
    apply copy2_inr in E2 as (f2 & Hf2 & Hbd & -> & _).
    split; [reflexivity|]. split; [reflexivity|].
    exists live, bf. split; [exact Hlive|]. split; [reflexivity|].
    split; [exact Ec|]. split; [|split].
    + rewrite lookup_insert_ne by congruence. apply lookup_insert_eq.
    + rewrite lookup_insert_eq. f_equal.
      case_bool_decide as Hs.
      * subst backup_path. rewrite lookup_insert_eq in Hf2. congruence.
      * rewrite lookup_insert_ne in Hf2 by congruence. congruence.
    + intros path H1 H2. now rewrite !lookup_insert_ne by congruence.
  - intros live bf Hlive Hread Hsafe Hb Hc Hbd -> ->.
    rewrite Hb, Hc. simpl.
    rewrite (copy2_ok db_path safety fs live) by (auto; congruence).
    assert (Hsrc : <[safety:=live]> fs !! backup_path =
                   Some (if bool_decide (backup_path = safety) then live
                         else bf)).
    { case_bool_decide as Hs.
      - subst backup_path. apply lookup_insert_eq.
      - rewrite lookup_insert_ne by congruence. exact Hb. }
    rewrite (copy2_ok backup_path db_path _ _ Hsrc).
    + simpl. split; [reflexivity|]. apply lookup_insert_eq.
    + apply compatible_iff in Hc as (d & _ & _ & -> & _).
      case_bool_decide; [exact Hread|discriminate].
    + exact Hbd.
    + rewrite lookup_insert_ne by congruence. rewrite Hlive. congruence.
Qed.

Lemma restore_from_backup_safe_witness :
  restore_from_backup "live.db" "20240101_000000" "missing.db" None None
    sample_fs = (Raised FileNotFoundError, sample_fs, []) /\
  restore_from_backup "live.db" "20240101_000000" "notes.txt" None None
    sample_fs = (Raised ValueError, sample_fs, []) /\
  (restore_from_backup "live.db" "20240101_000000" "backup.db" None None
     sample_fs).1.1 = Returned true /\
  (restore_from_backup "live.db" "20240101_000000" "backup.db" None None
     sample_fs).1.2 !! "live.db" = Some sample_backup /\
  (restore_from_backup "live.db" "20240101_000000" "backup.db" None None
     sample_fs).1.2
    !! "live.db.restore_backup_20240101_000000" = Some sample_store /\
  (restore_from_backup "backup.db" "20240101_000000" "live.db" None None
     sample_fs).1.2 !! "backup.db" = Some sample_store.
Proof.
  split; [|split; [|split; [|split; [|split]]]].
  - apply (restore_from_backup_safe "live.db" "20240101_000000" "missing.db"
             None None sample_fs). reflexivity.
  - apply (proj1 (proj2 (restore_from_backup_safe "live.db" "20240101_000000"
                           "notes.txt" None None sample_fs)) NotADatabase);
      reflexivity.
  - destruct (restore_from_backup_safe "live.db" "20240101_000000"
                "backup.db" None None sample_fs) as (_ & _ & _ & _ & _ & H).
    apply (H sample_store sample_backup);
      first [reflexivity | discriminate
            | intros Hx; vm_compute in Hx; discriminate].
  - destruct (restore_from_backup_safe "live.db" "20240101_000000"
                "backup.db" None None sample_fs) as (_ & _ & _ & _ & _ & H).
    destruct (H sample_store sample_backup) as [_ Hd];
      [reflexivity|discriminate|intros Hx; vm_compute in Hx; discriminate
      |reflexivity|reflexivity|discriminate|reflexivity|reflexivity
      |exact Hd].
  - destruct (restore_from_backup_safe "live.db" "20240101_000000"
                "backup.db" None None sample_fs) as (_ & _ & _ & _ & H & _).
    destruct (H true) as (_ & _ & live & bf & Hl & _ & _ & Hs & _);
      [reflexivity|].
    vm_compute in Hl. injection Hl as <-. exact Hs.
  - destruct (restore_from_backup_safe "backup.db" "20240101_000000"
                "live.db" None None sample_fs) as (_ & _ & _ & _ & _ & H).
    destruct (H sample_backup sample_store) as [_ Hd];
      [reflexivity|discriminate|intros Hx; vm_compute in Hx; discriminate
      |reflexivity|reflexivity|discriminate|reflexivity|reflexivity
      |exact Hd].
Defined.

(** A write failure in the second copy: the call raises, the live store
    holds what the failed copy left, and the safety copy holds the store
    as it was. *)
Example restore_struck_while_writing :
  let result :=
    restore_from_backup "live.db" "20240101_000000" "backup.db"
      None (Some NotADatabase) sample_fs in
  result.1.1 = Raised OSError /\
  result.1.2 !! "live.db" = Some NotADatabase /\
  result.1.2 !! "live.db.restore_backup_20240101_000000" = Some sample_store.
Proof. vm_compute. repeat split. Qed.

End PersistenceFacts.

(** ** Acknowledgment expiry *)

Module ExpiryFacts.
Import Coloring ColoringSpec Persistence Samples.

Lemma is_expired_acknowledgment_iff (q : Query) (now : Z) :
  is_expired_acknowledgment q now = true <-> acknowledgment_expired q now.
Proof.
  unfold is_expired_acknowledgment, acknowledgment_expired.
  destruct (acknowledged q); simpl.
  - destruct (Z.eqb_spec (acknowledged_time q) 0) as [E|E].
    + split; [discriminate|]. intros (_ & H & _). contradiction.
    + rewrite Z.leb_le. tauto.
  - split; [discriminate|]. intros (H & _). discriminate.
Qed.

(** Every colour but the acknowledged one has a red channel other than
    200. *)
Lemma fall_through_red (q : Query) now mn mx c :
  get_status_color q (acknowledged_time q) now <> Some acknowledged_color ->
  create_query_item q now mn mx = Returned c -> red c <> 200.
Proof.
  unfold create_query_item, get_status_color, acknowledged_color.
  destruct (acknowledged q && _); [congruence|].
  destruct (dead q); [intros _ [= <-]; simpl; lia|].
  destruct (paused q); [intros _ [= <-]; simpl; lia|].
  intros _.
  destruct (Z.eqb_spec (last_file_time q) 0) as [E0|N0].
  { unfold get_color_for_age. rewrite E0. intros [= <-]. simpl. lia. }
  destruct (Z.eqb_spec mn mx) as [->|Nm].
  { rewrite ColoringFacts.get_color_for_age_one_point by assumption.
    intros [= <-]. simpl. lia. }
  intros E.
  destruct (GradientBranch.gradient_returned _ _ _ _ N0 Nm E) as (-> & _).
  simpl. lia.
Qed.

Lemma fall_through_color (q : Query) now mn mx :
  get_status_color q (acknowledged_time q) now <> Some acknowledged_color ->
  create_query_item q now mn mx <> Returned acknowledged_color.
Proof.
  intros Hs Hc. now apply (fall_through_red q now mn mx _ Hs Hc).
Qed.

Lemma query_data_acknowledgment json_loads row q :
  query_data json_loads row = Some q ->
  acknowledged q = col_acknowledged row /\
  acknowledged_time q = col_acknowledged_time row.
Proof.
  unfold query_data.
  destruct (if String.eqb (col_file_velocity_data row) "" then Some []
            else json_loads (col_file_velocity_data row)); simpl;
    [|discriminate].
  intros [= <-]. split; reflexivity.
Qed.

(** C7 (as amended). A query's acknowledgment is expired exactly when it
    is acknowledged with an acknowledgment time other than 0 that is not
    after [now].  An acknowledged query with acknowledged_time = now - 1
    does not get the acknowledged colour, provided now <> 1 (at now = 1
    the time is 0, which never expires): the status rule falls through to
    the dead, paused and age rules.  With acknowledged_time = now + 3600
    it gets the acknowledged colour.  Expiry is computed when a row is
    drawn: loading returns the stored pair as it is, whatever the clock,
    and leaves the store unchanged. *)
Theorem acknowledgment_expiry :
  (forall q now,
     is_expired_acknowledgment q now = true <->
     acknowledged q = true /\ acknowledged_time q <> 0 /\
     acknowledged_time q <= now) /\
  (forall q now mn mx,
     acknowledged q = true -> acknowledged_time q = now - 1 -> now <> 1 ->
     get_status_color q (acknowledged_time q) now =
       (if dead q then Some dead_color
        else if paused q then Some paused_color else None) /\
     create_query_item q now mn mx <> Returned acknowledged_color /\
     ack_until_str q now = (if now >? 1 then AckExpired else AckNA)) /\
  (forall q now mn mx,
     acknowledged q = true -> acknowledged_time q = now + 3600 ->
     get_status_color q (acknowledged_time q) now = Some acknowledged_color /\
     create_query_item q now mn mx = Returned acknowledged_color) /\
  (forall json_loads store faults,
     (load_subscription_data json_loads store faults).2 = store) /\
  (forall json_loads row q,
     query_data json_loads row = Some q ->
     acknowledged q = col_acknowledged row /\
     acknowledged_time q = col_acknowledged_time row).
Proof.
  split; [|split; [|split; [|split]]].
  - intros q now. apply is_expired_acknowledgment_iff.
  - intros q now mn mx Ha Ht Hnow.
    assert (Hs : get_status_color q (acknowledged_time q) now =
                 (if dead q then Some dead_color
                  else if paused q then Some paused_color else None)).
    { unfold get_status_color. rewrite Ha, Ht. simpl.
      destruct (Z.eqb_spec (now - 1) 0); [lia|].
      destruct (Z.gtb_spec (now - 1) now); [lia|]. simpl.
      destruct (dead q), (paused q); reflexivity. }
    split; [exact Hs|]. split.
    + apply fall_through_color.
      rewrite Hs. destruct (dead q), (paused q); discriminate.
    + unfold ack_until_str. rewrite Ha, Ht. simpl.
      destruct (Z.gtb_spec (now - 1) 0), (Z.gtb_spec now 1); try lia;
        [|reflexivity].
      destruct (Z.gtb_spec (now - 1) now); [lia|reflexivity].
  - intros q now mn mx Ha Ht.
    assert (Hs : get_status_color q (acknowledged_time q) now =
                 Some acknowledged_color).
    { unfold get_status_color. rewrite Ha, Ht. simpl.
      destruct (Z.gtb_spec (now + 3600) now); [|lia].
      now rewrite orb_true_r. }
    split; [exact Hs|]. unfold create_query_item. now rewrite Hs.
  - intros. apply PersistenceFacts.load_leaves_store.
  - intros json_loads row q. apply query_data_acknowledgment.
Qed.

Lemma acknowledgment_expiry_witness :
  create_query_item row_expired.2 sample_now 100 200
    <> Returned acknowledged_color /\
  get_status_color (sample_query "Q" true 4600 0) 4600 1000
    = Some acknowledged_color.
Proof.
  destruct acknowledgment_expiry as (_ & Hpast & Hfuture & _).
  split.
  - apply (Hpast row_expired.2 sample_now 100 200);
      [reflexivity|reflexivity|unfold sample_now; lia].
  - apply (Hfuture (sample_query "Q" true 4600 0) 1000 0 0); reflexivity.
Defined.

(** C7 as stated fails at now = 1: acknowledged_time = now - 1 is then 0,
    the value that never expires, and the query gets the acknowledged
    colour. *)
Lemma acknowledged_at_zero_keeps_color :
  acknowledged query_ack_at_zero = true /\
  acknowledged_time query_ack_at_zero = 1 - 1 /\
  get_status_color query_ack_at_zero (acknowledged_time query_ack_at_zero) 1
    = Some acknowledged_color /\
  create_query_item query_ack_at_zero 1 0 0 = Returned acknowledged_color.
Proof. repeat split. Qed.

End ExpiryFacts.

(** ** Entity model, continued *)

Module EntitiesFacts.
Import Entities.

Lemma filter_partition_length {A} (p : A -> bool) (l : list A) :
  length l =
  (length (List.filter (fun x => negb (p x)) l)
   + length (List.filter p l))%nat.
Proof.
  induction l as [|x l IH]; [reflexivity|].
  simpl. destruct (p x); simpl; lia.
Qed.

Lemma sum_counts_from {A} (f : A -> nat) (l : list A) (n : nat) :
  foldl (fun acc x => acc + f x)%nat n l = (n + sum_counts f l)%nat.
Proof.
  unfold sum_counts. revert n.
  induction l as [|x l IH]; intros n; simpl; [lia|].
  rewrite (IH (n + f x)%nat), (IH (f x)). lia.
Qed.

Lemma sum_counts_cons {A} (f : A -> nat) x l :
  sum_counts f (x :: l) = (f x + sum_counts f l)%nat.
Proof. unfold sum_counts at 1. simpl. apply sum_counts_from. Qed.

Lemma pair_queries_cons sub subs :
  pair_queries (sub :: subs) =
  map (fun q => (name sub, q)) (queries sub) ++ pair_queries subs.
Proof. reflexivity. Qed.

Lemma filter_map_pair {A B} (p : B -> bool) (a : A) (l : list B) :
  List.filter (fun x : A * B => p x.2) (map (fun q => (a, q)) l) =
  map (fun q => (a, q)) (List.filter p l).
Proof.
  induction l as [|x l IH]; [reflexivity|].
  simpl. destruct (p x); simpl; now rewrite IH.
Qed.

(** The queries of a subscription are the unacknowledged ones plus the
    acknowledged ones; the totals of [SubscriptionData] count the pairs of
    [get_all_queries], all of them and the unacknowledged ones. *)
Theorem query_counts_agree :
  (forall s,
     query_count s = (active_query_count s + acknowledged_query_count s)%nat) /\
  (forall d,
     total_queries d = length (get_all_queries d) /\
     total_active_queries d =
       length (List.filter (fun item : string * Query =>
                              negb (acknowledged item.2))
                 (get_all_queries d)) /\
     (total_active_queries d <= total_queries d)%nat).
Proof.
  split.
  - intros s. apply filter_partition_length.
  - intros [subs v h]. unfold total_queries, total_active_queries,
      get_all_queries. simpl.
    assert (H : sum_counts query_count subs = length (pair_queries subs) /\
                sum_counts active_query_count subs =
                length (List.filter (fun item : string * Query =>
                                       negb (acknowledged item.2))
                          (pair_queries subs))).
    { induction subs as [|sub subs [IH1 IH2]]; [split; reflexivity|].
      rewrite !sum_counts_cons, pair_queries_cons, List.filter_app,
        !length_app, length_map, IH1, IH2.
      rewrite (filter_map_pair (fun q => negb (acknowledged q))), length_map.
      split; reflexivity. }
    destruct H as [H1 H2]. rewrite H1, H2. repeat split.
    clear. induction (pair_queries subs) as [|x l IH]; simpl; [lia|].
    destruct (negb (acknowledged x.2)); simpl; lia.
Qed.

(** [get_subscription_by_name] returns the first subscription with the
    name asked for, and [None] exactly when no subscription has it. *)
Theorem get_subscription_by_name_first (d : SubscriptionData) (n : string) :
  match get_subscription_by_name d n with
  | Some sub =>
      name sub = n /\
      exists before after,
        subscriptions d = before ++ sub :: after /\
        Forall (fun s => name s <> n) before
  | None => Forall (fun s => name s <> n) (subscriptions d)
  end.
Proof.
  unfold get_subscription_by_name.
  induction (subscriptions d) as [|sub subs IH]; simpl; [constructor|].
  destruct (String.eqb_spec (name sub) n) as [E|E].
  - split; [exact E|]. exists [], subs. split; [reflexivity|constructor].
  - destruct (find_subscription subs n) as [found|].
    + destruct IH as (Hn & before & after & -> & Hb).
      split; [exact Hn|]. exists (sub :: before), after.
      split; [reflexivity|]. now constructor.
    + now constructor.
Qed.

Lemma query_round_trip q : query_from_dict (query_to_dict q) = q.
Proof. destruct q. reflexivity. Qed.

Lemma subscription_round_trip s :
  subscription_from_dict (subscription_to_dict s) = s.
Proof.
  destruct s as [n g qs]. unfold subscription_from_dict. simpl. f_equal.
  rewrite map_map. induction qs as [|q qs IH]; [reflexivity|].
  simpl. now rewrite query_round_trip, IH.
Qed.

(** Writing a value to its dictionary and reading it back gives the value
    again, for queries, subscriptions and the whole data; reading any
    dictionary, writing it and reading it again changes nothing more. *)
Theorem from_dict_to_dict :
  (forall q, query_from_dict (query_to_dict q) = q) /\
  (forall s, subscription_from_dict (subscription_to_dict s) = s) /\
  (forall d, data_from_dict (data_to_dict d) = d) /\
  (forall r,
     data_from_dict (data_to_dict (data_from_dict r)) = data_from_dict r).
Proof.
  assert (H : forall d, data_from_dict (data_to_dict d) = d).
  { intros [subs v h]. unfold data_from_dict. simpl. f_equal.
    rewrite map_map. induction subs as [|s subs IH]; [reflexivity|].
    simpl. now rewrite subscription_round_trip, IH. }
  split; [apply query_round_trip|]. split; [apply subscription_round_trip|].
  split; [exact H|]. intros r. apply H.
Qed.

End EntitiesFacts.

(** ** Controller, continued *)

Module ControllerFacts.
Import Ranking Entities Persistence Controller Samples.

Lemma find_subscription_In subs n sub :
  find_subscription subs n = Some sub -> name sub = n /\ In sub subs.
Proof.
  induction subs as [|s subs IH]; simpl; [discriminate|].
  destruct (String.eqb_spec (name s) n) as [E|E].
  - intros [= <-]. auto.
  - intros H. destruct (IH H). auto.
Qed.

Lemma sum_counts_pair_queries subs :
  sum_counts Entities.query_count subs = length (pair_queries subs).
Proof.
  induction subs as [|sub subs IH]; [reflexivity|].
  rewrite EntitiesFacts.sum_counts_cons, EntitiesFacts.pair_queries_cons,
    length_app, length_map, IH.
  reflexivity.
Qed.

(** What is on show: every subscription shown is one of the loaded ones;
    with a filter set there is at most one, and it has the filter's name;
    the sorted rows are the queries of the subscriptions shown, each
    once, and [get_filtered_query_count] is their number. *)
Theorem filtered_view (self : MainController) :
  let shown := get_filtered_subscriptions self in
  Forall (fun sub =>
            exists data,
              subscription_data self = Some data /\
              In sub (subscriptions data)) shown /\
  match current_filter self with
  | Some flt =>
      if String.eqb flt "" then True
      else (length shown <= 1)%nat /\ Forall (fun sub => name sub = flt) shown
  | None => True
  end /\
  Permutation (get_all_queries_sorted self) (pair_queries shown) /\
  get_filtered_query_count self = length (get_all_queries_sorted self).
Proof.
  intros shown.
  assert (Hperm : Permutation (get_all_queries_sorted self)
                    (pair_queries shown)).
  { unfold get_all_queries_sorted, shown, get_filtered_subscriptions.
    destruct (subscription_data self); [|reflexivity].
    apply list_sort_perm. }
  split; [|split; [|split]].
  - unfold shown, get_filtered_subscriptions.
    destruct (subscription_data self) as [data|]; [|constructor].
    assert (Hall : Forall (fun sub =>
                     exists data0, Some data = Some data0 /\
                                   In sub (subscriptions data0))
                     (subscriptions data)).
    { apply Forall_forall. intros sub Hin. exists data. split; [reflexivity|].
      now apply list_elem_of_In. }
    destruct (current_filter self) as [flt|]; [|exact Hall].
    destruct (String.eqb flt ""); [exact Hall|].
    unfold get_subscription_by_name.
    destruct (find_subscription (subscriptions data) flt) as [sub|] eqn:E;
      [|constructor].
    apply find_subscription_In in E as [_ Hin].
    repeat constructor. exists data. auto.
  - unfold shown, get_filtered_subscriptions.
    destruct (current_filter self) as [flt|]; [|exact I].
    destruct (String.eqb flt "") eqn:Ef; [exact I|].
    destruct (subscription_data self) as [data|];
      [|split; [simpl; lia|constructor]].
    unfold get_subscription_by_name.
    destruct (find_subscription (subscriptions data) flt) as [sub|] eqn:E;
      [|split; [simpl; lia|constructor]].
    apply find_subscription_In in E as [Hn _].
    split; [simpl; lia|]. repeat constructor. exact Hn.
  - exact Hperm.
  - unfold get_filtered_query_count. fold shown.
    rewrite sum_counts_pair_queries. symmetry.
    now apply Permutation_length.
Qed.

Lemma data_round_trip d : data_from_dict (data_to_dict d) = d.
Proof.
  destruct d as [subs v h]. unfold data_from_dict. simpl. f_equal.
  rewrite map_map. induction subs as [|s subs IH]; [reflexivity|].
  simpl. now rewrite EntitiesFacts.subscription_round_trip, IH.
Qed.

(** [load_from_database] leaves the store and the filter as they are.  When
    the database file cannot be opened the data it sets is empty, with
    version 0 and 'Database Error'; otherwise it is what
    [load_subscription_data] returned. *)
Theorem load_from_database_outcome json_loads self store faults :
  let r := load_from_database json_loads self store faults in
  r.2 = store /\
  current_filter r.1 = current_filter self /\
  match store with
  | Unreadable =>
      subscription_data r.1 = Some (mkSubscriptionData [] 0 "Database Error")
  | NotADatabase | Sqlite _ =>
      exists data,
        (load_subscription_data json_loads store faults).1 = Returned data /\
        subscription_data r.1 = Some data
  end.
Proof.
  intros r. subst r. unfold load_from_database.
  pose proof (PersistenceFacts.load_leaves_store json_loads store faults) as Hs.
  destruct (load_subscription_data json_loads store faults)
    as [[data|e] store'] eqn:E; simpl in Hs; subst store'; simpl.
  - split; [reflexivity|]. split; [reflexivity|].
    rewrite data_round_trip.
    destruct store as [| |d]; [discriminate|eauto|eauto].
  - split; [reflexivity|]. split; [reflexivity|].
    destruct store as [| |d]; [reflexivity|discriminate|].
    unfold load_subscription_data in E.
    destruct (load_rows json_loads (connect d faults)) as [[e'|data] c];
      discriminate.
Qed.

End ControllerFacts.

(** ** Acknowledging from the controller *)

Module AcknowledgeFacts.
Import Ranking Entities Persistence Controller Samples MoreSamples.

Lemma update_item_consistent store faults item acknowledged ack_time :
  acknowledged = true \/ ack_time <= 0 ->
  store_ack_consistent store = true ->
  store_ack_consistent
    (update_item store faults item acknowledged ack_time).2 = true.
Proof.
  intros Hargs Hc. unfold update_item.
  destruct (truthy_id (item_query_id item)) as [query_id|].
  - apply PersistenceFacts.run_update_consistent with acknowledged ack_time;
      auto using PersistenceFacts.update_by_id_is_update.
  - apply PersistenceFacts.run_update_consistent with acknowledged ack_time;
      auto using PersistenceFacts.update_by_text_is_update.
Qed.

Lemma update_items_consistent items :
  forall store faults acknowledged ack_time n,
    acknowledged = true \/ ack_time <= 0 ->
    store_ack_consistent store = true ->
    store_ack_consistent
      (update_items store faults items acknowledged ack_time n).2 = true.
Proof.
  induction items as [|item items IH];
    intros store faults ack t n Hargs Hc; [exact Hc|].
  simpl.
  pose proof (update_item_consistent store (List.hd None faults) item ack t
                Hargs Hc) as H1.
  destruct (update_item store (List.hd None faults) item ack t)
    as [[applied|e] store']; simpl in *; [|exact H1].
  now apply IH.
Qed.

(** Acknowledging and unacknowledging from the controller keep a store
    free of rows with an acknowledgment time above 0 and a cleared flag,
    for every selection, number of days, clock and storage failure. *)
Theorem controller_keeps_acknowledgment_consistent :
  (forall store faults items ack_days now,
     store_ack_consistent store = true ->
     store_ack_consistent
       (acknowledge_queries store faults items ack_days now).2 = true) /\
  (forall store faults items,
     store_ack_consistent store = true ->
     store_ack_consistent (unacknowledge_queries store faults items).2 = true).
Proof.
  split.
  - intros. apply update_items_consistent; auto.
  - intros. apply update_items_consistent; auto. right. lia.
Qed.

Lemma controller_keeps_acknowledgment_consistent_witness :
  store_ack_consistent
    (acknowledge_queries sample_store [] [sample_item] 30 1000).2 = true /\
  store_ack_consistent
    (unacknowledge_queries sample_store [Some 1%nat] [sample_item]).2 = true.
Proof.
  destruct controller_keeps_acknowledgment_consistent as [Hack Hunack].
  split.
  - apply (Hack sample_store [] [sample_item] 30 1000). reflexivity.
  - apply (Hunack sample_store [Some 1%nat] [sample_item]). reflexivity.
Defined.

Lemma update_item_cases store faults item acknowledged ack_time :
  match update_item store faults item acknowledged ack_time with
  | (Returned _, store') => store <> Unreadable /\ store' <> Unreadable
  | (Raised _, store') => store = Unreadable /\ store' = store
  end.
Proof.
  unfold update_item, update_query_acknowledgment, update_queries_by_text,
    run_update.
  destruct (truthy_id (item_query_id item)); destruct store as [| |d];
    try (split; reflexivity); try (split; discriminate);
    match goal with
    | |- context [update_transaction ?s ?c] =>
        destruct (update_transaction s c) as [[e|b] c']; split; discriminate
    end.
Qed.

(** The number [acknowledge_queries] and [unacknowledge_queries] return is
    between 0 and the number of rows selected; with nothing selected it is
    0 and the store is not touched.  They raise only when the database
    file cannot be opened, and then the store is as it was. *)
Theorem update_items_count :
  (forall items store faults acknowledged ack_time n,
     match update_items store faults items acknowledged ack_time n with
     | (Returned count, _) => n <= count <= n + Z.of_nat (length items)
     | (Raised _, store') =>
         store = Unreadable /\ store' = store /\ items <> []
     end) /\
  (forall store faults ack_days now,
     acknowledge_queries store faults [] ack_days now = (Returned 0, store)) /\
  (forall store faults,
     unacknowledge_queries store faults [] = (Returned 0, store)).
Proof.
  split; [|split; reflexivity].
  induction items as [|item items IH]; intros store faults ack t n.
  - simpl. lia.
  - simpl.
    pose proof (update_item_cases store (List.hd None faults) item ack t) as H1.
    destruct (update_item store (List.hd None faults) item ack t)
      as [[applied|e] store']; [|destruct H1; repeat split; auto; discriminate].
    specialize (IH store' (List.tl faults) ack t
                  (if applied then n + 1 else n)).
    destruct (update_items store' (List.tl faults) items ack t
                (if applied then n + 1 else n)) as [[count|e] store''].
    + destruct applied; simpl length; lia.
    + destruct IH as (Hu & _ & _). destruct H1 as [_ H1]. contradiction.
Qed.

End AcknowledgeFacts.

(** ** What acknowledging writes *)

Module AcknowledgeEffect.
Import Ranking Entities Persistence Controller Samples MoreSamples.

Lemma filter_count_existsb (sel : query_row -> bool) rows :
  (Z.of_nat (length (List.filter sel rows)) >? 0) = existsb sel rows.
Proof.
  induction rows as [|x rows IH]; [reflexivity|].
  simpl. destruct (sel x); [|exact IH].
  simpl length. rewrite Z.gtb_ltb. apply Z.ltb_lt. lia.
Qed.

Lemma acknowledge_rows_nil acknowledged ack_time rows :
  acknowledge_rows [] acknowledged ack_time rows = rows.
Proof.
  unfold acknowledge_rows. simpl. apply List.map_id.
Qed.

Lemma acknowledge_rows_cons i ids acknowledged ack_time rows :
  acknowledge_rows ids acknowledged ack_time
    (acknowledge_rows [i] acknowledged ack_time rows) =
  acknowledge_rows (i :: ids) acknowledged ack_time rows.
Proof.
  unfold acknowledge_rows. rewrite map_map. apply map_ext. intros r. simpl.
  rewrite orb_false_r.
  destruct (col_query_id r =? i) eqn:E; simpl.
  - now destruct (existsb _ ids).
  - reflexivity.
Qed.

Lemma acknowledge_rows_ids i ids acknowledged ack_time rows :
  existsb (fun q => col_query_id q =? i)
    (acknowledge_rows ids acknowledged ack_time rows) =
  existsb (fun q => col_query_id q =? i) rows.
Proof.
  unfold acknowledge_rows. induction rows as [|r rows IH]; [reflexivity|].
  simpl. rewrite IH. now destruct (existsb _ ids).
Qed.

Lemma items_found_rows ids i acknowledged ack_time rows :
  items_found ids (acknowledge_rows [i] acknowledged ack_time rows) =
  items_found ids rows.
Proof.
  unfold items_found. do 2 f_equal.
  induction ids as [|j ids IH]; [reflexivity|].
  simpl. now rewrite acknowledge_rows_ids, IH.
Qed.

Lemma update_by_id_applied subs rows s q i acknowledged ack_time :
  int64 ack_time = true -> int64 i = true ->
  update_query_acknowledgment
    (Sqlite (mkDatabase (Some subs) (Some rows) s q)) None i
    acknowledged ack_time =
  (Returned (existsb (fun r => col_query_id r =? i) rows),
   Sqlite (mkDatabase (Some subs)
             (Some (acknowledge_rows [i] acknowledged ack_time rows)) s q)).
Proof.
  intros Ht Hi. unfold update_query_acknowledgment.
  erewrite PersistenceFacts.run_update_success; [| |exact I|reflexivity].
  2:{ rewrite PersistenceFacts.forallb_int64_2, Ht, Hi. reflexivity. }
  simpl. rewrite filter_count_existsb. f_equal.
  unfold set_queries, acknowledge_rows. simpl. do 3 f_equal.
  apply map_ext. intros r. simpl. unfold where_id.
  now rewrite orb_false_r.
Qed.

Lemma update_items_by_id items :
  forall subs rows s q acknowledged ack_time n,
    Forall (fun item => is_Some (truthy_id (item_query_id item))) items ->
    Forall (fun i => int64 i = true) (selected_ids items) ->
    int64 ack_time = true ->
    update_items (Sqlite (mkDatabase (Some subs) (Some rows) s q)) []
      items acknowledged ack_time n =
    (Returned (n + items_found (selected_ids items) rows),
     Sqlite (mkDatabase (Some subs)
               (Some (acknowledge_rows (selected_ids items)
                        acknowledged ack_time rows)) s q)).
Proof.
  induction items as [|item items IH];
    intros subs rows s q ack t n Hids Hrange Ht.
  - simpl. rewrite acknowledge_rows_nil. unfold items_found. simpl.
    now rewrite Z.add_0_r.
  - apply Forall_cons in Hids as [[i Hi] Hids].
    assert (Hsel : selected_ids (item :: items) = i :: selected_ids items).
    { unfold selected_ids. simpl. now rewrite Hi. }
    rewrite Hsel in *. apply Forall_cons in Hrange as [Hi64 Hrange].
    change (update_items ?st [] (item :: items) ack t n) with
      (match update_item st None item ack t with
       | (Raised e, store') => (Raised e, store')
       | (Returned applied, store') =>
           update_items store' [] items ack t
             (if applied then n + 1 else n)
       end).
    unfold update_item. rewrite Hi, update_by_id_applied by assumption.
    rewrite IH by assumption.
    rewrite acknowledge_rows_cons, items_found_rows.
    f_equal. f_equal. unfold items_found. simpl List.filter.
    destruct (existsb (fun r => col_query_id r =? i) rows); simpl length; lia.
Qed.

Lemma acknowledge_rows_pair_written ids acknowledged ack_time rows :
  Forall2 (pair_written ids acknowledged ack_time) rows
    (acknowledge_rows ids acknowledged ack_time rows).
Proof.
  unfold acknowledge_rows. apply Forall2_fmap_r, Forall_Forall2_diag.
  apply Forall_forall. intros r _.
  assert (E : existsb (fun i => col_query_id r =? i) ids
              = bool_decide (col_query_id r ∈ ids)).
  { clear. induction ids as [|j ids IH]; cbn [existsb].
    - symmetry. apply bool_decide_eq_false_2, not_elem_of_nil.
    - rewrite IH. destruct (Z.eqb_spec (col_query_id r) j) as [->|Hne]; simpl.
      + symmetry. apply bool_decide_eq_true_2, elem_of_cons. now left.
      + apply bool_decide_ext. rewrite elem_of_cons. tauto. }
  unfold compose, pair_written. rewrite E.
  destruct (bool_decide _); (split; [repeat split|split; reflexivity]).
Qed.

(** With an acknowledgment time outside 64 bits every update of the loop
    returns [False]: nothing is written and the count stays. *)
Lemma update_items_overflow items :
  forall d faults acknowledged ack_time n,
    int64 ack_time = false ->
    update_items (Sqlite d) faults items acknowledged ack_time n =
    (Returned n, Sqlite d).
Proof.
  induction items as [|item items IH]; intros d faults ack t n Ht;
    [reflexivity|].
  change (update_items ?st faults (item :: items) ack t n) with
    (match update_item st (List.hd None faults) item ack t with
     | (Raised e, store') => (Raised e, store')
     | (Returned applied, store') =>
         update_items store' (List.tl faults) items ack t
           (if applied then n + 1 else n)
     end).
  assert (E : update_item (Sqlite d) (List.hd None faults) item ack t =
              (Returned false, Sqlite d)).
  { unfold update_item, update_query_acknowledgment, update_queries_by_text.
    destruct (truthy_id (item_query_id item));
      apply PersistenceFacts.run_update_overflow.
    - now rewrite PersistenceFacts.forallb_int64_2, Ht.
    - now rewrite PersistenceFacts.forallb_int64_1. }
  rewrite E. now apply IH.
Qed.

(** Without a storage failure, on a store with both relations, for a
    selection of rows that all carry a query id that fits in 64 bits:
    when now + ack_days * 86400 fits in 64 bits, [acknowledge_queries]
    writes (true, now + ack_days * 86400) to exactly the stored rows whose
    id is selected, [unacknowledge_queries] writes (false, 0) to them,
    every other row and every other column of every row stay as they were,
    and the number returned is the number of selected rows whose id is
    stored.  When now + ack_days * 86400 does not fit in 64 bits,
    [acknowledge_queries] writes nothing and returns 0, whatever the
    selection and the storage failures. *)
Theorem acknowledge_writes_selected_rows :
  (forall subs rows s q items ack_days now,
     Forall (fun item => is_Some (truthy_id (item_query_id item))) items ->
     Forall (fun i => int64 i = true) (selected_ids items) ->
     let store := Sqlite (mkDatabase (Some subs) (Some rows) s q) in
     let ids := selected_ids items in
     (int64 (now + ack_days * 86400) = true ->
      exists rows',
        acknowledge_queries store [] items ack_days now =
          (Returned (items_found ids rows),
           Sqlite (mkDatabase (Some subs) (Some rows') s q)) /\
        Forall2 (pair_written ids true (now + ack_days * 86400)) rows rows') /\
     exists rows',
       unacknowledge_queries store [] items =
         (Returned (items_found ids rows),
          Sqlite (mkDatabase (Some subs) (Some rows') s q)) /\
       Forall2 (pair_written ids false 0) rows rows') /\
  (forall d faults items ack_days now,
     int64 (now + ack_days * 86400) = false ->
     acknowledge_queries (Sqlite d) faults items ack_days now =
       (Returned 0, Sqlite d)).
Proof.
  split.
  - intros subs rows s q items ack_days now Hids Hrange store ids.
    unfold acknowledge_queries, unacknowledge_queries, store.
    replace (now + ack_days * 24 * 3600) with (now + ack_days * 86400) by lia.
    split.
    + intros Ht. rewrite update_items_by_id by assumption. fold ids.
      eexists. split; [reflexivity|]. apply acknowledge_rows_pair_written.
    + rewrite update_items_by_id by (assumption || reflexivity). fold ids.
      eexists. split; [reflexivity|]. apply acknowledge_rows_pair_written.
  - intros d faults items ack_days now Ht. unfold acknowledge_queries.
    replace (now + ack_days * 24 * 3600) with (now + ack_days * 86400) by lia.
    now apply update_items_overflow.
Qed.

Lemma acknowledge_writes_selected_rows_witness :
  (exists rows',
     acknowledge_queries sample_store [] [sample_item] 30 1000 =
       (Returned 1,
        Sqlite (mkDatabase (Some [mkSubscriptionRow 1 "art" "gug"])
                  (Some rows') 1 1)) /\
     Forall2 (pair_written [1] true 2593000) [sample_row] rows') /\
  acknowledge_queries sample_store [] [sample_item] (2 ^ 63) 1000 =
    (Returned 0, sample_store).
Proof.
  destruct acknowledge_writes_selected_rows as [Hin Hout]. split.
  - destruct (Hin [mkSubscriptionRow 1 "art" "gug"] [sample_row] 1 1
                [sample_item] 30 1000) as [H _].
    + repeat constructor. simpl. eauto.
    + repeat constructor.
    + apply H. reflexivity.
  - apply (Hout sample_database [] [sample_item] (2 ^ 63) 1000). reflexivity.
Defined.

End AcknowledgeEffect.

(** ** The query tree, continued *)

Module ViewFacts.
Import Ranking Coloring ColoringSpec Samples.

(** The "Ack Until" column agrees with the colour: a row showing an
    instant has the acknowledged colour and its acknowledgment is not
    expired; a row showing "Expired" does not have the acknowledged colour
    and its acknowledgment is expired; a row showing "N/A" is
    unacknowledged or has an acknowledgment time of 0 or less. *)
Theorem ack_until_agrees_with_color (q : Query) (now mn mx : Z) :
  match ack_until_str q now with
  | AckUntil t =>
      t = acknowledged_time q /\
      create_query_item q now mn mx = Returned acknowledged_color /\
      is_expired_acknowledgment q now = false
  | AckExpired =>
      create_query_item q now mn mx <> Returned acknowledged_color /\
      is_expired_acknowledgment q now = true
  | AckNA => acknowledged q = false \/ acknowledged_time q <= 0
  end.
Proof.
  unfold ack_until_str, is_expired_acknowledgment.
  destruct (acknowledged q) eqn:Ha; simpl; [|now left].
  destruct (Z.gtb_spec (acknowledged_time q) 0) as [Hpos|Hle];
    [|right; exact Hle].
  destruct (Z.eqb_spec (acknowledged_time q) 0) as [E|_]; [lia|].
  destruct (Z.gtb_spec (acknowledged_time q) now) as [Hf|Hp].
  - split; [reflexivity|]. split.
    + unfold create_query_item, get_status_color. rewrite Ha. simpl.
      destruct (Z.gtb_spec (acknowledged_time q) now); [|lia].
      now rewrite orb_true_r.
    + apply Z.leb_gt. lia.
  - split; [|apply Z.leb_le; lia].
    apply ExpiryFacts.fall_through_color.
    unfold get_status_color. rewrite Ha. simpl.
    destruct (Z.eqb_spec (acknowledged_time q) 0); [lia|].
    destruct (Z.gtb_spec (acknowledged_time q) now); [lia|]. simpl.
    destruct (dead q), (paused q); discriminate.
Qed.

Lemma valid_times_perm (l l' : list (string * Query)) :
  Permutation l l' -> Permutation (valid_times l) (valid_times l').
Proof.
  intros H. unfold valid_times. apply Permutation_map.
  induction H; simpl.
  - constructor.
  - destruct (_ && _); [now constructor|assumption].
  - destruct (_ && _), (_ && _); try reflexivity. apply perm_swap.
  - etransitivity; eassumption.
Qed.

(** The normalisation domain does not depend on the order of the rows. *)
Lemma time_range_perm (l l' : list (string * Query)) :
  Permutation l l' -> time_range l = time_range l'.
Proof.
  intros H. apply valid_times_perm in H.
  destruct (ColoringFacts.time_range_spec l) as [[E R]|(A1 & A2 & A3)],
           (ColoringFacts.time_range_spec l') as [[E' R']|(B1 & B2 & B3)].
  - congruence.
  - rewrite E in H. apply Permutation.Permutation_nil in H.
    rewrite H in B1. destruct B1.
  - rewrite E' in H. symmetry in H. apply Permutation.Permutation_nil in H.
    rewrite H in A1. destruct A1.
  - assert (Hin : forall t, In t (valid_times l) <-> In t (valid_times l')).
    { intros t. split; apply Permutation_in; [exact H|now symmetry]. }
    destruct (time_range l) as [mn mx], (time_range l') as [mn' mx'].
    simpl in *.
    pose proof (A3 _ (proj2 (Hin _) B1)). pose proof (A3 _ (proj2 (Hin _) B2)).
    pose proof (B3 _ (proj1 (Hin _) A1)). pose proof (B3 _ (proj1 (Hin _) A2)).
    f_equal; lia.
Qed.

(** The rows the loop adds when no exception leaves it. *)
Lemma add_items_completed (l : list (string * Query)) now mn mx :
  (add_items l now mn mx).2 = None ->
  Forall (fun q => format_times q.2 now = Returned tt) l /\
  Forall2 (fun q c => create_query_item q.2 now mn mx = Returned c)
    l (add_items l now mn mx).1.
Proof.
  induction l as [|q l IH]; simpl.
  - intros _. split; constructor.
  - destruct (format_times q.2 now) as [[]|e] eqn:Ef; simpl; [|discriminate].
    destruct (create_query_item q.2 now mn mx) as [c|e] eqn:E; simpl;
      [|discriminate].
    destruct (add_items l now mn mx) as [items e]. simpl in *.
    intros He. destruct (IH He) as [IH1 IH2].
    split; constructor; assumption.
Qed.

Lemma add_items_completes (l : list (string * Query)) now mn mx :
  Forall (fun q => format_times q.2 now = Returned tt) l ->
  Forall (fun q => exists c, create_query_item q.2 now mn mx = Returned c) l ->
  (add_items l now mn mx).2 = None.
Proof.
  induction l as [|q l IH]; simpl; [reflexivity|].
  intros H1 H2.
  apply Forall_cons in H1 as [F1 H1]. apply Forall_cons in H2 as [[c F2] H2].
  rewrite F1, F2. simpl.
  specialize (IH H1 H2).
  destruct (add_items l now mn mx) as [items e]. exact IH.
Qed.

Lemma Forall2_exists {A B : Type} (R : A -> B -> Prop) l l' :
  Forall2 R l l' -> Forall (fun a => exists b, R a b) l.
Proof. induction 1; constructor; eauto. Qed.

(** Rows that are coloured one by one by a function: a permutation of
    the rows permutes the colours. *)
Lemma Forall2_functional_perm {A B : Type} (R : A -> B -> Prop) l1 l2 k1 k2 :
  (forall a b b', R a b -> R a b' -> b = b') ->
  Forall2 R l1 k1 -> Forall2 R l2 k2 -> Permutation l1 l2 ->
  Permutation k1 k2.
Proof.
  intros Hf H1 H2 Hp. revert k1 k2 H1 H2.
  induction Hp as [|a l1 l2 Hp IH|a a' l|l1 l2 l3 Hp1 IH1 Hp2 IH2];
    intros k1 k2 H1 H2.
  - inversion H1. inversion H2. constructor.
  - inversion H1 as [|? b ? k1' Ra T1]; subst.
    inversion H2 as [|? b' ? k2' Ra' T2]; subst.
    rewrite (Hf a b b' Ra Ra'). constructor. now apply IH.
  - inversion H1 as [|? b ? k1' Ra T1]; subst.
    inversion T1 as [|? c ? k1'' Ra' T1']; subst.
    inversion H2 as [|? c' ? k2' Rc T2]; subst.
    inversion T2 as [|? b' ? k2'' Rb T2']; subst.
    rewrite (Hf _ _ _ Ra' Rc), (Hf _ _ _ Ra Rb).
    assert (k1'' = k2'') as ->.
    { clear -Hf T1' T2'. revert k2'' T2'.
      induction T1' as [|x y l k Rx T IH]; intros k2 T2; inversion T2; subst;
        [reflexivity|].
      f_equal; [eapply Hf; eassumption|now apply IH]. }
    apply perm_swap.
  - assert (He : Forall (fun a => exists b, R a b) l2).
    { apply (Permutation_Forall Hp1). eapply Forall2_exists, H1. }
    assert (exists k, Forall2 R l2 k) as [k Hk].
    { clear -He. induction He as [|a l [b Rb] _ [k IH]].
      - exists []. constructor.
      - exists (b :: k). now constructor. }
    transitivity k; [now apply IH1|now apply IH2].
Qed.

(** Sorting the rows changes no row's colour.  The sorted rows are all
    drawn exactly when the unsorted ones are; the rows drawn after the
    sort then have the colours [_create_query_item] computes with the
    min_time and max_time of the unsorted rows, in the sorted order, and
    these are the colours drawn before the sort, permuted. *)
Theorem colors_independent_of_order (l : list (string * Query)) (now : Z) :
  ((populate_queries (sort_queries l) now).2 = None <->
   (populate_queries l now).2 = None) /\
  ((populate_queries l now).2 = None ->
   Forall2
     (fun q c =>
        create_query_item q.2 now (time_range l).1 (time_range l).2
          = Returned c)
     (sort_queries l) (populate_queries (sort_queries l) now).1 /\
   Permutation (populate_queries (sort_queries l) now).1
     (populate_queries l now).1).
Proof.
  assert (Hp : Permutation (sort_queries l) l) by apply list_sort_perm.
  unfold populate_queries. rewrite (time_range_perm _ _ Hp).
  destruct (time_range l) as [mn mx]. simpl.
  assert (Hiff : forall l1 l2 : list (string * Query),
            Permutation l1 l2 ->
            (add_items l1 now mn mx).2 = None ->
            (add_items l2 now mn mx).2 = None).
  { intros l1 l2 P H. destruct (add_items_completed l1 now mn mx H) as [F1 F2].
    apply add_items_completes.
    - exact (Permutation_Forall P F1).
    - apply (Permutation_Forall P). eapply Forall2_exists, F2. }
  split; [split; apply Hiff; [exact Hp|now symmetry]|].
  intros H.
  assert (H' : (add_items (sort_queries l) now mn mx).2 = None).
  { apply (Hiff l); [now symmetry|exact H]. }
  destruct (add_items_completed _ now mn mx H) as [_ F].
  destruct (add_items_completed _ now mn mx H') as [_ F'].
  split; [exact F'|].
  refine (Forall2_functional_perm _ _ _ _ _ _ F' F Hp).
  intros q c c' E E'. rewrite E in E'. now injection E' as <-.
Qed.

(** The rows of the failing input of rule 6 are drawn in either order. *)
Example colors_independent_of_order_sample :
  (populate_queries [row_expired; row_fresh; row_old] sample_now).2 = None /\
  populate_queries (sort_queries [row_expired; row_fresh; row_old]) sample_now
    = ([mkQColor 255 140 60; mkQColor 255 240 200; mkQColor 255 540 620],
       None).
Proof. split; reflexivity. Qed.

End ViewFacts.

(** ** The colours of the rows in the normalisation domain *)

Module GradientFacts.
Import Ranking Coloring ColoringSpec Samples.

Lemma gradient_channel_bounds t mn mx :
  t <> 0 -> mn <= t <= mx ->
  exists c,
    get_color_for_age t mn mx = Returned c /\
    red c = 255 /\ 140 <= green c <= 240 /\ 60 <= blue c <= 200.
Proof.
  intros Ht Hr.
  destruct (Z.eq_dec mn mx) as [->|E].
  - exists mid_gradient_color.
    rewrite ColoringFacts.get_color_for_age_one_point by assumption.
    simpl. repeat split; lia.
  - destruct (GradientBranch.gradient_in_range t mn mx Ht E)
      as (Ec & Hg & Hb); [now apply GradientBranch.exact_ratio_bounds|].
    eexists. split; [exact Ec|]. cbn [red green blue].
    split; [reflexivity|]. split; assumption.
Qed.

(** An unacknowledged row that is neither dead nor paused and has a file
    time above 0 gets a colour, with red 255, green between 140 and 240
    and blue between 60 and 200; when every such row has the same file
    time, each of them gets the mid-gradient colour (255, 220, 180). *)
Theorem domain_rows_colors :
  forall (queries : list (string * Query)) (now : Z) (q : string * Query),
    In q queries ->
    acknowledged q.2 = false -> dead q.2 = false -> paused q.2 = false ->
    last_file_time q.2 > 0 ->
    exists c,
      create_query_item q.2 now (time_range queries).1 (time_range queries).2
        = Returned c /\
      red c = 255 /\ 140 <= green c <= 240 /\ 60 <= blue c <= 200 /\
      ((forall q', In q' queries -> acknowledged q'.2 = false ->
                   last_file_time q'.2 > 0 ->
                   last_file_time q'.2 = last_file_time q.2) ->
       c = mid_gradient_color).
Proof.
  intros queries now q Hin Ha Hd Hp Hpos.
  rewrite ColoringFacts.unacknowledged_row_color by assumption.
  assert (Hv : In (last_file_time q.2) (valid_times queries)).
  { apply ColoringFacts.valid_times_In. exists q. auto. }
  destruct (ColoringFacts.time_range_spec queries)
    as [[E _]|(A1 & A2 & A3)]; [rewrite E in Hv; destruct Hv|].
  destruct (gradient_channel_bounds (last_file_time q.2)
              (time_range queries).1 (time_range queries).2)
    as (c & Ec & Hr & Hg & Hb); [lia|auto|].
  exists c. split; [exact Ec|].
  split; [exact Hr|]. split; [exact Hg|]. split; [exact Hb|].
  intros Hsame.
  apply ColoringFacts.valid_times_In in A1 as (q1 & I1 & E1 & P1 & U1).
  apply ColoringFacts.valid_times_In in A2 as (q2 & I2 & E2 & P2 & U2).
  pose proof (Hsame q1 I1 U1 P1) as S1.
  pose proof (Hsame q2 I2 U2 P2) as S2.
  assert (Heq : (time_range queries).1 = (time_range queries).2) by congruence.
  rewrite Heq in Ec.
  rewrite ColoringFacts.get_color_for_age_one_point in Ec by lia.
  now injection Ec as <-.
Qed.

Lemma domain_rows_colors_witness :
  (exists c, create_query_item row_old.2 sample_now 100 200 = Returned c /\
             140 <= green c <= 240) /\
  create_query_item row_old.2 sample_now 100 100 = Returned mid_gradient_color.
Proof.
  split.
  - destruct (domain_rows_colors [row_old; row_fresh] sample_now row_old)
      as (c & Ec & _ & Hg & _);
      [simpl; auto|reflexivity|reflexivity|reflexivity|simpl; lia|].
    exists c. split; [exact Ec|exact Hg].
  - destruct (domain_rows_colors [row_old] sample_now row_old)
      as (c & Ec & _ & _ & _ & Hm);
      [simpl; auto|reflexivity|reflexivity|reflexivity|simpl; lia|].
    rewrite (Hm (fun q' H _ _ =>
               match H with
               | or_introl E => f_equal (fun r => last_file_time r.2) (eq_sym E)
               | or_intror F => match F with end
               end)) in Ec.
    exact Ec.
Defined.

End GradientFacts.

(** ** Stored rows: ingesting twice, and what loading returns *)

Module StoredFacts.
Import Model Persistence Stored.






Section Grouping.
Variable json_loads : string -> option (list json).

Local Abbreviation queries_of := (Stored.queries_of json_loads).

Lemma has_group_keys k groups :
  has_group k groups = existsb (fun k' => k' =? k) (map fst groups).
Proof.
  unfold has_group. induction groups as [|g groups IH]; [reflexivity|].
  simpl. now rewrite IH.
Qed.

Lemma existsb_keys_false k (keys : list Z) :
  existsb (fun k' => k' =? k) keys = false <-> ~ In k keys.
Proof.
  induction keys as [|a keys IH]; simpl; [tauto|].
  rewrite orb_false_iff, IH, Z.eqb_neq. intuition congruence.
Qed.

Lemma existsb_keys_true k (keys : list Z) :
  existsb (fun k' => k' =? k) keys = true <-> In k keys.
Proof.
  induction keys as [|a keys IH]; simpl; [intuition discriminate|].
  rewrite orb_true_iff, IH, Z.eqb_eq. tauto.
Qed.

Lemma extend_nil g : extend g [] = g.
Proof.
  destruct g as [k [n gug qs]]. unfold extend. simpl.
  now rewrite app_nil_r.
Qed.

Lemma extend_extend g qs1 qs2 :
  extend (extend g qs1) qs2 = extend g (qs1 ++ qs2).
Proof. unfold extend. simpl. now rewrite app_assoc. Qed.

Lemma extend_key g qs : (extend g qs).1 = g.1.
Proof. reflexivity. Qed.

Lemma queries_of_cons k row rows :
  queries_of k (row :: rows) = queries_of k [row] ++ queries_of k rows.
Proof.
  unfold Stored.queries_of. simpl.
  destruct (if col_id row.1 =? k then _ else _); reflexivity.
Qed.

Lemma queries_of_other k row :
  col_id row.1 <> k -> queries_of k [row] = [].
Proof.
  intros H. unfold Stored.queries_of. simpl.
  apply Z.eqb_neq in H. now rewrite H.
Qed.

(** [append_query] on groups with distinct keys. *)
Lemma append_query_map k q groups :
  NoDup (map fst groups) ->
  append_query k q groups =
  map (fun g => if g.1 =? k then extend g [q] else g) groups.
Proof.
  induction groups as [|[k' sub] groups IH]; intros Hnd; [reflexivity|].
  simpl in *. apply NoDup_cons in Hnd as [Hk' Hnd].
  destruct (k' =? k) eqn:E.
  - apply Z.eqb_eq in E. subst k'. unfold extend at 1. simpl. f_equal.
    clear IH Hnd. induction groups as [|g groups IH]; [reflexivity|].
    simpl in *. destruct (g.1 =? k) eqn:Eg.
    + apply Z.eqb_eq in Eg. exfalso. apply Hk'. rewrite elem_of_cons.
      left. now symmetry.
    + f_equal. apply IH. intros H. apply Hk'. rewrite elem_of_cons.
      now right.
  - f_equal. now apply IH.
Qed.

Lemma first_seen_fresh rows :
  forall seen s, In s (first_seen seen rows) -> ~ In (col_id s) seen.
Proof.
  induction rows as [|row rows IH]; intros seen s Hs; [destruct Hs|].
  simpl in Hs.
  destruct (existsb (fun k => k =? col_id row.1) seen) eqn:E.
  - now apply IH.
  - destruct Hs as [<-|Hs]; [now apply existsb_keys_false|].
    apply IH in Hs. intros H. apply Hs. apply in_or_app. now left.
Qed.

(** The groups [group_rows] builds, when every stored velocity decodes:
    the groups it was given, each with the queries the rows carry for it,
    followed by one group for every subscription first seen in the rows,
    with the queries the rows carry for it. *)
Lemma group_rows_spec rows :
  forall groups,
    NoDup (map fst groups) ->
    (forall row q, In row rows -> row.2 = Some q ->
                   is_Some (query_data json_loads q)) ->
    group_rows json_loads rows groups =
    inr (map (fun g => extend g (queries_of g.1 rows)) groups
         ++ map (fun s => group_of s (queries_of (col_id s) rows))
              (first_seen (map fst groups) rows)).
Proof.
  induction rows as [|row rows IH]; intros groups Hnd Hdec.
  { simpl. rewrite app_nil_r. f_equal.
    induction groups as [|g groups IHg]; [reflexivity|].
    simpl. rewrite extend_nil. f_equal. apply IHg.
    now apply NoDup_cons in Hnd as [_ ?]. }
  set (k := col_id row.1).
  set (groups1 :=
         if has_group k groups then groups
         else groups ++ [group_of row.1 []]).
  assert (Hnd1 : NoDup (map fst groups1)).
  { unfold groups1. destruct (has_group k groups) eqn:E; [exact Hnd|].
    rewrite map_app. simpl. apply NoDup_app. split; [exact Hnd|].
    split; [|apply NoDup_singleton].
    intros x Hx Hx'. rewrite elem_of_cons in Hx'.
    destruct Hx' as [->|Hx']; [|now apply elem_of_nil in Hx'].
    rewrite has_group_keys in E. apply existsb_keys_false in E.
    apply E. now apply list_elem_of_In. }
  assert (Hstep :
    group_rows json_loads (row :: rows) groups =
    group_rows json_loads rows
      (map (fun g => extend g (queries_of g.1 [row])) groups1)).
  { change (group_rows json_loads (row :: rows) groups) with
      (match row.2 with
       | None => group_rows json_loads rows groups1
       | Some q =>
           match query_data json_loads q with
           | None => inl JSONDecodeError
           | Some query =>
               group_rows json_loads rows (append_query k query groups1)
           end
       end).
    destruct row as [s [q|]] eqn:Erow; simpl.
    - destruct (Hdec (s, Some q) q (or_introl eq_refl) eq_refl)
        as [query Hq].
      rewrite Hq. rewrite append_query_map by exact Hnd1.
      f_equal. apply map_ext. intros g.
      unfold Stored.queries_of. simpl. change (col_id s) with k.
      rewrite (Z.eqb_sym k g.1).
      destruct (g.1 =? k); [reflexivity|now rewrite extend_nil].
    - f_equal. rewrite <- (map_id groups1) at 1. apply map_ext. intros g.
      unfold Stored.queries_of. simpl.
      destruct (col_id s =? g.1); now rewrite extend_nil. }
  rewrite Hstep. clear Hstep.
  assert (Hkeys :
    map fst (map (fun g => extend g (queries_of g.1 [row])) groups1) =
    map fst groups1).
  { rewrite map_map. apply map_ext. reflexivity. }
  rewrite IH.
  2:{ rewrite Hkeys. exact Hnd1. }
  2:{ intros r q Hr. apply Hdec. now right. }
  f_equal. rewrite Hkeys, !map_map.
  assert (Hold : forall gs,
    map (fun x => extend (extend x (queries_of x.1 [row]))
                    (queries_of (extend x (queries_of x.1 [row])).1 rows)) gs
    = map (fun g => extend g (queries_of g.1 (row :: rows))) gs).
  { intros gs. apply map_ext. intros g.
    rewrite extend_extend, extend_key, <- queries_of_cons. reflexivity. }
  rewrite Hold. clear Hold.
  assert (Hnew : forall seen,
    In k seen ->
    map (fun s => group_of s (queries_of (col_id s) rows))
      (first_seen seen rows) =
    map (fun s => group_of s (queries_of (col_id s) (row :: rows)))
      (first_seen seen rows)).
  { intros seen Hk. apply map_ext_in. intros s Hs.
    apply first_seen_fresh in Hs.
    rewrite (queries_of_cons _ row), queries_of_other; [reflexivity|].
    fold k. intros ->. now apply Hs. }
  unfold groups1. simpl first_seen. fold k.
  rewrite <- has_group_keys.
  destruct (has_group k groups) eqn:E.
  - f_equal. apply Hnew.
    rewrite has_group_keys in E. now apply existsb_keys_true.
  - rewrite !map_app. simpl. rewrite <- app_assoc. simpl. f_equal. f_equal.
    assert (Hk : In k (map fst groups ++ [k]))
      by (apply in_or_app; right; now left).
    exact (Hnew (map fst groups ++ [k]) Hk).
Qed.

End Grouping.

Section Loading.
Variable json_loads : string -> option (list json).

Local Abbreviation queries_of := (Stored.queries_of json_loads).
Local Abbreviation block s qs :=
  (match stored_queries s qs with
   | [] => [(s, None)]
   | matching => map (fun q => (s, Some q)) matching
   end).

Lemma left_join_cons s subs qs :
  left_join (s :: subs) qs = block s qs ++ left_join subs qs.
Proof. reflexivity. Qed.

Lemma queries_of_app k rows1 rows2 :
  queries_of k (rows1 ++ rows2) = queries_of k rows1 ++ queries_of k rows2.
Proof. unfold Stored.queries_of. apply omap_app. Qed.

Lemma queries_of_block k s qs :
  queries_of k (block s qs) =
  if col_id s =? k
  then omap (query_data json_loads) (stored_queries s qs) else [].
Proof.
  assert (H : forall m,
    queries_of k (map (fun q => (s, Some q)) m) =
    if col_id s =? k then omap (query_data json_loads) m else []).
  { induction m as [|x m IH].
    - now destruct (col_id s =? k).
    - change (map (fun q => (s, Some q)) (x :: m))
        with ((s, Some x) :: map (fun q => (s, Some q)) m).
      rewrite (queries_of_cons json_loads), IH.
      unfold Stored.queries_of. simpl.
      destruct (col_id s =? k); [|reflexivity].
      destruct (query_data json_loads x); reflexivity. }
  destruct (stored_queries s qs) as [|x m] eqn:E.
  - unfold Stored.queries_of. simpl. now destruct (col_id s =? k).
  - apply H.
Qed.

Lemma block_In s qs row :
  In row (block s qs) ->
  row.1 = s /\ forall q, row.2 = Some q -> In q qs.
Proof.
  destruct (stored_queries s qs) as [|x m] eqn:E.
  - intros [<-|[]]. split; [reflexivity|discriminate].
  - rewrite <- E. clear E. intros H. apply in_map_iff in H as (q & <- & Hq).
    split; [reflexivity|]. intros q' [= <-].
    unfold stored_queries in Hq. now apply filter_In in Hq as [? _].
Qed.

Lemma block_head s qs : exists row, In row (block s qs) /\ row.1 = s.
Proof.
  destruct (stored_queries s qs) as [|x m].
  - exists (s, None). split; [now left|reflexivity].
  - exists (s, Some x). split; [now left|reflexivity].
Qed.

Lemma left_join_In subs qs row :
  In row (left_join subs qs) ->
  In row.1 subs /\ forall q, row.2 = Some q -> In q qs.
Proof.
  induction subs as [|s subs IH]; [intros []|].
  rewrite left_join_cons. intros H. apply in_app_or in H as [H|H].
  - apply block_In in H as [<- Hq]. split; [now left|exact Hq].
  - apply IH in H as [H1 H2]. split; [now right|exact H2].
Qed.

Lemma left_join_covers subs qs s :
  In s subs -> In s (map fst (left_join subs qs)).
Proof.
  induction subs as [|a subs IH]; [intros []|].
  rewrite left_join_cons, map_app. intros [->|H]; apply in_or_app.
  - left. destruct (block_head s qs) as (row & Hrow & <-).
    now apply in_map.
  - right. now apply IH.
Qed.

Lemma queries_of_left_join_absent k subs qs :
  ~ In k (map col_id subs) -> queries_of k (left_join subs qs) = [].
Proof.
  induction subs as [|a subs IH]; intros Hk; [reflexivity|].
  rewrite left_join_cons, queries_of_app, queries_of_block.
  simpl in Hk. destruct (col_id a =? k) eqn:E.
  - apply Z.eqb_eq in E. tauto.
  - apply IH. tauto.
Qed.

Lemma queries_of_left_join subs qs s :
  NoDup (map col_id subs) -> In s subs ->
  queries_of (col_id s) (left_join subs qs) =
  omap (query_data json_loads) (stored_queries s qs).
Proof.
  induction subs as [|a subs IH]; intros Hnd Hs; [destruct Hs|].
  simpl in Hnd. apply NoDup_cons in Hnd as [Ha Hnd].
  rewrite list_elem_of_In in Ha.
  rewrite left_join_cons, queries_of_app, queries_of_block.
  destruct Hs as [->|Hs].
  - rewrite Z.eqb_refl, queries_of_left_join_absent by exact Ha.
    apply app_nil_r.
  - destruct (col_id a =? col_id s) eqn:E.
    + apply Z.eqb_eq in E. exfalso. apply Ha. rewrite E. now apply in_map.
    + now apply IH.
Qed.

Lemma NoDup_map_inj {A B} (f : A -> B) (l : list A) a b :
  NoDup (map f l) -> In a l -> In b l -> f a = f b -> a = b.
Proof.
  induction l as [|x l IH]; intros Hnd Ha Hb Hf; [destruct Ha|].
  simpl in Hnd. apply NoDup_cons in Hnd as [Hx Hnd].
  rewrite list_elem_of_In in Hx.
  destruct Ha as [->|Ha], Hb as [->|Hb]; auto.
  - exfalso. apply Hx. rewrite Hf. now apply in_map.
  - exfalso. apply Hx. rewrite <- Hf. now apply in_map.
Qed.

Lemma first_seen_NoDup rows :
  forall seen, NoDup (map col_id (first_seen seen rows)).
Proof.
  induction rows as [|row rows IH]; intros seen; [constructor|].
  simpl. destruct (existsb _ seen); [apply IH|].
  simpl. apply NoDup_cons. split; [|apply IH].
  rewrite list_elem_of_In. intros H. apply in_map_iff in H as (s & Hs & H).
  apply first_seen_fresh in H. apply H. rewrite Hs.
  apply in_or_app. right. now left.
Qed.

Lemma first_seen_In rows :
  (forall a b, In a (map fst rows) -> In b (map fst rows) ->
               col_id a = col_id b -> a = b) ->
  forall seen x,
    In x (first_seen seen rows) <->
    In x (map fst rows) /\ ~ In (col_id x) seen.
Proof.
  induction rows as [|row rows IH]; intros Hinj seen x; [simpl; tauto|].
  assert (Hinj' : forall a b, In a (map fst rows) -> In b (map fst rows) ->
                              col_id a = col_id b -> a = b).
  { intros a b Ha Hb. apply Hinj; now right. }
  simpl. destruct (existsb _ seen) eqn:E.
  - rewrite (IH Hinj'). apply existsb_keys_true in E.
    split; [tauto|]. intros [[<-|H] Hx]; tauto.
  - apply existsb_keys_false in E. simpl. rewrite (IH Hinj').
    rewrite in_app_iff. simpl. split.
    + intros [<-|[H Hx]]; tauto.
    + intros [[<-|H] Hx]; [now left|].
      destruct (Z.eq_dec (col_id row.1) (col_id x)) as [Heq|Hne].
      * left. apply Hinj; [now left|now right|exact Heq].
      * right. split; [exact H|]. intros [?|[?|[]]]; tauto.
Qed.

Lemma order_rows_perm subs qs :
  Permutation (list_sort order_leb order_key (left_join subs qs))
    (left_join subs qs).
Proof. apply list_sort_perm. Qed.

(** What [load_subscription_data] returns on a store whose subscription
    ids are distinct and whose stored velocities decode, when the read
    goes through. *)
Lemma load_stored subs qs s q faults :
  NoDup (map col_id subs) ->
  Forall (fun r => is_Some (query_data json_loads r)) qs ->
  enough 1 faults ->
  let store := Sqlite (mkDatabase (Some subs) (Some qs) s q) in
  let rows := list_sort order_leb order_key (left_join subs qs) in
  load_subscription_data json_loads store faults =
    (Returned
       (mkSubscriptionData
          (map (fun sub =>
                  mkSubscription (col_name sub) (col_gug_name sub)
                    (queries_of (col_id sub) rows))
             (first_seen [] rows))
          80 "From Database"),
     store) /\
  Permutation (first_seen [] rows) subs /\
  forall sub, In sub subs ->
    Permutation (queries_of (col_id sub) rows)
      (omap (query_data json_loads) (stored_queries sub qs)).
Proof.
  intros Hnd Hdec Hb store rows.
  assert (Hrows : Permutation rows (left_join subs qs))
    by apply order_rows_perm.
  split; [|split].
  - pose proof (PersistenceFacts.load_leaves_store json_loads store faults)
      as H2.
    pose proof (PersistenceFacts.load_rows_enough json_loads
                  (mkDatabase (Some subs) (Some qs) s q) faults Hb) as H1.
    unfold select_subscriptions_with_queries in H1. simpl in H1.
    fold rows in H1.
    rewrite (group_rows_spec json_loads rows []) in H1.
    + simpl in H1. rewrite map_map in H1. simpl in H1.
      unfold load_subscription_data in *. unfold store in *.
      destruct (load_rows json_loads _) as [[e|data] c];
        simpl in H1; [discriminate|].
      injection H1 as ->. simpl in H2. now rewrite H2.
    + constructor.
    + intros row r Hrow Hr.
      eapply Permutation_in in Hrow; [|exact Hrows].
      apply left_join_In in Hrow as [_ Hrow].
      rewrite Forall_forall in Hdec. apply Hdec. rewrite list_elem_of_In.
      now apply Hrow.
  - apply NoDup_Permutation.
    + eapply NoDup_fmap_1. apply first_seen_NoDup.
    + eapply NoDup_fmap_1. exact Hnd.
    + intros x. rewrite !list_elem_of_In, first_seen_In.
      * split.
        -- intros [H _]. eapply Permutation_in in H;
             [|apply Permutation_map; exact Hrows].
           apply in_map_iff in H as (row & <- & H).
           now apply left_join_In in H as [? _].
        -- intros H. split; [|now intros []].
           eapply Permutation_in;
             [apply Permutation_map; symmetry; exact Hrows|].
           now apply left_join_covers.
      * intros a b Ha Hb'.
        apply (NoDup_map_inj col_id subs a b Hnd).
        -- eapply Permutation_in in Ha;
             [|apply Permutation_map; exact Hrows].
           apply in_map_iff in Ha as (row & <- & H).
           now apply left_join_In in H as [? _].
        -- eapply Permutation_in in Hb';
             [|apply Permutation_map; exact Hrows].
           apply in_map_iff in Hb' as (row & <- & H).
           now apply left_join_In in H as [? _].
  - intros sub Hsub.
    rewrite <- (queries_of_left_join subs qs sub Hnd Hsub).
    unfold Stored.queries_of. now rewrite Hrows.
Qed.

End Loading.

Lemma decodable_query_data json_loads row :
  decodable json_loads row <-> is_Some (query_data json_loads row).
Proof.
  unfold decodable, query_data.
  destruct (String.eqb_spec (col_file_velocity_data row) "") as [E|E].
  - split; [eauto|now left].
  - split.
    + intros [H|[v Hv]]; [contradiction|]. rewrite Hv. simpl. eauto.
    + intros [query H]. right.
      destruct (json_loads (col_file_velocity_data row)); [eauto|discriminate].
Qed.

Lemma query_data_loaded_as json_loads row query :
  query_data json_loads row = Some query -> loaded_as json_loads row query.
Proof.
  unfold query_data, loaded_as. intros H.
  destruct (String.eqb (col_file_velocity_data row) "") eqn:E.
  - simpl in H. injection H as <-. simpl. repeat split.
  - destruct (json_loads (col_file_velocity_data row)) as [v|] eqn:Ev;
      [|discriminate].
    simpl in H. injection H as <-. simpl. repeat split.
Qed.

Lemma omap_query_data_loaded_as json_loads rows :
  Forall2 (loaded_as json_loads) 
    (List.filter (fun r => bool_decide (is_Some (query_data json_loads r)))
       rows)
    (omap (query_data json_loads) rows).
Proof.
  induction rows as [|r rows IH]; [constructor|].
  simpl. destruct (query_data json_loads r) as [query|] eqn:E.
  - rewrite bool_decide_eq_true_2 by eauto.
    constructor; [now apply query_data_loaded_as|exact IH].
  - rewrite bool_decide_eq_false_2 by (intros [? ?]; discriminate).
    exact IH.
Qed.

Lemma filter_all {A} (p : A -> bool) l :
  Forall (fun x => p x = true) l -> List.filter p l = l.
Proof.
  induction 1 as [|x l Hx _ IH]; [reflexivity|].
  simpl. rewrite Hx. now f_equal.
Qed.

(** What is stored is what is loaded.  On a store whose subscription ids
    are distinct and whose stored velocity texts are empty or accepted by
    [json.loads], a read that goes through returns version 80 and 'From
    Database', leaves the store as it is, and returns every stored
    subscription exactly once, those without queries included, each with
    its name, its "gug" name and exactly the stored queries that name its
    id: each of them once, with the row id, every column in its field, the
    velocity text decoded and the acknowledgment pair as stored. *)
Theorem load_returns_stored_rows :
  forall json_loads subs qs s q faults,
    NoDup (map col_id subs) ->
    Forall (decodable json_loads) qs ->
    enough 1 faults ->
    let store := Sqlite (mkDatabase (Some subs) (Some qs) s q) in
    exists data subs',
      load_subscription_data json_loads store faults =
        (Returned data, store) /\
      version data = 80 /\
      hydrus_version data = "From Database" /\
      Permutation subs' subs /\
      Forall2
        (fun loaded sub =>
           name loaded = col_name sub /\
           gug_name loaded = col_gug_name sub /\
           exists rows,
             Permutation rows (stored_queries sub qs) /\
             Forall2 (loaded_as json_loads) rows (queries loaded))
        (subscriptions data) subs'.
Proof.
  intros json_loads subs qs s q faults Hnd Hdec Hb store.
  assert (Hdec' : Forall (fun r => is_Some (query_data json_loads r)) qs).
  { eapply Forall_impl; [exact Hdec|]. intros r. apply decodable_query_data. }
  destruct (load_stored json_loads subs qs s q faults Hnd Hdec' Hb)
    as (Hload & Hperm & Hqs).
  eexists. exists (first_seen [] (list_sort order_leb order_key
                                    (left_join subs qs))).
  split; [exact Hload|]. split; [reflexivity|]. split; [reflexivity|].
  split; [exact Hperm|].
  simpl. apply Forall2_fmap_l. apply Forall_Forall2_diag.
  apply Forall_forall. intros sub Hsub. simpl.
  split; [reflexivity|]. split; [reflexivity|].
  rewrite list_elem_of_In in Hsub.
  assert (Hin : In sub subs)
    by (eapply Permutation_in; [exact Hperm|exact Hsub]).
  specialize (Hqs sub Hin).
  pose proof (omap_query_data_loaded_as json_loads (stored_queries sub qs))
    as H2.
  rewrite filter_all in H2.
  2:{ apply Forall_forall. intros r Hr. apply bool_decide_eq_true_2.
      rewrite Forall_forall in Hdec'. apply Hdec'.
      apply list_elem_of_In. apply list_elem_of_In in Hr.
      unfold stored_queries in Hr. now apply filter_In in Hr as [? _]. }
  apply Forall2_flip in H2.
  destruct (Permutation_Forall2 (Permutation_sym Hqs) H2) as (rows & Hp & Hf).
  exists rows. split; [now symmetry|]. now apply Forall2_flip.
Qed.

Lemma load_returns_stored_rows_witness :
  exists data subs',
    load_subscription_data MoreSamples.sample_loads
      MoreSamples.sample_library None =
      (Returned data, MoreSamples.sample_library) /\
    version data = 80 /\
    hydrus_version data = "From Database" /\
    Permutation subs' MoreSamples.library_subscriptions /\
    Forall2
      (fun loaded sub =>
         name loaded = col_name sub /\
         gug_name loaded = col_gug_name sub /\
         exists rows,
           Permutation rows (stored_queries sub MoreSamples.library_queries) /\
           Forall2 (loaded_as MoreSamples.sample_loads) rows (queries loaded))
      (subscriptions data) subs'.
Proof.
  apply (load_returns_stored_rows MoreSamples.sample_loads
           MoreSamples.library_subscriptions MoreSamples.library_queries
           3 3 None).
  - apply (bool_decide_unpack _). vm_compute. exact I.
  - repeat (apply Forall_cons; split; [right; simpl; eauto|]).
    constructor.
  - exact I.
Defined.

(** *** The order of the loaded data *)

Lemma string_compare_refl s : String.compare s s = Eq.
Proof.
  induction s as [|c s IH]; [reflexivity|].
  simpl. unfold Ascii.compare. now rewrite N.compare_refl.
Qed.

Lemma string_leb_refl s : String.leb s s = true.
Proof. unfold String.leb. now rewrite string_compare_refl. Qed.

Lemma string_compare_trans a :
  forall b c,
    String.compare a b <> Gt -> String.compare b c <> Gt ->
    String.compare a c <> Gt.
Proof.
  induction a as [|x a IH]; intros [|y b] [|z c]; simpl; try congruence.
  destruct (Ascii.compare x y) eqn:E1; [| |congruence];
    destruct (Ascii.compare y z) eqn:E2; try congruence.
  - apply Ascii.compare_eq_iff in E1, E2. subst y z.
    unfold Ascii.compare. rewrite N.compare_refl. apply IH.
  - apply Ascii.compare_eq_iff in E1. subst y. now rewrite E2.
  - apply Ascii.compare_eq_iff in E2. subst z. now rewrite E1.
  - unfold Ascii.compare in *. rewrite N.compare_lt_iff in E1, E2.
    assert (H : (Ascii.N_of_ascii x < Ascii.N_of_ascii z)%N) by lia.
    apply N.compare_lt_iff in H. now rewrite H.
Qed.

Lemma string_leb_trans a b c :
  String.leb a b = true -> String.leb b c = true -> String.leb a c = true.
Proof.
  unfold String.leb. intros H1 H2.
  pose proof (string_compare_trans a b c) as H.
  destruct (String.compare a b), (String.compare b c),
    (String.compare a c); try reflexivity; try discriminate;
    exfalso; apply H; congruence.
Qed.

Lemma order_leb_total a b : order_leb a b = true \/ order_leb b a = true.
Proof.
  unfold order_leb. rewrite (String.eqb_sym b.1 a.1).
  destruct (String.eqb a.1 b.1); [|apply String.leb_total].
  destruct a.2, b.2; auto. apply String.leb_total.
Qed.

Lemma order_leb_trans a b c :
  order_leb a b = true -> order_leb b c = true -> order_leb a c = true.
Proof.
  unfold order_leb.
  destruct (String.eqb a.1 b.1) eqn:E1; destruct (String.eqb b.1 c.1) eqn:E2;
    try apply String.eqb_eq in E1; try apply String.eqb_eq in E2.
  - rewrite E1, E2, String.eqb_refl.
    destruct a.2, b.2, c.2; try congruence. apply string_leb_trans.
  - rewrite E1, E2. auto.
  - rewrite <- E2, E1. auto.
  - intros H1 H2. pose proof (string_leb_trans _ _ _ H1 H2) as H.
    destruct (String.eqb a.1 c.1) eqn:E3; [|exact H].
    apply String.eqb_eq in E3. rewrite <- E3 in H2.
    pose proof (String.leb_antisym _ _ H1 H2) as Heq.
    apply String.eqb_neq in E1. contradiction.
Qed.

Lemma order_leb_name a b :
  order_leb a b = true -> String.leb a.1 b.1 = true.
Proof.
  unfold order_leb. destruct (String.eqb a.1 b.1) eqn:E; [|auto].
  apply String.eqb_eq in E. rewrite E. intros _. apply string_leb_refl.
Qed.

Local Abbreviation by_name :=
  (fun a b : subscription_row => String.leb (col_name a) (col_name b) = true).
Local Abbreviation by_text :=
  (fun a b : Query => String.leb (query_text a) (query_text b) = true).
Local Abbreviation ordered :=
  (StronglySorted (key_order order_leb order_key)).

Lemma first_seen_sub rows :
  forall seen x, In x (first_seen seen rows) -> In x (map fst rows).
Proof.
  induction rows as [|row rows IH]; intros seen x; [intros []|].
  simpl. destruct (existsb _ seen).
  - intros H. right. eapply IH, H.
  - intros [<-|H]; [now left|]. right. eapply IH, H.
Qed.

Lemma first_seen_sorted rows :
  ordered rows -> forall seen, StronglySorted by_name (first_seen seen rows).
Proof.
  induction 1 as [|row rows Hs IH Hrow]; intros seen; [constructor|].
  simpl. destruct (existsb _ seen); [apply IH|].
  constructor; [apply IH|].
  apply Forall_forall. intros x Hx. apply list_elem_of_In in Hx.
  apply first_seen_sub in Hx. apply in_map_iff in Hx as (row' & <- & Hx).
  rewrite Forall_forall in Hrow. apply list_elem_of_In, Hrow in Hx.
  now apply order_leb_name in Hx.
Qed.

Lemma queries_of_sorted json_loads k rows :
  (forall a b, In a (map fst rows) -> In b (map fst rows) ->
               col_id a = col_id b -> a = b) ->
  ordered rows ->
  StronglySorted by_text (Stored.queries_of json_loads k rows).
Proof.
  intros Hinj Hs. induction Hs as [|row rows Hs IH Hrow]; [constructor|].
  assert (Hinj' : forall a b, In a (map fst rows) -> In b (map fst rows) ->
                              col_id a = col_id b -> a = b).
  { intros a b Ha Hb. apply Hinj; now right. }
  specialize (IH Hinj').
  rewrite queries_of_cons. unfold Stored.queries_of at 1. simpl.
  destruct (col_id row.1 =? k) eqn:E; [|exact IH].
  destruct row.2 as [q|] eqn:Eq; [|exact IH]. simpl.
  destruct (query_data json_loads q) as [query|] eqn:Equery; [|exact IH].
  simpl. constructor; [exact IH|].
  apply Forall_forall. intros query' Hq'.
  unfold Stored.queries_of in Hq'. apply list_elem_of_omap in Hq'
    as (row' & Hrow' & Hq').
  destruct (col_id row'.1 =? k) eqn:E'; [|discriminate].
  destruct row'.2 as [q'|] eqn:Eq'; [|discriminate]. simpl in Hq'.
  rewrite Forall_forall in Hrow. pose proof (Hrow _ Hrow') as Hle.
  unfold key_order, order_key in Hle. rewrite Eq, Eq' in Hle. simpl in Hle.
  assert (Hsame : row.1 = row'.1).
  { apply Hinj; [now left| |].
    - right. apply in_map. now apply list_elem_of_In.
    - apply Z.eqb_eq in E, E'. congruence. }
  unfold order_leb in Hle. simpl in Hle.
  rewrite Hsame, String.eqb_refl in Hle.
  unfold query_data in Equery, Hq'.
  destruct (if String.eqb (col_file_velocity_data q) "" then _ else _);
    [|discriminate].
  destruct (if String.eqb (col_file_velocity_data q') "" then _ else _);
    [|discriminate].
  simpl in Equery, Hq'. injection Equery as <-. injection Hq' as <-.
  exact Hle.
Qed.

(** The order of what is loaded.  Under the same conditions the
    subscriptions come back in the byte order of their names, and the
    queries of each subscription in the byte order of their query
    texts. *)
Theorem load_subscription_data_sorted :
  forall json_loads subs qs s q faults,
    NoDup (map col_id subs) ->
    Forall (fun r => is_Some (query_data json_loads r)) qs ->
    enough 1 faults ->
    exists data,
      (load_subscription_data json_loads
         (Sqlite (mkDatabase (Some subs) (Some qs) s q)) faults).1 =
        Returned data /\
      StronglySorted
        (fun a b => String.leb (name a) (name b) = true)
        (subscriptions data) /\
      Forall
        (fun sub =>
           StronglySorted
             (fun a b => String.leb (query_text a) (query_text b) = true)
             (queries sub))
        (subscriptions data).
Proof.
  intros json_loads subs qs s q faults Hnd Hdec Hb.
  destruct (load_stored json_loads subs qs s q faults Hnd Hdec Hb)
    as (Hload & Hperm & _).
  eexists. split; [rewrite Hload; reflexivity|].
  set (rows := list_sort order_leb order_key (left_join subs qs)) in *.
  assert (Hs : ordered rows)
    by (apply list_sort_ascending;
        [apply order_leb_total|apply order_leb_trans]).
  simpl. split.
  - pose proof (first_seen_sorted rows Hs []) as H. clear Hload Hperm.
    induction H as [|x l Hl IH Hx]; [constructor|].
    simpl. constructor; [exact IH|].
    apply Forall_fmap. exact Hx.
  - apply Forall_fmap, Forall_forall. intros sub _. simpl.
    apply queries_of_sorted; [|exact Hs].
    assert (Hin : forall a, In a (map fst rows) -> In a subs).
    { intros a Ha. eapply Permutation_in in Ha;
        [|apply Permutation_map, order_rows_perm].
      apply in_map_iff in Ha as (row & <- & H).
      now apply left_join_In in H as [? _]. }
    intros a b Ha Hb'. apply (NoDup_map_inj col_id subs a b Hnd); auto.
Qed.

Lemma load_subscription_data_sorted_witness :
  exists data,
    (load_subscription_data MoreSamples.sample_loads
       MoreSamples.sample_library None).1 = Returned data /\
    StronglySorted
      (fun a b => String.leb (name a) (name b) = true)
      (subscriptions data) /\
    Forall
      (fun sub =>
         StronglySorted
           (fun a b => String.leb (query_text a) (query_text b) = true)
           (queries sub))
      (subscriptions data).
Proof.
  apply (load_subscription_data_sorted MoreSamples.sample_loads
           MoreSamples.library_subscriptions MoreSamples.library_queries
           3 3 None).
  - apply (bool_decide_unpack _). vm_compute. exact I.
  - repeat constructor; simpl; eauto.
  - exact I.
Defined.

End StoredFacts.
